(** * V2V-simulation: interference graph, vehicle motion and tick loop

    A shallow embedding of [InterferenceGraph] (src/src/interference_graph.cpp),
    [Vehicule::update] (src/src/vehicule.cpp) and the parts of [Simulator]
    (src/src/simulator.cpp) that feed them.

    Doubles are modelled as real numbers ([R]); [std::unordered_map<int, ...>]
    as [gmap Z ...]; [std::unordered_set<int>] and [std::set<int>] as
    [gset Z]; [std::vector<T>] as [list T] read with [!!] (an index at or past
    [size()] reads [None], which is where the source has its bound checks). *)

From Stdlib Require Import Reals Lra Lia.
From stdpp Require Import base gmap list relations strings.

(* ================================================================== *)
(** ** Data model of interference_graph.h *)

Module VehicleSnapshot.
(** [struct VehicleSnapshot] *)
Record t := mk {
  id : Z;
  lon : R;
  lat : R;
  transmissionRange : R;
  microAntennaId : Z
}.
End VehicleSnapshot.

(** [struct AntennaNeighborhood]: micro-cell id -> snapshot indices, and
    micro-cell id -> neighbouring micro-cell ids. *)
Record AntennaNeighborhood := mkAntennaNeighborhood {
  vehiclesPerAntenna : gmap Z (list nat);
  neighborAntennas : gmap Z (gset Z)
}.

(** The adjacency map and the closure map: vehicle id -> set of ids. *)
Abbreviation AdjMap := (gmap Z (gset Z)).

(** [m[k]] read as a value: the set stored at [k], the empty set when
    [operator[]] would have to create it. *)
Definition adjOf (m : AdjMap) (k : Z) : gset Z := default ∅ (m !! k).

(** [m[k].insert(v)] *)
Definition setInsert (k v : Z) (m : AdjMap) : AdjMap :=
  <[k := {[v]} ∪ adjOf m k]> m.

(** [m_adjacencyList[v1.id].insert(v2.id); m_adjacencyList[v2.id].insert(v1.id);] *)
Definition linkPair (a b : Z) (m : AdjMap) : AdjMap :=
  setInsert b a (setInsert a b m).

(* ================================================================== *)
(** ** Distance and range gate of [buildGraphFromSnapshots] *)

Definition Rleb (x y : R) : bool := if Rle_dec x y then true else false.

Section Distance.
Import VehicleSnapshot.

(** [dLat = (v2.lat - v1.lat) * 111000.0;
    dLon = (v2.lon - v1.lon) * 111000.0 * cos(v1.lat * M_PI / 180.0);
    distance = sqrt(dLat * dLat + dLon * dLon);] *)
Definition snapDistance (v1 v2 : VehicleSnapshot.t) : R :=
  let dLat := ((lat v2 - lat v1) * 111000)%R in
  let dLon := ((lon v2 - lon v1) * 111000 * cos (lat v1 * PI / 180))%R in
  sqrt (dLat * dLat + dLon * dLon).

(** [distance <= v1.transmissionRange && distance <= v2.transmissionRange] *)
Definition inMutualRange (v1 v2 : VehicleSnapshot.t) : bool :=
  let d := snapDistance v1 v2 in
  Rleb d (transmissionRange v1) && Rleb d (transmissionRange v2).
End Distance.

(** One comparison of the builder: the body of every inner loop. *)
Definition compareStep (v1 v2 : VehicleSnapshot.t) (adj : AdjMap) : AdjMap :=
  if inMutualRange v1 v2
  then linkPair (VehicleSnapshot.id v1) (VehicleSnapshot.id v2) adj
  else adj.

Section Builder.
Variable snapshots : list VehicleSnapshot.t.

(** Inner loop [for (j = i + 1; ...)] of the same-antenna comparison,
    with its bound check [if (idx2 >= snapshots.size()) continue;]. *)
Definition sameAntennaInner (v1 : VehicleSnapshot.t) (rest : list nat)
    (adj : AdjMap) : AdjMap :=
  foldl (fun acc idx2 =>
           match snapshots !! idx2 with
           | Some v2 => compareStep v1 v2 acc
           | None => acc
           end) adj rest.

(** 1. Comparer les véhicules de la même antenne entre eux *)
Fixpoint sameAntenna (vehicleIndices : list nat) (adj : AdjMap) : AdjMap :=
  match vehicleIndices with
  | [] => adj
  | idx1 :: rest =>
      sameAntenna rest
        (match snapshots !! idx1 with
         | Some v1 => sameAntennaInner v1 rest adj
         | None => adj
         end)
  end.

(** [for (size_t idx1 : vehicleIndices) ... for (size_t idx2 : neighborVehicles)] *)
Definition crossAntennas (l1 l2 : list nat) (adj : AdjMap) : AdjMap :=
  foldl (fun acc idx1 =>
           match snapshots !! idx1 with
           | Some v1 =>
               foldl (fun acc2 idx2 =>
                        match snapshots !! idx2 with
                        | Some v2 => compareStep v1 v2 acc2
                        | None => acc2
                        end) acc l2
           | None => acc
           end) adj l1.

(** 2. Comparer avec les véhicules des antennes voisines *)
Definition neighborAntennasStep (ai : AntennaNeighborhood) (antennaId : Z)
    (vehicleIndices : list nat) (adj : AdjMap) : AdjMap :=
  match neighborAntennas ai !! antennaId with
  | None => adj
  | Some nbrs =>
      foldl (fun acc neighborAntennaId =>
               if decide (neighborAntennaId <= antennaId)%Z then acc
               else match vehiclesPerAntenna ai !! neighborAntennaId with
                    | None => acc
                    | Some l2 => crossAntennas vehicleIndices l2 acc
                    end) adj (elements nbrs)
  end.

(** The antenna-based loop over [antennaInfo->vehiclesPerAntenna]. *)
Definition antennaLoop (ai : AntennaNeighborhood) (adj : AdjMap) : AdjMap :=
  foldl (fun acc '(antennaId, vehicleIndices) =>
           neighborAntennasStep ai antennaId vehicleIndices
             (sameAntenna vehicleIndices acc))
        adj (map_to_list (vehiclesPerAntenna ai)).

(** Fallback: O(n²) classique si pas d'infos d'antennes *)
Definition fallbackLoop (adj : AdjMap) : AdjMap :=
  foldl (fun acc i =>
           match snapshots !! i with
           | Some v1 =>
               foldl (fun acc2 j =>
                        match snapshots !! j with
                        | Some v2 => compareStep v1 v2 acc2
                        | None => acc2
                        end) acc (seq (S i) (length snapshots - S i))
           | None => acc
           end) adj (seq 0 (length snapshots)).

(** [for (snap : snapshots) m_adjacencyList[snap.id] = {};] *)
Definition initAdjacency : AdjMap :=
  foldl (fun m s => <[VehicleSnapshot.id s := ∅]> m) ∅ snapshots.

(** Choice of path: [antennaInfo != nullptr && !antennaInfo->vehiclesPerAntenna.empty()] *)
Definition directLinks (antennaInfo : option AntennaNeighborhood) : AdjMap :=
  match antennaInfo with
  | Some ai =>
      if decide (vehiclesPerAntenna ai = ∅) then fallbackLoop initAdjacency
      else antennaLoop ai initAdjacency
  | None => fallbackLoop initAdjacency
  end.
End Builder.

(* ================================================================== *)
(** ** Transitive closure: [bfsReachable] and [computeTransitiveClosure] *)

(** Body of [for (int neighborId : it->second)]: a neighbour not yet
    visited is marked visited and pushed on the queue. *)
Definition visitNeighbor (st : gset Z * list Z) (neighborId : Z) : gset Z * list Z :=
  let '(visited, toVisit) := st in
  if decide (neighborId ∈ visited) then st
  else ({[neighborId]} ∪ visited, toVisit ++ [neighborId]).

(** The [while (!toVisit.empty())] loop, one iteration per unit of [fuel].
    [bfsFuel] below gives enough fuel for the queue to empty first
    ([bfsLoop_sound] and [bfsLoop_complete]). *)
Fixpoint bfsLoop (adj : AdjMap) (fuel : nat) (visited : gset Z) (toVisit : list Z)
    : gset Z :=
  match fuel with
  | O => visited
  | S fuel' =>
      match toVisit with
      | [] => visited
      | currentId :: rest =>
          match adj !! currentId with
          | None => bfsLoop adj fuel' visited rest
          | Some neighbors =>
              let '(visited', toVisit') :=
                foldl visitNeighbor (visited, rest) (elements neighbors) in
              bfsLoop adj fuel' visited' toVisit'
          end
      end
  end.

(** Every id the traversal can ever push: the start and all stored neighbours. *)
Definition bfsUniverse (adj : AdjMap) (startId : Z) : gset Z :=
  {[startId]} ∪ ⋃ (map snd (map_to_list adj)).

Definition bfsFuel (adj : AdjMap) (startId : Z) : nat :=
  S (size (bfsUniverse adj startId)).

(** [bfsReachable]: traversal from [startId], then [visited.erase(startId)]. *)
Definition bfsReachable (adj : AdjMap) (startId : Z) : gset Z :=
  bfsLoop adj (bfsFuel adj startId) {[startId]} [startId] ∖ {[startId]}.

(** [computeTransitiveClosure]: one traversal per key of the adjacency map. *)
Definition computeTransitiveClosure (adj : AdjMap) : AdjMap :=
  map_imap (fun vehicleId _ => Some (bfsReachable adj vehicleId)) adj.

(* ================================================================== *)
(** ** The [InterferenceGraph] object *)

Record InterferenceGraph := mkInterferenceGraph {
  adjacencyList : AdjMap;
  transitiveClosure : AdjMap;
  computeTransitive : bool
}.

(** [InterferenceGraph::buildGraphFromSnapshots]: both maps are cleared; an
    empty snapshot list returns right away; otherwise one empty set per
    snapshot id, the direct links, and the closure when
    [m_computeTransitive] is set. *)
Definition buildGraphFromSnapshots (g : InterferenceGraph)
    (snapshots : list VehicleSnapshot.t)
    (antennaInfo : option AntennaNeighborhood) : InterferenceGraph :=
  match snapshots with
  | [] => mkInterferenceGraph ∅ ∅ (computeTransitive g)
  | _ :: _ =>
      let adj := directLinks snapshots antennaInfo in
      mkInterferenceGraph adj
        (if computeTransitive g then computeTransitiveClosure adj else ∅)
        (computeTransitive g)
  end.

(** [InterferenceGraph::canCommunicate] *)
Definition canCommunicate (g : InterferenceGraph) (id1 id2 : Z) : bool :=
  match transitiveClosure g !! id1 with
  | None => false
  | Some reachable => bool_decide (id2 ∈ reachable)
  end.

(** [InterferenceGraph::getDirectNeighbors] *)
Definition getDirectNeighbors (g : InterferenceGraph) (vehicleId : Z) : gset Z :=
  adjOf (adjacencyList g) vehicleId.

(* ================================================================== *)
(** ** The comparisons performed, as lists of index pairs *)

(** Ordered pairs [(idx1, idx2)] in the order the nested loops visit them;
    [compareIdx] is one loop body, doing nothing when an index is past the
    end of the snapshot list. *)
Definition compareIdx (snapshots : list VehicleSnapshot.t) (adj : AdjMap)
    (pq : nat * nat) : AdjMap :=
  match snapshots !! pq.1, snapshots !! pq.2 with
  | Some v1, Some v2 => compareStep v1 v2 adj
  | _, _ => adj
  end.

Fixpoint samePairs (l : list nat) : list (nat * nat) :=
  match l with
  | [] => []
  | i :: rest => map (pair i) rest ++ samePairs rest
  end.

Definition neighborPairs (ai : AntennaNeighborhood) (antennaId : Z)
    (vehicleIndices : list nat) : list (nat * nat) :=
  match neighborAntennas ai !! antennaId with
  | None => []
  | Some nbrs =>
      flat_map (fun neighborAntennaId =>
                  if decide (neighborAntennaId <= antennaId)%Z then []
                  else match vehiclesPerAntenna ai !! neighborAntennaId with
                       | None => []
                       | Some l2 => list_prod vehicleIndices l2
                       end) (elements nbrs)
  end.

(** The pairs the antenna-based path compares. *)
Definition antennaPairs (ai : AntennaNeighborhood) : list (nat * nat) :=
  flat_map (fun '(antennaId, vehicleIndices) =>
              samePairs vehicleIndices ++ neighborPairs ai antennaId vehicleIndices)
           (map_to_list (vehiclesPerAntenna ai)).

(** The pairs the fallback compares: every [(i, j)] with [i < j < n]. *)
Definition fallbackPairs (n : nat) : list (nat * nat) :=
  flat_map (fun i => map (pair i) (seq (S i) (n - S i))) (seq 0 n).

(** The undirected edge [{a, b}] is set by one of the comparisons [ps]. *)
Definition linkedBy (snapshots : list VehicleSnapshot.t) (ps : list (nat * nat))
    (a b : Z) : Prop :=
  exists p q v1 v2,
    (p, q) ∈ ps /\ snapshots !! p = Some v1 /\ snapshots !! q = Some v2 /\
    inMutualRange v1 v2 = true /\
    ((a = VehicleSnapshot.id v1 /\ b = VehicleSnapshot.id v2) \/
     (a = VehicleSnapshot.id v2 /\ b = VehicleSnapshot.id v1)).

(** Symmetric membership in an adjacency map. *)
Definition symmetricAdj (m : AdjMap) : Prop :=
  forall i j, j ∈ adjOf m i <-> i ∈ adjOf m j.

(** The comparisons of one build, by path. *)
Definition buildPairs (snaps : list VehicleSnapshot.t)
    (antennaInfo : option AntennaNeighborhood) : list (nat * nat) :=
  match antennaInfo with
  | Some ai =>
      if decide (vehiclesPerAntenna ai = ∅) then fallbackPairs (length snaps)
      else antennaPairs ai
  | None => fallbackPairs (length snaps)
  end.

(* ================================================================== *)
(** ** Road graph (graph_types.h, graph_builder.cpp) *)

(** Boost [adjacency_list] with [vecS] vertices: vertex descriptors are
    [nat]; an edge descriptor carries its source, target and bundled
    properties. *)
Record VertexData := mkVertexData { vlat : R; vlon : R }.

Record Edge := mkEdge {
  esource : nat;
  etarget : nat;
  etype : string;
  edistance : R
}.

Record RoadGraph := mkRoadGraph {
  vertices : list nat;
  vertexData : nat -> VertexData;   (* [graph[v]] *)
  outEdges : nat -> list Edge       (* [boost::out_edges(v, graph)] *)
}.

(** [Edge backEdge = Edge();] and the value of a [currEdge] never assigned. *)
Definition placeholderEdge : Edge := mkEdge 0 0 "" 0.

(** The C library's [atan2] on reals. *)
Definition atan2 (y x : R) : R :=
  if Rlt_dec 0 x then atan (y / x)
  else if Rlt_dec x 0 then
    (if Rle_dec 0 y then atan (y / x) + PI else atan (y / x) - PI)%R
  else if Rlt_dec 0 y then (PI / 2)%R
  else if Rlt_dec y 0 then (- (PI / 2))%R
  else 0%R.

Definition Rltb (x y : R) : bool := if Rlt_dec x y then true else false.

(** [GraphBuilder::distance]: equirectangular approximation below 0.02°,
    haversine otherwise. *)
Definition graphDistance (lat1 lon1 lat2 lon2 : R) : R :=
  let Rearth := 6371000%R in
  let dLat := (lat2 - lat1)%R in
  let dLon := (lon2 - lon1)%R in
  if Rltb (Rabs dLat) (2 / 100) && Rltb (Rabs dLon) (2 / 100) then
    let x := (dLon * PI / 180 * cos ((lat1 + lat2) / 2 * PI / 180))%R in
    let y := (dLat * PI / 180)%R in
    (Rearth * sqrt (x * x + y * y))%R
  else
    let dLat' := (dLat * (PI / 180))%R in
    let dLon' := (dLon * (PI / 180))%R in
    let a := (sin (dLat' / 2) * sin (dLat' / 2) +
              cos (lat1 * PI / 180) * cos (lat2 * PI / 180) *
              sin (dLon' / 2) * sin (dLon' / 2))%R in
    let c := (2 * atan2 (sqrt a) (sqrt (1 - a)))%R in
    (Rearth * c)%R.

(** [Vehicule::isValidRoad] *)
Definition validRoadTypes : list string :=
  ["motorway"; "trunk"; "primary"; "secondary"; "tertiary";
   "motorway_link"; "trunk_link"; "primary_link"; "secondary_link"; "tertiary_link";
   "unclassified"; "road"].

Definition isValidRoad (type : string) : bool :=
  existsb (String.eqb type) validRoadTypes.

(** [Vehicule::hasValidOutgoingEdge] *)
Definition hasValidOutgoingEdge (g : RoadGraph) (v : nat) : bool :=
  existsb (fun e => isValidRoad (etype e)) (outEdges g v).

(** [Vehicule::isValidVertex]: the same loop as [hasValidOutgoingEdge]. *)
Definition isValidVertex (g : RoadGraph) (v : nat) : bool :=
  existsb (fun e => isValidRoad (etype e)) (outEdges g v).

(* ================================================================== *)
(** ** [class Vehicule] (vehicule.h, vehicule.cpp) *)

Module Vehicule.
(** The members [update] reads or writes.  [randCalls] counts the calls
    made to [rand()], whose results come from an oracle [rand]. *)
Record t := mk {
  id : Z;
  start : nat;
  goal : nat;
  nextVertex : nat;
  currEdge : Edge;
  previousVertex : nat;
  transmissionRange : R;
  speed : R;
  recentVertices : list nat;
  stuckCounter : Z;
  currVertex : nat;
  edgeLength : R;
  positionOnEdge : R;
  currentHeading : R;
  targetHeading : R;
  randCalls : nat
}.

(** [static constexpr int MAX_HISTORY = 8;] *)
Definition MAX_HISTORY : nat := 8.
(** [double headingSmoothingFactor = 0.15;] (never reassigned) *)
Definition headingSmoothingFactor : R := (15 / 100)%R.

(** Field updates. *)
Definition set_start (x : nat) (v : t) : t :=
  mk (id v) x (goal v) (nextVertex v) (currEdge v) (previousVertex v) (transmissionRange v) (speed v) (recentVertices v) (stuckCounter v) (currVertex v) (edgeLength v) (positionOnEdge v) (currentHeading v) (targetHeading v) (randCalls v).
Definition set_goal (x : nat) (v : t) : t :=
  mk (id v) (start v) x (nextVertex v) (currEdge v) (previousVertex v) (transmissionRange v) (speed v) (recentVertices v) (stuckCounter v) (currVertex v) (edgeLength v) (positionOnEdge v) (currentHeading v) (targetHeading v) (randCalls v).
Definition set_nextVertex (x : nat) (v : t) : t :=
  mk (id v) (start v) (goal v) x (currEdge v) (previousVertex v) (transmissionRange v) (speed v) (recentVertices v) (stuckCounter v) (currVertex v) (edgeLength v) (positionOnEdge v) (currentHeading v) (targetHeading v) (randCalls v).
Definition set_currEdge (x : Edge) (v : t) : t :=
  mk (id v) (start v) (goal v) (nextVertex v) x (previousVertex v) (transmissionRange v) (speed v) (recentVertices v) (stuckCounter v) (currVertex v) (edgeLength v) (positionOnEdge v) (currentHeading v) (targetHeading v) (randCalls v).
Definition set_previousVertex (x : nat) (v : t) : t :=
  mk (id v) (start v) (goal v) (nextVertex v) (currEdge v) x (transmissionRange v) (speed v) (recentVertices v) (stuckCounter v) (currVertex v) (edgeLength v) (positionOnEdge v) (currentHeading v) (targetHeading v) (randCalls v).
Definition set_recentVertices (x : list nat) (v : t) : t :=
  mk (id v) (start v) (goal v) (nextVertex v) (currEdge v) (previousVertex v) (transmissionRange v) (speed v) x (stuckCounter v) (currVertex v) (edgeLength v) (positionOnEdge v) (currentHeading v) (targetHeading v) (randCalls v).
Definition set_stuckCounter (x : Z) (v : t) : t :=
  mk (id v) (start v) (goal v) (nextVertex v) (currEdge v) (previousVertex v) (transmissionRange v) (speed v) (recentVertices v) x (currVertex v) (edgeLength v) (positionOnEdge v) (currentHeading v) (targetHeading v) (randCalls v).
Definition set_currVertex (x : nat) (v : t) : t :=
  mk (id v) (start v) (goal v) (nextVertex v) (currEdge v) (previousVertex v) (transmissionRange v) (speed v) (recentVertices v) (stuckCounter v) x (edgeLength v) (positionOnEdge v) (currentHeading v) (targetHeading v) (randCalls v).
Definition set_edgeLength (x : R) (v : t) : t :=
  mk (id v) (start v) (goal v) (nextVertex v) (currEdge v) (previousVertex v) (transmissionRange v) (speed v) (recentVertices v) (stuckCounter v) (currVertex v) x (positionOnEdge v) (currentHeading v) (targetHeading v) (randCalls v).
Definition set_positionOnEdge (x : R) (v : t) : t :=
  mk (id v) (start v) (goal v) (nextVertex v) (currEdge v) (previousVertex v) (transmissionRange v) (speed v) (recentVertices v) (stuckCounter v) (currVertex v) (edgeLength v) x (currentHeading v) (targetHeading v) (randCalls v).
Definition set_currentHeading (x : R) (v : t) : t :=
  mk (id v) (start v) (goal v) (nextVertex v) (currEdge v) (previousVertex v) (transmissionRange v) (speed v) (recentVertices v) (stuckCounter v) (currVertex v) (edgeLength v) (positionOnEdge v) x (targetHeading v) (randCalls v).
Definition set_targetHeading (x : R) (v : t) : t :=
  mk (id v) (start v) (goal v) (nextVertex v) (currEdge v) (previousVertex v) (transmissionRange v) (speed v) (recentVertices v) (stuckCounter v) (currVertex v) (edgeLength v) (positionOnEdge v) (currentHeading v) x (randCalls v).
Definition set_randCalls (x : nat) (v : t) : t :=
  mk (id v) (start v) (goal v) (nextVertex v) (currEdge v) (previousVertex v) (transmissionRange v) (speed v) (recentVertices v) (stuckCounter v) (currVertex v) (edgeLength v) (positionOnEdge v) (currentHeading v) (targetHeading v) x.

(** [setSpeed] *)
Definition set_speed (x : R) (v : t) : t :=
  mk (id v) (start v) (goal v) (nextVertex v) (currEdge v) (previousVertex v) (transmissionRange v) x (recentVertices v) (stuckCounter v) (currVertex v) (edgeLength v) (positionOnEdge v) (currentHeading v) (targetHeading v) (randCalls v).

Section Motion.
Variable graph : RoadGraph.
(** The [n]-th call to [rand()] returns [rand n]. *)
Variable rand : nat -> nat.

Definition nextRand (v : t) : nat * t :=
  (rand (randCalls v), set_randCalls (S (randCalls v)) v).

(** [Vehicule::DestReached] *)
Definition DestReached (v : t) : t :=
  set_edgeLength 0 (set_goal (start v) (set_start (goal v) v)).

(** Selection picks [l[rand() % l.size()]] of a non-empty list. *)
Definition pickRandom (l : list Edge) (v : t) : Edge * t :=
  let '(r, v') := nextRand v in
  (default placeholderEdge (l !! (r mod length l)), v').

(** The "truly stuck" branch of [pickNextEdge]. *)
Definition reroute (v : t) : t :=
  let v1 := set_stuckCounter (stuckCounter v + 1) v in
  let v2 :=
    if decide (3 < stuckCounter v1)%Z then
      let candidateGoals := filter (fun c => hasValidOutgoingEdge graph c = true)
                                   (vertices graph) in
      match candidateGoals with
      | [] => v1
      | _ :: _ =>
          let '(r, v1') := nextRand v1 in
          set_recentVertices []
            (set_stuckCounter 0
               (set_goal (default 0 (candidateGoals !! (r mod length candidateGoals))) v1'))
      end
    else v1 in
  let v3 := set_goal (start v2) (set_start (goal v2) v2) in
  set_recentVertices []
    (set_previousVertex (currVertex v3)
       (set_edgeLength 0 (set_nextVertex (start v3) v3))).

(** [Vehicule::pickNextEdge]: fresh edges, then recently visited targets,
    then the edge back to [previousVertex] (the last one found). *)
Definition pickNextEdge (v : t) : t :=
  let es := filter (fun e => isValidRoad (etype e) = true) (outEdges graph (currVertex v)) in
  let isRecent e := bool_decide (etarget e ∈ recentVertices v) in
  let isBack e := bool_decide (etarget e = previousVertex v) in
  let validEdges := filter (fun e => isBack e = false /\ isRecent e = false) es in
  let lessPreferredEdges := filter (fun e => isBack e = false /\ isRecent e = true) es in
  let backEdges := filter (fun e => isBack e = true) es in
  let chosen :=
    match validEdges, lessPreferredEdges, last backEdges with
    | _ :: _, _, _ =>
        let '(e, v') := pickRandom validEdges v in Some (e, set_stuckCounter 0 v')
    | [], _ :: _, _ =>
        let '(e, v') := pickRandom lessPreferredEdges v in
        Some (e, set_stuckCounter (stuckCounter v' + 1) v')
    | [], [], Some backEdge =>
        Some (backEdge, set_stuckCounter (stuckCounter v + 1) v)
    | [], [], None => None
    end in
  match chosen with
  | None => reroute v
  | Some (selectedEdge, v1) =>
      let hist := recentVertices v1 ++ [currVertex v1] in
      let hist' := if decide (MAX_HISTORY < length hist) then drop 1 hist else hist in
      set_positionOnEdge 0
        (set_edgeLength (edistance selectedEdge)
           (set_nextVertex (etarget selectedEdge)
              (set_previousVertex (currVertex v1)
                 (set_currEdge selectedEdge (set_recentVertices hist' v1)))))
  end.

(** The pieces of [pickNextEdge], named: the valid-road out-edges, the
    three candidate lists, and the choice ([None]: the stuck branch). *)
Definition validOutEdges (v : t) : list Edge :=
  filter (fun e => isValidRoad (etype e) = true) (outEdges graph (currVertex v)).

Definition freshEdges (v : t) : list Edge :=
  filter (fun e => bool_decide (etarget e = previousVertex v) = false /\
                   bool_decide (etarget e ∈ recentVertices v) = false) (validOutEdges v).

Definition recentEdges (v : t) : list Edge :=
  filter (fun e => bool_decide (etarget e = previousVertex v) = false /\
                   bool_decide (etarget e ∈ recentVertices v) = true) (validOutEdges v).

Definition backEdgesOf (v : t) : list Edge :=
  filter (fun e => bool_decide (etarget e = previousVertex v) = true) (validOutEdges v).

Definition chooseEdge (v : t) : option (Edge * t) :=
  match freshEdges v, recentEdges v, last (backEdgesOf v) with
  | _ :: _, _, _ =>
      let '(e, v') := pickRandom (freshEdges v) v in Some (e, set_stuckCounter 0 v')
  | [], _ :: _, _ =>
      let '(e, v') := pickRandom (recentEdges v) v in
      Some (e, set_stuckCounter (stuckCounter v' + 1) v')
  | [], [], Some backEdge =>
      Some (backEdge, set_stuckCounter (stuckCounter v + 1) v)
  | [], [], None => None
  end.

(** [Vehicule::getPosition] (lat, lon) *)
Definition getPosition (v : t) : R * R :=
  if Rle_dec (edgeLength v) 0 then
    let vd := vertexData graph (currVertex v) in (vlat vd, vlon vd)
  else
    let sd := vertexData graph (esource (currEdge v)) in
    let td := vertexData graph (etarget (currEdge v)) in
    let tparam0 := (positionOnEdge v / edgeLength v)%R in
    let tparam1 := if Rlt_dec tparam0 0 then 0%R else tparam0 in
    let tparam := if Rlt_dec 1 tparam1 then 1%R else tparam1 in
    ((vlat sd + tparam * (vlat td - vlat sd))%R,
     (vlon sd + tparam * (vlon td - vlon sd))%R).

(** The heading block of [update], run when the move is significant. *)
Definition smoothHeading (dLat dLon : R) (v : t) : t :=
  let angleRad := atan2 dLon dLat in
  let th0 := (angleRad * 180 / PI)%R in
  let th := if Rlt_dec th0 0 then (th0 + 360)%R else th0 in
  let diff0 := (th - currentHeading v)%R in
  let angleDiff :=
    if Rlt_dec 180 diff0 then (diff0 - 360)%R
    else if Rlt_dec diff0 (-180) then (diff0 + 360)%R
    else diff0 in
  let h0 := (currentHeading v + angleDiff * headingSmoothingFactor)%R in
  let h := if Rlt_dec h0 0 then (h0 + 360)%R
           else if Rle_dec 360 h0 then (h0 - 360)%R
           else h0 in
  set_currentHeading h (set_targetHeading th v).

Definition significantMove (dLat dLon : R) : bool :=
  Rltb (1 / 10000000000) (Rabs dLat) || Rltb (1 / 10000000000) (Rabs dLon).

(** [while (positionOnEdge >= edgeLength)], one iteration per unit of
    [fuel]; [None] when the fuel runs out with the loop still going
    (the source loop need not terminate). *)
Fixpoint advance (fuel : nat) (v : t) : option t :=
  if Rle_dec (edgeLength v) (positionOnEdge v) then
    match fuel with
    | O => None
    | S fuel' =>
        let overshoot := (positionOnEdge v - edgeLength v)%R in
        let v1 := set_currVertex (nextVertex v) (set_previousVertex (currVertex v) v) in
        if decide (currVertex v1 = goal v1) then Some (DestReached v1)
        else advance fuel' (set_positionOnEdge overshoot (pickNextEdge v1))
    end
  else Some v.

(** The part of [update] before the edge-end loop: optional edge
    pick, advance along the edge, heading. *)
Definition moveAlongEdge (deltaTime : R) (v : t) : t :=
  let v1 := if Rle_dec (edgeLength v) 0 then pickNextEdge v else v in
  let '(prevLat, prevLon) := getPosition v1 in
  let v2 := set_positionOnEdge (positionOnEdge v1 + speed v1 * deltaTime)%R v1 in
  let '(currLat, currLon) := getPosition v2 in
  let dLat := (currLat - prevLat)%R in
  let dLon := (currLon - prevLon)%R in
  if significantMove dLat dLon then smoothHeading dLat dLon v2 else v2.

(** The movement vector [(dLat, dLon)] that [moveAlongEdge] measures. *)
Definition movementVector (deltaTime : R) (v : t) : R * R :=
  let v1 := if Rle_dec (edgeLength v) 0 then pickNextEdge v else v in
  let '(prevLat, prevLon) := getPosition v1 in
  let v2 := set_positionOnEdge (positionOnEdge v1 + speed v1 * deltaTime)%R v1 in
  let '(currLat, currLon) := getPosition v2 in
  ((currLat - prevLat)%R, (currLon - prevLon)%R).

(** [Vehicule::update] *)
Definition update (fuel : nat) (deltaTime : R) (v : t) : option t :=
  if decide (currVertex v = goal v) then Some (DestReached v)
  else advance fuel (moveAlongEdge deltaTime v).
End Motion.

(** The constructor [Vehicule(id, graph, start, goal, speed, range,
    collisionDist)]; [nextVertex] and [previousVertex] have no
    initialiser in the source and are given as arguments. *)
Definition construct (id0 : Z) (start0 goal0 : nat) (speed0 range : R)
    (nextVertex0 previousVertex0 : nat) : t :=
  mk id0 start0 goal0 nextVertex0 placeholderEdge previousVertex0 range speed0
     [] 0 start0 0 0 0 0 0.
End Vehicule.

(* ================================================================== *)
(** ** [InterferenceGraph::buildGraph] on live vehicles *)

Section LiveBuild.
Variable graph : RoadGraph.

(** [Vehicule::calculateDist] *)
Definition calculateDist (v1 v2 : Vehicule.t) : R :=
  let '(lat1, lon1) := Vehicule.getPosition graph v1 in
  let '(lat2, lon2) := Vehicule.getPosition graph v2 in
  graphDistance lat1 lon1 lat2 lon2.

(** One comparison of [buildGraphClassic] / [buildGraphWithSpatialGrid]. *)
Definition compareVehicles (v1 v2 : Vehicule.t) (adj : AdjMap) : AdjMap :=
  let distance := calculateDist v1 v2 in
  if Rleb distance (Vehicule.transmissionRange v1) &&
     Rleb distance (Vehicule.transmissionRange v2)
  then linkPair (Vehicule.id v1) (Vehicule.id v2) adj
  else adj.

(** [buildGraphClassic]; [None] entries are null pointers. *)
Definition buildGraphClassic (vehicles : list (option Vehicule.t)) (adj : AdjMap)
    : AdjMap :=
  foldl (fun acc i =>
           match vehicles !! i with
           | Some (Some v1) =>
               foldl (fun acc2 j =>
                        match vehicles !! j with
                        | Some (Some v2) => compareVehicles v1 v2 acc2
                        | _ => acc2
                        end) acc (seq (S i) (length vehicles - S i))
           | _ => acc
           end) adj (seq 0 (length vehicles)).

(** [buildGraphWithSpatialGrid]; [getNearbyVehicles] is the answer of
    [m_spatialGrid.getNearbyVehicles] (spatial_grid.cpp), an arbitrary
    function here. *)
Definition buildGraphWithSpatialGrid (getNearbyVehicles : Z -> list Z)
    (vehicleMap : gmap Z Vehicule.t) (vehicles : list (option Vehicule.t))
    (adj : AdjMap) : AdjMap :=
  foldl (fun acc ov =>
           match ov with
           | None => acc
           | Some v1 =>
               foldl (fun acc2 nearbyId =>
                        if decide (nearbyId <= Vehicule.id v1)%Z then acc2
                        else match vehicleMap !! nearbyId with
                             | None => acc2
                             | Some v2 => compareVehicles v1 v2 acc2
                             end) acc (getNearbyVehicles (Vehicule.id v1))
           end) adj vehicles.

(** [InterferenceGraph::buildGraph] as far as the graph object goes (the
    per-vehicle neighbour lists it also refreshes are left out). *)
Definition buildGraph (useSpatialGrid : bool) (getNearbyVehicles : Z -> list Z)
    (ig : InterferenceGraph) (vehicles : list (option Vehicule.t))
    : InterferenceGraph :=
  match vehicles with
  | [] => mkInterferenceGraph ∅ ∅ (computeTransitive ig)
  | _ :: _ =>
      let vehicleMap :=
        foldl (fun m ov => match ov with
                           | Some v => <[Vehicule.id v := v]> m
                           | None => m
                           end) ∅ vehicles in
      let adj0 :=
        foldl (fun m ov => match ov with
                           | Some v => <[Vehicule.id v := ∅]> m
                           | None => m
                           end) ∅ vehicles in
      let adj :=
        if useSpatialGrid && (20 <=? length vehicles)
        then buildGraphWithSpatialGrid getNearbyVehicles vehicleMap vehicles adj0
        else buildGraphClassic vehicles adj0 in
      mkInterferenceGraph adj
        (if computeTransitive ig then computeTransitiveClosure adj else ∅)
        (computeTransitive ig)
  end.
End LiveBuild.

(** [double slowFactor = 0.8;] (never reassigned) *)
Definition slowFactor : R := (8 / 10)%R.

(** [Vehicule::avoidCollision], over the objects [*v] of [neighbors] in
    order; [collisionDist] is the constructor's argument, never
    reassigned. *)
Definition avoidCollision (graph : RoadGraph) (collisionDist : R)
    (neighbors : list Vehicule.t) (self : Vehicule.t) : Vehicule.t :=
  foldl (fun me other =>
           if Rleb (calculateDist graph me other) collisionDist
           then Vehicule.set_speed (Vehicule.speed me * slowFactor)%R me
           else me) self neighbors.

(* ================================================================== *)
(** ** Spatial-grid initialisation parameters *)

(** The cell counts [InterferenceGraph::initializeSpatialGrid] hands to
    [m_spatialGrid.initialize], or [None] when it returns early. *)
Definition initializeSpatialGrid (useSpatialGrid gridInitialized : bool)
    (vehicleCount : nat) (numMacro numMicro : Z) : option (Z * Z) :=
  if negb useSpatialGrid || (vehicleCount <? 20) then None
  else if gridInitialized then None
  else
    let numMacro1 :=
      if decide (numMacro = 0)%Z then
        let m0 := 10%Z in
        let m1 := if 500 <? vehicleCount then 20%Z else m0 in
        if 2000 <? vehicleCount then 30%Z else m1
      else numMacro in
    let numMicro1 :=
      if decide (numMicro = 0)%Z then
        let p0 := 10%Z in
        let p1 := if 500 <? vehicleCount then 15%Z else p0 in
        if 2000 <? vehicleCount then 20%Z else p1
      else numMicro in
    Some (numMacro1, numMicro1).

(** The cell counts [InterferenceGraph::reinitializeSpatialGrid] hands to
    [m_spatialGrid.initialize], or [None] when it returns early. *)
Definition reinitializeSpatialGrid (useSpatialGrid : bool) (vehicleCount : nat)
    (numMacro numMicro : Z) : option (Z * Z) :=
  if negb useSpatialGrid || (vehicleCount <? 20) then None
  else Some (numMacro, numMicro).

(** [Simulator::placeAntennas] (reconfigure_cells). *)
Definition placeAntennas (useSpatialGrid : bool) (vehicleCount : nat)
    (numLarge numSmall : Z) : option (Z * Z) :=
  if vehicleCount =? 0 then None
  else reinitializeSpatialGrid useSpatialGrid vehicleCount numLarge numSmall.

(* ================================================================== *)
(** ** [Simulator::onTick] *)

Record Simulator := mkSimulator {
  elapsedStartMs : Z;        (* when [m_elapsed] was last (re)started *)
  tickIntervalMs : Z;
  speedMultiplier : R;
  simVehicles : list Vehicule.t;
  randCounter : nat           (* calls to [rand()] so far *)
}.

Section Tick.
Variable graph : RoadGraph.
Variable rand : nat -> nat.
Variable fuel : nat.

(** [v->update(deltaTime)] for every vehicle, threading the global
    [rand()] sequence. *)
Fixpoint updateAll (deltaTime : R) (counter : nat) (vs : list Vehicule.t)
    : option (nat * list Vehicule.t) :=
  match vs with
  | [] => Some (counter, [])
  | v :: rest =>
      match Vehicule.update graph rand fuel deltaTime (Vehicule.set_randCalls counter v) with
      | None => None
      | Some v' =>
          match updateAll deltaTime (Vehicule.randCalls v') rest with
          | None => None
          | Some (c, rest') => Some (c, v' :: rest')
          end
      end
  end.

(** [Simulator::onTick] fired at time [nowMs]: the new state and the
    [deltaTime] applied to the vehicles and emitted with [ticked]
    (the background graph dispatch is not modelled). *)
Definition onTick (nowMs : Z) (sim : Simulator) : option (Simulator * R) :=
  let elapsed := (nowMs - elapsedStartMs sim)%Z in        (* m_elapsed.restart() *)
  let deltaTime0 := (IZR elapsed / 1000)%R in
  let deltaTime := (deltaTime0 * speedMultiplier sim)%R in
  match updateAll deltaTime (randCounter sim) (simVehicles sim) with
  | None => None
  | Some (c, vs') =>
      Some (mkSimulator nowMs (tickIntervalMs sim) (speedMultiplier sim) vs' c, deltaTime)
  end.
End Tick.

(* ================================================================== *)
(** ** [Simulator::startGraphCalculation]: the cell -> snapshot-index lists *)

(** [for (i < snapshots.size()) if (antennaId >= 0)
      antennaInfo.vehiclesPerAntenna[antennaId].push_back(i);] *)
Definition driverVehiclesPerAntenna (snapshots : list VehicleSnapshot.t)
    : gmap Z (list nat) :=
  foldl (fun m i =>
           match snapshots !! i with
           | Some s =>
               let antennaId := VehicleSnapshot.microAntennaId s in
               if decide (0 <= antennaId)%Z
               then <[antennaId := default [] (m !! antennaId) ++ [i]]> m
               else m
           | None => m
           end) ∅ (seq 0 (length snapshots)).

(* ================================================================== *)
(** ** Reachability over an adjacency map *)

(** One hop of the traversal: [y] is stored in the set of [x]. *)
Definition adjEdge (adj : AdjMap) (x y : Z) : Prop :=
  exists ns, adj !! x = Some ns /\ y ∈ ns.

(** The closure map lists, for every key of the adjacency map, exactly the
    other ids reachable by a path of length at least one. *)
Definition closureExact (g : InterferenceGraph) : Prop :=
  forall i, is_Some (adjacencyList g !! i) ->
    exists S, transitiveClosure g !! i = Some S /\ (i ∉ S) /\
      forall j, j ∈ S <-> (j <> i /\ tc (adjEdge (adjacencyList g)) i j).

(* ================================================================== *)
(** ** [InterferenceGraph::buildGraph]: the neighbour lists of the vehicles *)

(** Vehicles are reached through pointers: [heap p] is the object [p]
    points to, [None] in a vehicle vector is a null pointer, and two
    pointers are the same object when they are equal. *)
Definition Ptr := nat.

(** The [neighbors] vector of every object ([std::vector<Vehicule*>]). *)
Abbreviation NeighborStore := (gmap Ptr (list Ptr)).

(** [m_transitiveClosure[k]]: [operator[]] inserts an empty set at a
    missing key. *)
Definition closureIndex (m : AdjMap) (k : Z) : gset Z * AdjMap :=
  match m !! k with
  | Some s => (s, m)
  | None => (∅, <[k := ∅]> m)
  end.

(** [v->addNeighbor(other)]: [neighbors.push_back(other)]. *)
Definition addNeighbor (v other : Ptr) (nbrs : NeighborStore) : NeighborStore :=
  <[v := default [] (nbrs !! v) ++ [other]]> nbrs.

(** The loop [for (auto* other : vehicles)] for the vehicle [v]. *)
Definition collectNeighbors (heap : Ptr -> Vehicule.t) (vehicles : list (option Ptr))
    (v : Ptr) (reachable : gset Z) (nbrs : NeighborStore) : NeighborStore :=
  foldl (fun nbrs2 oo =>
           match oo with
           | None => nbrs2
           | Some other =>
               if decide (other = v) then nbrs2
               else if bool_decide (Vehicule.id (heap other) ∈ reachable)
                    then addNeighbor v other nbrs2
                    else nbrs2
           end) nbrs vehicles.

(** One iteration of the loop "Mettre à jour les voisins de chaque
    véhicule" of [buildGraph]: [v->clearNeighbors()], the read of
    [m_transitiveClosure[v->getId()]], and the inner loop. *)
Definition refreshStep (heap : Ptr -> Vehicule.t) (vehicles : list (option Ptr))
    (st1 : AdjMap * NeighborStore) (ov : option Ptr) : AdjMap * NeighborStore :=
  match ov with
  | None => st1
  | Some v =>
      let nbrs1 := <[v := []]> st1.2 in
      let '(reachable, closure1) := closureIndex st1.1 (Vehicule.id (heap v)) in
      (closure1, collectNeighbors heap vehicles v reachable nbrs1)
  end.

(** The whole loop [for (auto* v : vehicles)]. *)
Definition refreshNeighbors (heap : Ptr -> Vehicule.t) (vehicles : list (option Ptr))
    (st : AdjMap * NeighborStore) : AdjMap * NeighborStore :=
  foldl (refreshStep heap vehicles) st vehicles.

(** [InterferenceGraph::buildGraph] with the neighbour refresh: the graph
    of [buildGraph] above on the objects the pointers designate, and the
    neighbour lists, refreshed only when [m_computeTransitive] is set. *)
Definition buildGraphNeighbors (graph : RoadGraph) (useSpatialGrid : bool)
    (getNearbyVehicles : Z -> list Z) (ig : InterferenceGraph)
    (heap : Ptr -> Vehicule.t) (vehicles : list (option Ptr)) (nbrs : NeighborStore)
    : InterferenceGraph * NeighborStore :=
  let g := buildGraph graph useSpatialGrid getNearbyVehicles ig (map (fmap heap) vehicles) in
  match vehicles with
  | [] => (g, nbrs)
  | _ :: _ =>
      if computeTransitive ig then
        let '(closure', nbrs') := refreshNeighbors heap vehicles (transitiveClosure g, nbrs) in
        (mkInterferenceGraph (adjacencyList g) closure' (computeTransitive g), nbrs')
      else (g, nbrs)
  end.

(** What [canCommunicate] answers on a graph: a symmetric relation,
    transitive between distinct ids, that holds between direct
    neighbours. *)
Definition commProps (g : InterferenceGraph) : Prop :=
  (forall i j, canCommunicate g i j = true -> canCommunicate g j i = true) /\
  (forall i j k, canCommunicate g i j = true -> canCommunicate g j k = true ->
     i <> k -> canCommunicate g i k = true) /\
  (forall i j, j ∈ getDirectNeighbors g i -> j <> i -> canCommunicate g i j = true).

(* ================================================================== *)
(** ** [Simulator]: control slots and vehicle management *)

(** The [Simulator] members the slots below read or write besides those
    of [onTick]: [m_running], [m_paused], whether [m_timer] is started,
    and [m_nextVehicleId] (an [int]). *)
(** [int] arithmetic that leaves the range [[INT_MIN, INT_MAX]] wraps
    around modulo [2^32], as two's-complement hardware does. *)
Definition INT_MIN : Z := (- 2 ^ 31)%Z.
Definition INT_MAX : Z := (2 ^ 31 - 1)%Z.
Definition wrapInt (z : Z) : Z := ((z + 2 ^ 31) mod 2 ^ 32 - 2 ^ 31)%Z.

Record SimControl := mkSimControl {
  core : Simulator;
  running : bool;
  paused : bool;
  timerActive : bool;
  nextVehicleId : Z
}.

Definition set_core (c : Simulator) (s : SimControl) : SimControl :=
  mkSimControl c (running s) (paused s) (timerActive s) (nextVehicleId s).

(** [Simulator::isRunning] *)
Definition isRunning (s : SimControl) : bool := running s && negb (paused s).

(** [Simulator::start] at time [nowMs]; the call to
    [initializeSpatialGrid] is the grid's business and is left out. *)
Definition start (tickInterval nowMs : Z) (s : SimControl) : SimControl :=
  let c := core s in
  let next :=
    match simVehicles c with
    | [] => nextVehicleId s
    | _ :: _ => wrapInt (foldl (fun maxId v => Z.max maxId (Vehicule.id v)) 0%Z (simVehicles c) + 1)
    end in
  mkSimControl (mkSimulator nowMs tickInterval (speedMultiplier c) (simVehicles c) (randCounter c))
    true false true next.

(** [Simulator::pause] *)
Definition pause (s : SimControl) : SimControl :=
  mkSimControl (core s) (running s) true false (nextVehicleId s).

(** [Simulator::resume] at time [nowMs] *)
Definition resume (nowMs : Z) (s : SimControl) : SimControl :=
  let c := core s in
  mkSimControl (mkSimulator nowMs (tickIntervalMs c) (speedMultiplier c) (simVehicles c) (randCounter c))
    (running s) false true (nextVehicleId s).

(** [Simulator::togglePause] *)
Definition togglePause (nowMs : Z) (s : SimControl) : SimControl :=
  if paused s then resume nowMs s else pause s.

(** [Simulator::stop] *)
Definition stop (s : SimControl) : SimControl :=
  mkSimControl (core s) false (paused s) false (nextVehicleId s).

(** A timer tick: [onTick] on the simulator's state. *)
Definition tickControl (graph : RoadGraph) (rand : nat -> nat) (fuel : nat) (nowMs : Z)
    (s : SimControl) : option (SimControl * R) :=
  match onTick graph rand fuel nowMs (core s) with
  | None => None
  | Some (c', deltaTime) => Some (set_core c' s, deltaTime)
  end.

(** [m_vehicles] replaced, and the [rand()] calls counted. *)
Definition withVehicles (vs : list Vehicule.t) (counter : nat) (next : Z) (s : SimControl)
    : SimControl :=
  let c := core s in
  mkSimControl (mkSimulator (elapsedStartMs c) (tickIntervalMs c) (speedMultiplier c) vs counter)
    (running s) (paused s) (timerActive s) next.

(** [std::numeric_limits<double>::max()] *)
Definition dblMax : R := IZR (2 ^ 1024 - 2 ^ 971).

Section VehicleManagement.
Variable graph : RoadGraph.
Variable rand : nat -> nat.
(** [nextVertex] and [previousVertex] of a new [Vehicule], which its
    constructor leaves uninitialised. *)
Variables uninitNext uninitPrev : nat.

(** [m_vertices[rand() % m_vertices.size()]], the [rand()] call being the
    [c]-th. *)
Definition drawVertex (c : nat) : nat * nat :=
  (default 0 (vertices graph !! (rand c mod length (vertices graph))), S c).

(** [while (!isValidVertex(x) && !hasValidOutgoingEdge(x)) x = m_vertices[rand() % ...];]
    one iteration per unit of [fuel]; [None] when the fuel runs out with
    the loop still going. *)
Fixpoint redrawWhileInvalid (fuel : nat) (x c : nat) : option (nat * nat) :=
  if negb (isValidVertex graph x) && negb (hasValidOutgoingEdge graph x) then
    match fuel with
    | O => None
    | S fuel' => let '(x', c') := drawVertex c in redrawWhileInvalid fuel' x' c'
    end
  else Some (x, c).

(** [new Vehicule(m_nextVehicleId++, graph, start, goal, 14, 500.0, 5.0)] *)
Definition newVehicle (id0 : Z) (start0 goal0 : nat) : Vehicule.t :=
  Vehicule.construct id0 start0 goal0 14 500 uninitNext uninitPrev.

(** The adding loop of [setVehicleCount]; [addVehicle] is a [push_back]
    (the grid assignment is left out). *)
Fixpoint addRandomVehicles (fuel toAdd : nat) (s : SimControl) : option SimControl :=
  match toAdd with
  | O => Some s
  | S k =>
      match vertices graph with
      | [] => Some s
      | _ :: _ =>
          let '(start0, c1) := drawVertex (randCounter (core s)) in
          let '(goal0, c2) := drawVertex c1 in
          match redrawWhileInvalid fuel start0 c2 with
          | None => None
          | Some (start1, c3) =>
              match redrawWhileInvalid fuel goal0 c3 with
              | None => None
              | Some (goal1, c4) =>
                  let car := newVehicle (nextVehicleId s) start1 goal1 in
                  addRandomVehicles fuel k
                    (withVehicles (simVehicles (core s) ++ [car]) c4
                       (wrapInt (nextVehicleId s + 1)) s)
              end
          end
      end
  end.

(** [for (i < toRemove && !m_vehicles.empty()) m_vehicles.pop_back();] *)
Fixpoint popBack (n : nat) (vs : list Vehicule.t) : list Vehicule.t :=
  match n with
  | O => vs
  | S n' => match vs with [] => [] | _ :: _ => popBack n' (removelast vs) end
  end.

(** [Simulator::setVehicleCount]; [int toRemove = currentCount - count]
    wraps, [toAdd = count - currentCount] is only computed when
    [count > currentCount >= 0] and cannot overflow for an [int] [count];
    [currentCount] is the size of
    the vector, which holds fewer than [2^31] vehicles. *)
Definition setVehicleCount (fuel : nat) (count : Z) (s : SimControl) : option SimControl :=
  let vs := simVehicles (core s) in
  let currentCount := Z.of_nat (length vs) in
  if decide (count = currentCount) then Some s
  else if decide (count < currentCount)%Z then
    Some (withVehicles (popBack (Z.to_nat (wrapInt (currentCount - count))) vs)
            (randCounter (core s)) (nextVehicleId s) s)
  else addRandomVehicles fuel (Z.to_nat (count - currentCount)) s.

(** [(vLon - lon) * (vLon - lon) + (vLat - lat) * (vLat - lat)] *)
Definition sqDist (lon lat : R) (v : nat) : R :=
  let vd := vertexData graph v in
  ((vlon vd - lon) * (vlon vd - lon) + (vlat vd - lat) * (vlat vd - lat))%R.

(** The goal retries of [createVehicleNear]: at most [budget] more draws
    ([attempts < 100]). *)
Fixpoint retryGoal (budget : nat) (goal0 c : nat) : nat * nat :=
  match budget with
  | O => (goal0, c)
  | S b =>
      if negb (isValidVertex graph goal0) || negb (hasValidOutgoingEdge graph goal0) then
        let '(g', c') := drawVertex c in retryGoal b g' c'
      else (goal0, c)
  end.

(** The nearest-vertex loop of [createVehicleNear]. *)
Definition nearestStep (lon lat : R) (acc : nat * R) (v : nat) : nat * R :=
  let '(nearestVertex, minDist) := acc in
  let dist := sqDist lon lat v in
  if Rltb dist minDist then
    if isValidVertex graph v && hasValidOutgoingEdge graph v then (v, dist) else acc
  else acc.

(** [Simulator::createVehicleNear]: [None] is the null pointer. *)
Definition createVehicleNear (lon lat : R) (s : SimControl) : option (Vehicule.t * SimControl) :=
  match vertices graph with
  | [] => None
  | v0 :: _ =>
      let '(nearestVertex, _) := foldl (nearestStep lon lat) (v0, dblMax) (vertices graph) in
      let '(goal0, c1) := drawVertex (randCounter (core s)) in
      let '(goal1, c2) := retryGoal 100 goal0 c1 in
      let car := newVehicle (nextVehicleId s) nearestVertex goal1 in
      Some (car, withVehicles (simVehicles (core s) ++ [car]) c2 (wrapInt (nextVehicleId s + 1)) s)
  end.
End VehicleManagement.

(** Ids handed out so far are distinct and below [m_nextVehicleId]. *)
Definition freshIds (s : SimControl) : Prop :=
  NoDup (map Vehicule.id (simVehicles (core s))) /\
  forall v, v ∈ simVehicles (core s) -> (Vehicule.id v < nextVehicleId s)%Z.

(** The invariant of the nearest-vertex loop of [createVehicleNear] over the
    vertices [processed] so far: no valid vertex yet and the initial pair,
    or the nearest valid vertex and its squared distance. *)
Definition nearestInv (graph : RoadGraph) (lon lat : R) (v0 : nat) (processed : list nat)
    (acc : nat * R) : Prop :=
  (acc.2 = dblMax /\ acc.1 = v0 /\ forall v, v ∈ processed -> isValidVertex graph v = false) \/
  (isValidVertex graph acc.1 = true /\ acc.1 ∈ processed /\ acc.2 = sqDist graph lon lat acc.1 /\
   forall v, v ∈ processed -> isValidVertex graph v = true -> (acc.2 <= sqDist graph lon lat v)%R).

(* ================================================================== *)
(** ** Concrete inputs *)

Definition unlisted_snaps : list VehicleSnapshot.t :=
  [VehicleSnapshot.mk 1 0 0 100 (-1); VehicleSnapshot.mk 2 0 0 100 0;
   VehicleSnapshot.mk 3 0 0 100 0].

Definition unlisted_info : AntennaNeighborhood :=
  mkAntennaNeighborhood (driverVehiclesPerAntenna unlisted_snaps) ∅.

Definition pair_snaps : list VehicleSnapshot.t :=
  [VehicleSnapshot.mk 1 0 0 100 0; VehicleSnapshot.mk 2 0 0 50 0].

Definition pair_info : AntennaNeighborhood :=
  mkAntennaNeighborhood (<[0%Z := [0; 1]]> ∅) ∅.

(** A two-vertex road: one [primary] edge of 10 m from vertex 0 to vertex 1. *)
Definition line_edge : Edge := mkEdge 0 1 "primary" 10.

Definition line_graph : RoadGraph :=
  mkRoadGraph [0; 1]
    (fun n => if Nat.eqb n 1 then mkVertexData (1 / 1000) 0 else mkVertexData 0 0)
    (fun n => if Nat.eqb n 0 then [line_edge] else []).

Definition zero_rand : nat -> nat := fun _ => 0.

(** A vehicle just constructed at vertex 0, heading for vertex 1 at 14 m/s. *)
Definition line_vehicle : Vehicule.t := Vehicule.construct 1 0 1 14 100 0 5.

(** A simulator with no vehicle, started at 0 ms with a 50 ms tick and
    speed multiplier 1, not running. *)
Definition empty_control : SimControl :=
  mkSimControl (mkSimulator 0 50 1 [] 0) false false false 0.

(** The same with two copies of [line_vehicle]. *)
Definition two_control : SimControl :=
  mkSimControl (mkSimulator 0 50 1 [line_vehicle; line_vehicle] 0) false false false 2.

(** A vehicle on [line_edge], at its start, moving at 1 m/s. *)
Definition moving_vehicle : Vehicule.t :=
  Vehicule.mk 1 0 1 1 line_edge 0 100 1 [] 0 0 10 0 0 0 0.

(** [line_vehicle] with a full history of [MAX_HISTORY] vertices. *)
Definition full_history_vehicle : Vehicule.t :=
  Vehicule.set_recentVertices [2; 3; 4; 5; 6; 7; 8; 9] line_vehicle.

(** A simulator with two vehicles of ids 1 and 2 and next id 3. *)
Definition pair_control : SimControl :=
  mkSimControl (mkSimulator 0 50 1 [line_vehicle; Vehicule.construct 2 0 1 14 100 0 5] 0)
    false false false 3.

(** A simulator holding a vehicle whose id is [INT_MAX]. *)
Definition max_control : SimControl :=
  mkSimControl (mkSimulator 0 50 1 [line_vehicle; Vehicule.construct INT_MAX 0 1 14 100 0 5] 0)
    false false false 0.

(** What [setVehicleCount 2] makes of [empty_control] on [line_graph]:
    two vehicles at vertex 0, the only valid vertex, ids 0 and 1. *)
Definition grown_control : SimControl :=
  withVehicles [newVehicle 0 0 0 0 0; newVehicle 0 0 1 0 0] 4 2 empty_control.

(** A one-vertex road graph with no edge: no vertex is valid. *)
Definition dead_end_graph : RoadGraph :=
  mkRoadGraph [0] (fun _ => mkVertexData 0 0) (fun _ => []).

(* ================================================================== *)
(** ** The heading update as the specification words it *)

(** Second definition, for comparison with [Vehicule.smoothHeading]: the
    target [atan2(dLon, dLat) * 180 / PI] brought into [[0, 360)], the
    difference [target - current] brought into [[-180, 180]], the heading
    moved by [0.15] of it and brought back into [[0, 360)]; each
    "bringing into a range" is a shift by a multiple of 360. *)
Definition specHeadingStep (h dLat dLon h' : R) : Prop :=
  exists target d : R, exists kt kd kh : Z,
    (0 <= target < 360)%R /\ target = (atan2 dLon dLat * 180 / PI + 360 * IZR kt)%R /\
    (-180 <= d <= 180)%R /\ d = (target - h + 360 * IZR kd)%R /\
    (0 <= h' < 360)%R /\ h' = (h + 15 / 100 * d + 360 * IZR kh)%R.

(* ================================================================== *)
(** * Proofs *)

(** ** Adjacency updates *)

Lemma adjOf_setInsert k v m a :
  adjOf (setInsert k v m) a = if decide (k = a) then {[v]} ∪ adjOf m k else adjOf m a.
Proof.
  unfold adjOf, setInsert. rewrite lookup_insert. by case_decide.
Qed.

Lemma adjOf_linkPair x y m a b :
  b ∈ adjOf (linkPair x y m) a <->
  b ∈ adjOf m a \/ (a = x /\ b = y) \/ (a = y /\ b = x).
Proof.
  unfold linkPair. rewrite !adjOf_setInsert.
  repeat case_decide; subst; set_solver.
Qed.

Lemma is_Some_linkPair x y m k :
  is_Some (m !! k) -> is_Some (linkPair x y m !! k).
Proof.
  unfold linkPair, setInsert. rewrite !lookup_insert.
  repeat case_decide; eauto.
Qed.

Lemma adjOf_compareIdx snaps adj pq a b :
  b ∈ adjOf (compareIdx snaps adj pq) a <->
  b ∈ adjOf adj a \/ linkedBy snaps [pq] a b.
Proof.
  destruct pq as [p q]. unfold compareIdx, linkedBy; simpl.
  split.
  - destruct (snaps !! p) as [v1|] eqn:E1; [|tauto].
    destruct (snaps !! q) as [v2|] eqn:E2; [|tauto].
    unfold compareStep. destruct (inMutualRange v1 v2) eqn:G; [|tauto].
    rewrite adjOf_linkPair. intros [H|H]; [tauto|].
    right. exists p, q, v1, v2. rewrite list_elem_of_singleton. tauto.
  - intros [H|(p' & q' & v1 & v2 & Hin & E1 & E2 & G & Hab)].
    + destruct (snaps !! p) as [v1|]; [|done].
      destruct (snaps !! q) as [v2|]; [|done].
      unfold compareStep. destruct (inMutualRange v1 v2); [|done].
      apply adjOf_linkPair. tauto.
    + apply list_elem_of_singleton in Hin. injection Hin as -> ->.
      rewrite E1, E2. unfold compareStep. rewrite G.
      apply adjOf_linkPair. tauto.
Qed.

Lemma linkedBy_cons snaps pq ps a b :
  linkedBy snaps (pq :: ps) a b <-> linkedBy snaps [pq] a b \/ linkedBy snaps ps a b.
Proof.
  unfold linkedBy. split.
  - intros (p & q & v1 & v2 & Hin & R); apply elem_of_cons in Hin as [Hin|Hin].
    + left. exists p, q, v1, v2. rewrite list_elem_of_singleton. tauto.
    + right. exists p, q, v1, v2. tauto.
  - intros [(p & q & v1 & v2 & Hin & R)|(p & q & v1 & v2 & Hin & R)];
      exists p, q, v1, v2; (split; [|exact R]).
    + apply list_elem_of_singleton in Hin. subst. apply elem_of_cons. by left.
    + apply elem_of_cons. by right.
Qed.

(** The result of a sequence of comparisons: an id pair is linked iff it
    was linked before or one comparison in the sequence linked it. *)
Lemma adjOf_foldl_compareIdx snaps ps adj a b :
  b ∈ adjOf (foldl (compareIdx snaps) adj ps) a <->
  b ∈ adjOf adj a \/ linkedBy snaps ps a b.
Proof.
  revert adj. induction ps as [|pq ps IH]; intros adj; simpl.
  - split; [tauto|]. intros [H|(p & q & v1 & v2 & Hin & _)]; [done|].
    by apply not_elem_of_nil in Hin.
  - rewrite IH, (linkedBy_cons snaps pq ps), adjOf_compareIdx. tauto.
Qed.

Lemma is_Some_foldl_compareIdx snaps ps adj k :
  is_Some (adj !! k) -> is_Some (foldl (compareIdx snaps) adj ps !! k).
Proof.
  revert adj. induction ps as [|[p q] ps IH]; intros adj H; simpl; [done|].
  apply IH. unfold compareIdx; simpl.
  destruct (snaps !! p), (snaps !! q); try done.
  unfold compareStep. destruct (inMutualRange _ _); [|done].
  by apply is_Some_linkPair.
Qed.

(** ** The loops of [buildGraphFromSnapshots] are folds over their pair lists *)

Lemma foldl_flat_map {A B C} (f : A -> C -> A) (g : B -> list C) (l : list B) (a : A) :
  foldl f a (flat_map g l) = foldl (fun acc x => foldl f acc (g x)) a l.
Proof.
  revert a. induction l as [|x l IH]; intros a; simpl; [done|].
  by rewrite foldl_app, IH.
Qed.

Lemma sameAntennaInner_eq snaps i v1 rest adj :
  snaps !! i = Some v1 ->
  sameAntennaInner snaps v1 rest adj = foldl (compareIdx snaps) adj (map (pair i) rest).
Proof.
  intros Hi. unfold sameAntennaInner. revert adj.
  induction rest as [|j rest IH]; intros adj; simpl; [done|].
  rewrite IH. unfold compareIdx; simpl. by rewrite Hi.
Qed.

Lemma foldl_compareIdx_missing snaps i rest adj :
  snaps !! i = None -> foldl (compareIdx snaps) adj (map (pair i) rest) = adj.
Proof.
  intros Hi. revert adj. induction rest as [|j rest IH]; intros adj; simpl; [done|].
  unfold compareIdx at 2; simpl. rewrite Hi. apply IH.
Qed.

Lemma sameAntenna_eq snaps l adj :
  sameAntenna snaps l adj = foldl (compareIdx snaps) adj (samePairs l).
Proof.
  revert adj. induction l as [|i rest IH]; intros adj; simpl; [done|].
  rewrite IH, foldl_app. f_equal.
  destruct (snaps !! i) as [v1|] eqn:Hi.
  - by apply sameAntennaInner_eq.
  - by rewrite foldl_compareIdx_missing.
Qed.

Lemma crossAntennas_eq snaps l1 l2 adj :
  crossAntennas snaps l1 l2 adj = foldl (compareIdx snaps) adj (list_prod l1 l2).
Proof.
  unfold crossAntennas. revert adj.
  induction l1 as [|i l1 IH]; intros adj; simpl; [done|].
  rewrite IH, foldl_app. f_equal.
  destruct (snaps !! i) as [v1|] eqn:Hi.
  - by apply (sameAntennaInner_eq snaps i v1 l2 adj).
  - by rewrite (foldl_compareIdx_missing snaps i l2).
Qed.

Lemma foldl_congr {A B} (f g : A -> B -> A) (l : list B) (a : A) :
  (forall acc x, x ∈ l -> f acc x = g acc x) -> foldl f a l = foldl g a l.
Proof.
  revert a. induction l as [|x l IH]; intros a H; simpl; [done|].
  rewrite H by (apply elem_of_cons; by left).
  apply IH. intros acc y Hy. apply H. apply elem_of_cons. by right.
Qed.

Lemma neighborAntennasStep_eq snaps ai antennaId l adj :
  neighborAntennasStep snaps ai antennaId l adj =
  foldl (compareIdx snaps) adj (neighborPairs ai antennaId l).
Proof.
  unfold neighborAntennasStep, neighborPairs.
  destruct (neighborAntennas ai !! antennaId) as [nbrs|]; [|done].
  rewrite foldl_flat_map. apply foldl_congr. intros acc nb _.
  case_decide; [done|].
  destruct (vehiclesPerAntenna ai !! nb); [|done].
  apply crossAntennas_eq.
Qed.

Lemma antennaLoop_eq snaps ai adj :
  antennaLoop snaps ai adj = foldl (compareIdx snaps) adj (antennaPairs ai).
Proof.
  unfold antennaLoop, antennaPairs. rewrite foldl_flat_map.
  apply foldl_congr. intros acc [antennaId l] _.
  by rewrite foldl_app, sameAntenna_eq, neighborAntennasStep_eq.
Qed.

Lemma fallbackLoop_eq snaps adj :
  fallbackLoop snaps adj = foldl (compareIdx snaps) adj (fallbackPairs (length snaps)).
Proof.
  unfold fallbackLoop, fallbackPairs. rewrite foldl_flat_map.
  apply foldl_congr. intros acc i _.
  destruct (snaps !! i) as [v1|] eqn:Hi.
  - by apply (sameAntennaInner_eq snaps i v1).
  - by rewrite foldl_compareIdx_missing.
Qed.

(** ** The initial map: one empty set per snapshot id *)

Lemma adjOf_initAdjacency snaps a : adjOf (initAdjacency snaps) a = ∅.
Proof.
  unfold initAdjacency.
  assert (H : forall (m : AdjMap), (forall k, adjOf m k = ∅) ->
            forall k, adjOf (foldl (fun m s => <[VehicleSnapshot.id s := ∅]> m) m snaps) k = ∅).
  { induction snaps as [|s snaps IH]; intros m Hm k; simpl; [done|].
    apply IH. intros k'. unfold adjOf in *. rewrite lookup_insert.
    case_decide; [done|]. apply Hm. }
  apply H. intros k. unfold adjOf. by rewrite lookup_empty.
Qed.

Lemma initAdjacency_key snaps s :
  s ∈ snaps -> is_Some (initAdjacency snaps !! VehicleSnapshot.id s).
Proof.
  unfold initAdjacency.
  assert (H : forall (m : AdjMap) k,
            (is_Some (m !! k) \/ exists s', s' ∈ snaps /\ VehicleSnapshot.id s' = k) ->
            is_Some (foldl (fun m s => <[VehicleSnapshot.id s := ∅]> m) m snaps !! k)).
  { induction snaps as [|s0 snaps IH]; intros m k Hk; simpl.
    - destruct Hk as [Hk|(s' & Hs' & _)]; [done|]. by apply not_elem_of_nil in Hs'.
    - apply IH. rewrite lookup_insert. case_decide; [by left; eauto|].
      destruct Hk as [Hk|(s' & Hs' & Hid)]; [by left|].
      apply elem_of_cons in Hs' as [->|Hs']; [done|]. right. eauto. }
  intros Hs. apply H. right. eauto.
Qed.

(** ** Direct links of a build *)

Lemma directLinks_eq snaps antennaInfo :
  directLinks snaps antennaInfo =
  foldl (compareIdx snaps) (initAdjacency snaps) (buildPairs snaps antennaInfo).
Proof.
  unfold directLinks, buildPairs.
  destruct antennaInfo as [ai|]; [case_decide|];
    auto using antennaLoop_eq, fallbackLoop_eq.
Qed.

Lemma adjOf_directLinks snaps antennaInfo a b :
  b ∈ adjOf (directLinks snaps antennaInfo) a <->
  linkedBy snaps (buildPairs snaps antennaInfo) a b.
Proof.
  rewrite directLinks_eq, adjOf_foldl_compareIdx, adjOf_initAdjacency. set_solver.
Qed.

Lemma directLinks_key snaps antennaInfo s :
  s ∈ snaps -> is_Some (directLinks snaps antennaInfo !! VehicleSnapshot.id s).
Proof.
  intros Hs. rewrite directLinks_eq.
  apply is_Some_foldl_compareIdx, initAdjacency_key, Hs.
Qed.

Lemma linkedBy_sym snaps ps a b : linkedBy snaps ps a b -> linkedBy snaps ps b a.
Proof.
  intros (p & q & v1 & v2 & Hin & E1 & E2 & G & Hab).
  exists p, q, v1, v2. tauto.
Qed.

(** ** Which pairs the antenna-based path compares *)

Lemma samePairs_elem (l : list nat) p q :
  (p, q) ∈ samePairs l ->
  exists i j, i < j /\ l !! i = Some p /\ l !! j = Some q.
Proof.
  induction l as [|x rest IH]; simpl; intros H.
  - by apply not_elem_of_nil in H.
  - apply elem_of_app in H as [H|H].
    + apply list_elem_of_fmap in H as (q' & Heq & Hq). injection Heq as -> ->.
      apply list_elem_of_lookup in Hq as (j & Hj).
      exists 0, (S j). simpl. split; [lia|done].
    + destruct (IH H) as (i & j & Hij & Hi & Hj).
      exists (S i), (S j). simpl. split; [lia|done].
Qed.

Lemma antennaPairs_elem ai p q :
  (p, q) ∈ antennaPairs ai ->
  exists a l, vehiclesPerAntenna ai !! a = Some l /\
    ((p, q) ∈ samePairs l \/
     exists nbrs b l2, neighborAntennas ai !! a = Some nbrs /\ b ∈ nbrs /\
       (a < b)%Z /\ vehiclesPerAntenna ai !! b = Some l2 /\ p ∈ l /\ q ∈ l2).
Proof.
  unfold antennaPairs. rewrite list_elem_of_In, in_flat_map.
  intros ([a l] & Hx & Hpq). rewrite <- list_elem_of_In, elem_of_map_to_list in Hx.
  exists a, l. split; [done|].
  apply in_app_iff in Hpq as [Hpq|Hpq].
  - left. by apply list_elem_of_In.
  - right. unfold neighborPairs in Hpq.
    destruct (neighborAntennas ai !! a) as [nbrs|] eqn:Hn; [|done].
    apply in_flat_map in Hpq as (b & Hb & Hpq).
    case_decide; [done|].
    destruct (vehiclesPerAntenna ai !! b) as [l2|] eqn:Hl2; [|done].
    apply in_prod_iff in Hpq as [Hp Hq].
    exists nbrs, b, l2. rewrite <- list_elem_of_In, elem_of_elements in Hb.
    apply list_elem_of_In in Hp, Hq. repeat split; auto. lia.
Qed.

Lemma antennaPairs_listed ai p q :
  (p, q) ∈ antennaPairs ai ->
  (exists a l, vehiclesPerAntenna ai !! a = Some l /\ p ∈ l) /\
  (exists a l, vehiclesPerAntenna ai !! a = Some l /\ q ∈ l).
Proof.
  intros H. destruct (antennaPairs_elem ai p q H)
    as (a & l & Hl & [Hs|(nbrs & b & l2 & _ & _ & _ & Hl2 & Hp & Hq)]).
  - destruct (samePairs_elem l p q Hs) as (i & j & _ & Hi & Hj).
    split; exists a, l; split; auto; eapply list_elem_of_lookup_2; eauto.
  - split; [exists a, l | exists b, l2]; auto.
Qed.

(** ** Which pairs the fallback compares *)

Lemma fallbackPairs_elem n p q : (p, q) ∈ fallbackPairs n <-> p < q < n.
Proof.
  unfold fallbackPairs. rewrite list_elem_of_In, in_flat_map. split.
  - intros (i & Hi & Hpq). apply in_seq in Hi.
    apply in_map_iff in Hpq as (j & Heq & Hj). injection Heq as -> ->.
    apply in_seq in Hj. lia.
  - intros H. exists p. split; [apply in_seq; lia|].
    apply in_map_iff. exists q. split; [done|]. apply in_seq. lia.
Qed.

Lemma fallbackPairs_NoDup n : NoDup (fallbackPairs n).
Proof.
  unfold fallbackPairs.
  assert (H : forall s k, NoDup (flat_map (fun i => map (pair i) (seq (S i) (n - S i))) (seq s k))).
  { intros s k. revert s. induction k as [|k IH]; intros s; simpl; [constructor|].
    apply NoDup_app. split; [|split; [|apply IH]].
    - apply NoDup_fmap; [intros x y Hxy; by injection Hxy|]. apply NoDup_seq.
    - intros [p q] H1 H2. apply list_elem_of_fmap in H1 as (j & Heq & _).
      injection Heq as -> ->.
      apply list_elem_of_In, in_flat_map in H2 as (i & Hi & Hpq).
      apply in_seq in Hi. apply in_map_iff in Hpq as (j' & Heq & _).
      injection Heq as Heq _. lia. }
  apply H.
Qed.

(** ** Invariants of folds *)

Lemma foldl_invariant {A B} (P : A -> Prop) (f : A -> B -> A) (l : list B) (a : A) :
  P a -> (forall acc x, P acc -> P (f acc x)) -> P (foldl f a l).
Proof.
  revert a. induction l as [|x l IH]; intros a Ha Hf; simpl; [done|].
  apply IH; auto.
Qed.

Lemma symmetricAdj_linkPair x y m :
  symmetricAdj m -> symmetricAdj (linkPair x y m).
Proof.
  intros Hm i j. rewrite !adjOf_linkPair, (Hm i j). tauto.
Qed.

Lemma symmetricAdj_allEmpty (m : AdjMap) :
  (forall k, adjOf m k = ∅) -> symmetricAdj m.
Proof. intros H i j. rewrite !H. set_solver. Qed.

Lemma symmetricAdj_compareVehicles graph v1 v2 m :
  symmetricAdj m -> symmetricAdj (compareVehicles graph v1 v2 m).
Proof.
  intros Hm. unfold compareVehicles.
  destruct (_ && _); [by apply symmetricAdj_linkPair | done].
Qed.

Lemma symmetricAdj_directLinks snaps antennaInfo :
  symmetricAdj (directLinks snaps antennaInfo).
Proof.
  intros i j. rewrite !adjOf_directLinks. split; apply linkedBy_sym.
Qed.

Lemma symmetricAdj_buildGraphClassic graph vehicles adj :
  symmetricAdj adj -> symmetricAdj (buildGraphClassic graph vehicles adj).
Proof.
  intros H. unfold buildGraphClassic. apply foldl_invariant; [done|].
  intros acc i Hacc. destruct (vehicles !! i) as [[v1|]|]; [|done|done].
  apply foldl_invariant; [done|]. intros acc2 j Hacc2.
  destruct (vehicles !! j) as [[v2|]|]; [|done|done].
  by apply symmetricAdj_compareVehicles.
Qed.

Lemma symmetricAdj_buildGraphWithSpatialGrid graph nearby vehicleMap vehicles adj :
  symmetricAdj adj ->
  symmetricAdj (buildGraphWithSpatialGrid graph nearby vehicleMap vehicles adj).
Proof.
  intros H. unfold buildGraphWithSpatialGrid. apply foldl_invariant; [done|].
  intros acc [v1|] Hacc; [|done].
  apply foldl_invariant; [done|]. intros acc2 nearbyId Hacc2.
  case_decide; [done|]. destruct (vehicleMap !! nearbyId); [|done].
  by apply symmetricAdj_compareVehicles.
Qed.

Lemma live_initial_empty (vehicles : list (option Vehicule.t)) k :
  adjOf (foldl (fun m ov => match ov with
                            | Some v => <[Vehicule.id v := ∅]> m
                            | None => m
                            end) ∅ vehicles) k = ∅.
Proof.
  revert k. apply (foldl_invariant (fun m : AdjMap => forall k, adjOf m k = ∅)).
  - intros k. unfold adjOf. by rewrite lookup_empty.
  - intros acc [v|] Hacc k; [|done]. unfold adjOf in *.
    rewrite lookup_insert. case_decide; [done|]. apply Hacc.
Qed.

(** C3 *)
(** Every build path yields a symmetric adjacency map: the snapshot
    builder with or without antenna information, and [buildGraph] on live
    vehicles through either the classic loop or the spatial-grid loop
    (whatever the grid's nearby-vehicle query answers):
    [j ∈ adjacency[i] <-> i ∈ adjacency[j]]. *)
Theorem adjacency_symmetric :
  (forall ig snaps antennaInfo,
     symmetricAdj (adjacencyList (buildGraphFromSnapshots ig snaps antennaInfo))) /\
  (forall graph useSpatialGrid getNearbyVehicles ig vehicles,
     symmetricAdj (adjacencyList
       (buildGraph graph useSpatialGrid getNearbyVehicles ig vehicles))).
Proof.
  split.
  - intros ig snaps antennaInfo. unfold buildGraphFromSnapshots.
    destruct snaps as [|s snaps]; simpl.
    + apply symmetricAdj_allEmpty. intros k. unfold adjOf. by rewrite lookup_empty.
    + apply symmetricAdj_directLinks.
  - intros graph useSpatialGrid nearby ig vehicles. unfold buildGraph.
    destruct vehicles as [|ov vehicles].
    + simpl. apply symmetricAdj_allEmpty. intros k. unfold adjOf. by rewrite lookup_empty.
    + cbv beta iota zeta. destruct (_ && _).
      * apply symmetricAdj_buildGraphWithSpatialGrid, symmetricAdj_allEmpty.
        apply (live_initial_empty (ov :: vehicles)).
      * apply symmetricAdj_buildGraphClassic, symmetricAdj_allEmpty.
        apply (live_initial_empty (ov :: vehicles)).
Qed.

(** ** Builds from snapshots *)

Lemma build_adjacency_nonempty ig snaps antennaInfo :
  snaps <> [] ->
  adjacencyList (buildGraphFromSnapshots ig snaps antennaInfo) = directLinks snaps antennaInfo.
Proof. destruct snaps; [done|]. reflexivity. Qed.

Lemma build_closure ig snaps antennaInfo :
  transitiveClosure (buildGraphFromSnapshots ig snaps antennaInfo) =
  if computeTransitive ig
  then computeTransitiveClosure (adjacencyList (buildGraphFromSnapshots ig snaps antennaInfo))
  else ∅.
Proof.
  destruct snaps; simpl; [|done].
  destruct (computeTransitive ig); [|done].
  unfold computeTransitiveClosure. by rewrite map_imap_empty.
Qed.

(** C7 *)
(** Without antenna information (null pointer or empty
    [vehiclesPerAntenna]), a build from a non-empty snapshot list folds
    the same comparison [compareIdx] (distance formula and two-sided
    range gate of the cell-based path) over [fallbackPairs n], which lists
    every pair [i < j < n] exactly once; so [b ∈ adjacency[a]] holds
    exactly when some pair [i < j] of snapshots with ids [{a, b}] is
    within mutual range. *)
Theorem fallback_all_pairs ig (snaps : list VehicleSnapshot.t) antennaInfo :
  snaps <> [] ->
  (antennaInfo = None \/
   exists ai, antennaInfo = Some ai /\ vehiclesPerAntenna ai = ∅) ->
  adjacencyList (buildGraphFromSnapshots ig snaps antennaInfo) =
    foldl (compareIdx snaps) (initAdjacency snaps) (fallbackPairs (length snaps)) /\
  NoDup (fallbackPairs (length snaps)) /\
  (forall p q, (p, q) ∈ fallbackPairs (length snaps) <-> p < q < length snaps) /\
  (forall a b,
     b ∈ adjOf (adjacencyList (buildGraphFromSnapshots ig snaps antennaInfo)) a <->
     exists p q v1 v2, p < q /\ snaps !! p = Some v1 /\ snaps !! q = Some v2 /\
       inMutualRange v1 v2 = true /\
       ((a = VehicleSnapshot.id v1 /\ b = VehicleSnapshot.id v2) \/
        (a = VehicleSnapshot.id v2 /\ b = VehicleSnapshot.id v1))).
Proof.
  intros Hne Hai.
  assert (Hp : buildPairs snaps antennaInfo = fallbackPairs (length snaps)).
  { unfold buildPairs. destruct Hai as [->|(ai & -> & Hai)]; [done|].
    by rewrite decide_True. }
  rewrite build_adjacency_nonempty by done.
  split; [by rewrite directLinks_eq, Hp|].
  split; [apply fallbackPairs_NoDup|].
  split; [apply fallbackPairs_elem|].
  intros a b. rewrite adjOf_directLinks, Hp. unfold linkedBy. split.
  - intros (p & q & v1 & v2 & Hin & E1 & E2 & G & Hab).
    apply fallbackPairs_elem in Hin. exists p, q, v1, v2. split; [lia|auto].
  - intros (p & q & v1 & v2 & Hpq & E1 & E2 & G & Hab).
    exists p, q, v1, v2. split; [|auto].
    apply fallbackPairs_elem. apply lookup_lt_Some in E2. lia.
Qed.

Lemma fallback_all_pairs_witness :
  pair_snaps <> [] /\
  (@None AntennaNeighborhood = None \/
   exists ai, @None AntennaNeighborhood = Some ai /\ vehiclesPerAntenna ai = ∅) /\
  fallbackPairs (length pair_snaps) = [(0, 1)] /\
  adjacencyList (buildGraphFromSnapshots (mkInterferenceGraph ∅ ∅ false) pair_snaps None) =
    foldl (compareIdx pair_snaps) (initAdjacency pair_snaps) (fallbackPairs (length pair_snaps)) /\
  NoDup (fallbackPairs (length pair_snaps)) /\
  (forall p q, (p, q) ∈ fallbackPairs (length pair_snaps) <-> p < q < length pair_snaps) /\
  (forall a b,
     b ∈ adjOf (adjacencyList (buildGraphFromSnapshots (mkInterferenceGraph ∅ ∅ false) pair_snaps None)) a <->
     exists p q v1 v2, p < q /\ pair_snaps !! p = Some v1 /\ pair_snaps !! q = Some v2 /\
       inMutualRange v1 v2 = true /\
       ((a = VehicleSnapshot.id v1 /\ b = VehicleSnapshot.id v2) \/
        (a = VehicleSnapshot.id v2 /\ b = VehicleSnapshot.id v1))).
Proof.
  assert (H1 : pair_snaps <> []) by discriminate.
  assert (H2 : @None AntennaNeighborhood = None \/
     exists ai, @None AntennaNeighborhood = Some ai /\ vehiclesPerAntenna ai = ∅) by (left; reflexivity).
  split; [exact H1|]. split; [exact H2|]. split; [reflexivity|].
  exact (fallback_all_pairs (mkInterferenceGraph ∅ ∅ false) pair_snaps None H1 H2).
Defined.

(** C10 *)
(** With transitive closure disabled, every build (from snapshots or from
    live vehicles) leaves the closure map empty, so [canCommunicate]
    answers [false] for every pair of ids, direct neighbours included;
    and on any graph, an [id1] absent from the closure map gives [false]. *)
Theorem canCommunicate_needs_closure (ig : InterferenceGraph) :
  computeTransitive ig = false ->
  (forall snaps antennaInfo id1 id2,
     canCommunicate (buildGraphFromSnapshots ig snaps antennaInfo) id1 id2 = false) /\
  (forall graph useSpatialGrid getNearbyVehicles vehicles id1 id2,
     canCommunicate (buildGraph graph useSpatialGrid getNearbyVehicles ig vehicles) id1 id2
     = false) /\
  (forall g id1 id2, transitiveClosure g !! id1 = None -> canCommunicate g id1 id2 = false).
Proof.
  intros Hoff. split; [|split].
  - intros snaps antennaInfo id1 id2. unfold canCommunicate.
    rewrite build_closure, Hoff. by rewrite lookup_empty.
  - intros graph use nearby vehicles id1 id2. unfold canCommunicate, buildGraph.
    destruct vehicles; [simpl; by rewrite lookup_empty|].
    cbv beta iota zeta. cbn [transitiveClosure]. rewrite Hoff. by rewrite lookup_empty.
  - intros g id1 id2 H. unfold canCommunicate. by rewrite H.
Qed.

Lemma canCommunicate_needs_closure_witness :
  computeTransitive (mkInterferenceGraph ∅ ∅ false) = false /\
  canCommunicate
    (buildGraphFromSnapshots (mkInterferenceGraph ∅ ∅ false)
       [VehicleSnapshot.mk 1 0 0 500 0; VehicleSnapshot.mk 2 0 0 500 0] None) 1 2 = false.
Proof.
  split; [reflexivity|].
  exact (proj1 (canCommunicate_needs_closure (mkInterferenceGraph ∅ ∅ false) eq_refl) _ _ 1%Z 2%Z).
Defined.

(** ** Snapshot ids and cell lists *)

Lemma ids_inj (snaps : list VehicleSnapshot.t) i j x y :
  NoDup (map VehicleSnapshot.id snaps) ->
  snaps !! i = Some x -> snaps !! j = Some y ->
  VehicleSnapshot.id x = VehicleSnapshot.id y -> i = j.
Proof.
  intros Hnd Hi Hj Hid.
  eapply (NoDup_lookup (map VehicleSnapshot.id snaps)); [exact Hnd| |].
  - rewrite list_lookup_fmap, Hi. reflexivity.
  - rewrite list_lookup_fmap, Hj. simpl. by rewrite Hid.
Qed.

Lemma driverVehiclesPerAntenna_listed snaps a l x :
  driverVehiclesPerAntenna snaps !! a = Some l -> x ∈ l ->
  exists s, snaps !! x = Some s /\ VehicleSnapshot.microAntennaId s = a /\ (0 <= a)%Z.
Proof.
  unfold driverVehiclesPerAntenna. revert a l x.
  apply (foldl_invariant (fun m : gmap Z (list nat) => forall a l x, m !! a = Some l -> x ∈ l ->
           exists s, snaps !! x = Some s /\ VehicleSnapshot.microAntennaId s = a /\ (0 <= a)%Z)).
  - intros a l x H. by rewrite lookup_empty in H.
  - intros m i Hm a l x Ha Hx.
    destruct (snaps !! i) as [s|] eqn:Hs; [|eauto].
    case_decide as Hpos; [|eauto].
    rewrite lookup_insert in Ha. case_decide as Heq; [|eauto].
    injection Ha as <-. subst a. apply elem_of_app in Hx as [Hx|Hx].
    + destruct (m !! _) as [l0|] eqn:Hl0; simpl in Hx.
      * eauto.
      * by apply not_elem_of_nil in Hx.
    + apply list_elem_of_singleton in Hx. subst x. eauto.
Qed.

(** C9 *)
(** On the antenna-based path (non-empty [vehiclesPerAntenna]), with
    distinct snapshot ids, a snapshot whose index is in no cell's list
    ends the build with an empty adjacency set, whatever its position and
    range; and the driver's lists leave out exactly the snapshots with a
    negative micro-cell id. *)
Theorem unlisted_snapshot_isolated :
  (forall ig (snaps : list VehicleSnapshot.t) ai p v,
     NoDup (map VehicleSnapshot.id snaps) ->
     vehiclesPerAntenna ai <> ∅ ->
     snaps !! p = Some v ->
     (forall a l, vehiclesPerAntenna ai !! a = Some l -> p ∉ l) ->
     adjacencyList (buildGraphFromSnapshots ig snaps (Some ai)) !! VehicleSnapshot.id v
       = Some ∅) /\
  (forall (snaps : list VehicleSnapshot.t) p v,
     snaps !! p = Some v -> (VehicleSnapshot.microAntennaId v < 0)%Z ->
     forall a l, driverVehiclesPerAntenna snaps !! a = Some l -> p ∉ l).
Proof.
  split.
  - intros ig snaps ai p v Hnd Hne Hp Hun.
    assert (Hsn : snaps <> []) by (intros ->; done).
    rewrite build_adjacency_nonempty by done.
    destruct (directLinks_key snaps (Some ai) v) as [s Hs];
      [by eapply list_elem_of_lookup_2|].
    rewrite Hs. f_equal. apply set_eq. intros b. split; [|set_solver].
    intros Hb.
    assert (Hb' : b ∈ adjOf (directLinks snaps (Some ai)) (VehicleSnapshot.id v))
      by (unfold adjOf; by rewrite Hs).
    apply adjOf_directLinks in Hb'. unfold buildPairs in Hb'.
    rewrite decide_False in Hb' by done.
    destruct Hb' as (p' & q' & v1 & v2 & Hin & E1 & E2 & _ & Hab).
    destruct (antennaPairs_listed ai p' q' Hin) as [(a & l & Hl & Hpl) (a' & l' & Hl' & Hql)].
    destruct Hab as [[Hid _]|[Hid _]].
    + assert (p' = p) as -> by (eapply ids_inj; eauto).
      exfalso; exact (Hun a l Hl Hpl).
    + assert (q' = p) as -> by (eapply ids_inj; eauto).
      exfalso; exact (Hun a' l' Hl' Hql).
  - intros snaps p v Hp Hneg a l Hl Hin.
    destruct (driverVehiclesPerAntenna_listed snaps a l p Hl Hin) as (s & Hs & Hid & Hpos).
    rewrite Hp in Hs. injection Hs as <-. lia.
Qed.

Lemma unlisted_snapshot_isolated_witness :
  NoDup (map VehicleSnapshot.id unlisted_snaps) /\
  vehiclesPerAntenna unlisted_info <> ∅ /\
  unlisted_snaps !! 0 = Some (VehicleSnapshot.mk 1 0 0 100 (-1)) /\
  (forall a l, vehiclesPerAntenna unlisted_info !! a = Some l -> 0 ∉ l) /\
  adjacencyList (buildGraphFromSnapshots (mkInterferenceGraph ∅ ∅ true)
                   unlisted_snaps (Some unlisted_info)) !! 1%Z = Some ∅.
Proof.
  assert (H1 : NoDup (map VehicleSnapshot.id unlisted_snaps)) by (simpl; apply (bool_decide_unpack _); vm_compute; reflexivity).
  assert (H2 : vehiclesPerAntenna unlisted_info <> ∅).
  { intros H. apply (f_equal (lookup 0%Z)) in H. simpl in H. discriminate. }
  assert (H3 : unlisted_snaps !! 0 = Some (VehicleSnapshot.mk 1 0 0 100 (-1))) by reflexivity.
  assert (H4 : forall a l, vehiclesPerAntenna unlisted_info !! a = Some l -> 0 ∉ l).
  { apply (proj2 unlisted_snapshot_isolated unlisted_snaps 0 _ H3). simpl. lia. }
  split; [exact H1|]. split; [exact H2|]. split; [exact H3|]. split; [exact H4|].
  exact (proj1 unlisted_snapshot_isolated _ _ _ _ _ H1 H2 H3 H4).
Defined.

(** ** Pairs compared on the antenna path *)

Lemma inMutualRange_spec v1 v2 :
  inMutualRange v1 v2 = true <->
  (snapDistance v1 v2 <= VehicleSnapshot.transmissionRange v1 /\
   snapDistance v1 v2 <= VehicleSnapshot.transmissionRange v2)%R.
Proof.
  unfold inMutualRange, Rleb.
  destruct (Rle_dec _ _), (Rle_dec _ _); simpl; split; intros H;
    try discriminate; try (destruct H; contradiction); auto.
Qed.

Lemma elem_of_concat_snd (L : list (Z * list nat)) b l x :
  (b, l) ∈ L -> x ∈ l -> x ∈ concat (map snd L).
Proof.
  induction L as [|[c m] L IH]; simpl; intros Hb Hx.
  - by apply not_elem_of_nil in Hb.
  - apply elem_of_app. apply elem_of_cons in Hb as [Hb|Hb].
    + injection Hb as -> ->. by left.
    + right. by apply IH.
Qed.

Lemma cells_split (vpa : gmap Z (list nat)) a l :
  vpa !! a = Some l ->
  exists L1 L2, map_to_list vpa = L1 ++ (a, l) :: L2.
Proof.
  intros Ha. apply elem_of_map_to_list in Ha. by apply list_elem_of_split in Ha.
Qed.

Lemma cells_unique (vpa : gmap Z (list nat)) a b l l' x :
  NoDup (concat (map snd (map_to_list vpa))) ->
  vpa !! a = Some l -> vpa !! b = Some l' -> x ∈ l -> x ∈ l' -> a = b.
Proof.
  intros Hnd Ha Hb Hx Hx'. destruct (decide (a = b)) as [|Hne]; [done|exfalso].
  destruct (cells_split vpa a l Ha) as (L1 & L2 & HL).
  apply elem_of_map_to_list in Hb. rewrite HL in Hnd, Hb.
  rewrite map_app, concat_app in Hnd. simpl in Hnd.
  apply NoDup_app in Hnd as (_ & Hdis & Hnd2).
  apply NoDup_app in Hnd2 as (_ & Hdis2 & _).
  apply elem_of_app in Hb as [Hb|Hb].
  - apply (Hdis x); [by eapply elem_of_concat_snd|]. apply elem_of_app. by left.
  - apply elem_of_cons in Hb as [Hb|Hb].
    + injection Hb as -> ->. by apply Hne.
    + apply (Hdis2 x Hx). by eapply elem_of_concat_snd.
Qed.

Lemma cell_NoDup (vpa : gmap Z (list nat)) a l :
  NoDup (concat (map snd (map_to_list vpa))) -> vpa !! a = Some l -> NoDup l.
Proof.
  intros Hnd Ha. destruct (cells_split vpa a l Ha) as (L1 & L2 & HL).
  rewrite HL, map_app, concat_app in Hnd. simpl in Hnd.
  apply NoDup_app in Hnd as (_ & _ & Hnd2). by apply NoDup_app in Hnd2 as (? & _ & _).
Qed.

Lemma antennaPairs_cells ai p q :
  (p, q) ∈ antennaPairs ai ->
  exists a b l l', vehiclesPerAntenna ai !! a = Some l /\
    vehiclesPerAntenna ai !! b = Some l' /\ p ∈ l /\ q ∈ l' /\
    ((a < b)%Z \/ (a = b /\ exists i j, i < j /\ l !! i = Some p /\ l !! j = Some q)).
Proof.
  intros H. destruct (antennaPairs_elem ai p q H)
    as (a & l & Hl & [Hs|(nbrs & b & l2 & _ & _ & Hab & Hl2 & Hp & Hq)]).
  - destruct (samePairs_elem l p q Hs) as (i & j & Hij & Hi & Hj).
    exists a, a, l, l. repeat split; auto.
    + eapply list_elem_of_lookup_2; eauto.
    + eapply list_elem_of_lookup_2; eauto.
    + right. split; [done|]. eauto.
  - exists a, b, l, l2. repeat split; auto.
Qed.

Lemma antennaPairs_antisym ai p q :
  NoDup (concat (map snd (map_to_list (vehiclesPerAntenna ai)))) ->
  p <> q -> (p, q) ∈ antennaPairs ai -> (q, p) ∈ antennaPairs ai -> False.
Proof.
  intros Hnd Hpq H1 H2.
  destruct (antennaPairs_cells ai p q H1) as (a & b & l & l1 & Ha & Hb & Hp & Hq & C1).
  destruct (antennaPairs_cells ai q p H2) as (a' & b' & m & m1 & Ha' & Hb' & Hq' & Hp' & C2).
  assert (a = b') as <- by (eapply cells_unique; eauto).
  assert (b = a') as <- by (eapply cells_unique; eauto).
  destruct C1 as [C1|(<- & i & j & Hij & Hi & Hj)]; destruct C2 as [C2|(Heq & i' & j' & Hij' & Hi' & Hj')];
    try lia.
  rewrite Ha in Hb, Ha'. injection Ha' as <-.
  pose proof (cell_NoDup _ a l Hnd Ha) as Hndl.
  assert (i = j') by (eapply NoDup_lookup; eauto).
  assert (j = i') by (eapply NoDup_lookup; eauto).
  lia.
Qed.

(** C1 *)
(** On the antenna path, with distinct snapshot ids and each index listed
    in at most one cell, for every pair [(p, q)] the builder compares
    (same micro cell, or a cell and a higher-numbered neighbour cell):
    the edge between the two vehicles is present in the final adjacency
    list exactly when the equirectangular distance is within both
    transmission ranges; so at distance 75 with ranges 100 and 50 there
    is no edge. *)
Theorem considered_pair_edge_iff :
  forall ig (snaps : list VehicleSnapshot.t) ai p q v1 v2,
    NoDup (map VehicleSnapshot.id snaps) ->
    NoDup (concat (map snd (map_to_list (vehiclesPerAntenna ai)))) ->
    vehiclesPerAntenna ai <> ∅ ->
    (p, q) ∈ antennaPairs ai ->
    snaps !! p = Some v1 -> snaps !! q = Some v2 ->
    (VehicleSnapshot.id v2
       ∈ adjOf (adjacencyList (buildGraphFromSnapshots ig snaps (Some ai)))
               (VehicleSnapshot.id v1) <->
     (snapDistance v1 v2 <= VehicleSnapshot.transmissionRange v1 /\
      snapDistance v1 v2 <= VehicleSnapshot.transmissionRange v2)%R) /\
    (snapDistance v1 v2 = 75 -> VehicleSnapshot.transmissionRange v1 = 100 ->
     VehicleSnapshot.transmissionRange v2 = 50 ->
     VehicleSnapshot.id v2
       ∉ adjOf (adjacencyList (buildGraphFromSnapshots ig snaps (Some ai)))
               (VehicleSnapshot.id v1))%R.
Proof.
  intros ig snaps ai p q v1 v2 Hids Hcells Hne Hin E1 E2.
  assert (Hsn : snaps <> []) by (intros ->; done).
  rewrite build_adjacency_nonempty by done.
  assert (Hiff : VehicleSnapshot.id v2 ∈ adjOf (directLinks snaps (Some ai)) (VehicleSnapshot.id v1) <->
     (snapDistance v1 v2 <= VehicleSnapshot.transmissionRange v1 /\
      snapDistance v1 v2 <= VehicleSnapshot.transmissionRange v2)%R).
  { rewrite adjOf_directLinks. unfold buildPairs. rewrite decide_False by done.
    rewrite <- inMutualRange_spec. split.
    - intros (p' & q' & w1 & w2 & Hin' & F1 & F2 & Hg & Hab).
      destruct Hab as [[Ha Hb]|[Ha Hb]].
      + assert (p' = p) as -> by (eapply ids_inj; eauto).
        assert (q' = q) as -> by (eapply ids_inj; eauto).
        rewrite E1 in F1. rewrite E2 in F2. congruence.
      + assert (q' = p) as -> by (eapply ids_inj; eauto).
        assert (p' = q) as -> by (eapply ids_inj; eauto).
        destruct (decide (p = q)) as [->|Hpq].
        * rewrite E2 in E1. injection E1 as ->. congruence.
        * exfalso. exact (antennaPairs_antisym ai p q Hcells Hpq Hin Hin').
    - intros Hg. exists p, q, v1, v2. repeat split; auto. }
  split; [exact Hiff|].
  intros Hd Hr1 Hr2 Hmem. apply Hiff in Hmem. lra.
Qed.

Lemma considered_pair_edge_iff_witness :
  NoDup (map VehicleSnapshot.id pair_snaps) /\
  NoDup (concat (map snd (map_to_list (vehiclesPerAntenna pair_info)))) /\
  vehiclesPerAntenna pair_info <> ∅ /\
  (0, 1) ∈ antennaPairs pair_info /\
  (2%Z ∈ adjOf (adjacencyList (buildGraphFromSnapshots (mkInterferenceGraph ∅ ∅ false)
                                 pair_snaps (Some pair_info))) 1%Z <->
   (snapDistance (VehicleSnapshot.mk 1 0 0 100 0) (VehicleSnapshot.mk 2 0 0 50 0) <= 100 /\
    snapDistance (VehicleSnapshot.mk 1 0 0 100 0) (VehicleSnapshot.mk 2 0 0 50 0) <= 50)%R).
Proof.
  assert (H1 : NoDup (map VehicleSnapshot.id pair_snaps))
    by (simpl; apply (bool_decide_unpack _); vm_compute; reflexivity).
  assert (H2 : NoDup (concat (map snd (map_to_list (vehiclesPerAntenna pair_info)))))
    by (apply (bool_decide_unpack _); vm_compute; reflexivity).
  assert (H3 : vehiclesPerAntenna pair_info <> ∅) by apply insert_non_empty.
  assert (H4 : (0, 1) ∈ antennaPairs pair_info)
    by (apply (bool_decide_unpack _); vm_compute; reflexivity).
  split; [exact H1|]. split; [exact H2|]. split; [exact H3|]. split; [exact H4|].
  exact (proj1 (considered_pair_edge_iff _ pair_snaps pair_info 0 1 _ _ H1 H2 H3 H4
                  eq_refl eq_refl)).
Defined.

(** ** Breadth-first traversal *)

Lemma visitNeighbor_eq V Q y :
  visitNeighbor (V, Q) y =
  if decide (y ∈ V) then (V, Q) else ({[y]} ∪ V, Q ++ [y]).
Proof. reflexivity. Qed.

Lemma bfs_fold (l : list Z) V Q :
  exists new, foldl visitNeighbor (V, Q) l = (V ∪ list_to_set new, Q ++ new) /\
    NoDup new /\ (forall z, z ∈ new -> (z ∉ V) /\ z ∈ l) /\
    (forall z, z ∈ l -> z ∈ V ∪ list_to_set new).
Proof.
  revert V Q. induction l as [|y l IH]; intros V Q; cbn [foldl].
  - exists []. simpl. rewrite app_nil_r, (right_id_L ∅ union V).
    split; [done|]. split; [constructor|]. split; intros z Hz.
    + by apply not_elem_of_nil in Hz.
    + by apply not_elem_of_nil in Hz.
  - rewrite visitNeighbor_eq. destruct (decide (y ∈ V)) as [Hy|Hy].
    + destruct (IH V Q) as (new & E & Hnd & Hnew & Hcov). exists new.
      split; [exact E|]. split; [exact Hnd|]. split.
      * intros z Hz. destruct (Hnew z Hz). split; [done|]. by apply elem_of_cons; right.
      * intros z Hz. apply elem_of_cons in Hz as [->|Hz]; [set_solver|by apply Hcov].
    + destruct (IH ({[y]} ∪ V) (Q ++ [y])) as (new & E & Hnd & Hnew & Hcov).
      exists (y :: new). rewrite E, <- app_assoc. simpl.
      split; [f_equal; set_solver|]. split.
      * constructor; [|exact Hnd]. intros Hin. destruct (Hnew y Hin). set_solver.
      * split.
        -- intros z Hz. apply elem_of_cons in Hz as [->|Hz]; [split; [done|by left]|].
           destruct (Hnew z Hz) as [Hz1 Hz2]. split; [set_solver|by right].
        -- intros z Hz. apply elem_of_cons in Hz as [->|Hz]; [set_solver|].
           specialize (Hcov z Hz). set_solver.
Qed.

Lemma size_diff_new (U V : gset Z) new :
  NoDup new -> (forall z, z ∈ new -> (z ∉ V) /\ z ∈ U) ->
  size (U ∖ V) = size (U ∖ (V ∪ list_to_set new)) + length new.
Proof.
  intros Hnd Hnew.
  assert (E : U ∖ V = (U ∖ (V ∪ list_to_set new)) ∪ list_to_set new).
  { apply set_eq. intros z. rewrite elem_of_union, !elem_of_difference, elem_of_union,
      elem_of_list_to_set. split.
    - intros [Hu Hv]. destruct (decide (z ∈ new)); [by right|left; set_solver].
    - intros [[Hu Hv]|Hz]; [set_solver|]. destruct (Hnew z Hz). done. }
  rewrite E at 1. rewrite size_union, size_list_to_set by (done || set_solver). lia.
Qed.

Lemma adj_value_universe (adj : AdjMap) s x ns :
  adj !! x = Some ns -> ns ⊆ bfsUniverse adj s.
Proof.
  intros Hx z Hz. unfold bfsUniverse. apply elem_of_union. right.
  apply elem_of_union_list. exists ns. split; [|done].
  apply list_elem_of_In, in_map_iff. exists (x, ns). split; [done|].
  apply list_elem_of_In, elem_of_map_to_list, Hx.
Qed.

Lemma closed_reach (adj : AdjMap) (V : gset Z) s y :
  (forall x ns, x ∈ V -> adj !! x = Some ns -> ns ⊆ V) -> s ∈ V ->
  rtc (adjEdge adj) s y -> y ∈ V.
Proof.
  intros Hc Hs H. induction H as [x|x z y Hxz _ IH]; [done|].
  apply IH. destruct Hxz as (ns & Hns & Hz). by apply (Hc x ns Hs Hns).
Qed.

Lemma bfsLoop_correct (adj : AdjMap) s fuel :
  forall V Q,
    (forall x, x ∈ V -> rtc (adjEdge adj) s x) ->
    (forall x, x ∈ Q -> x ∈ V) ->
    (forall x ns, x ∈ V -> x ∉ Q -> adj !! x = Some ns -> ns ⊆ V) ->
    s ∈ V ->
    length Q + size (bfsUniverse adj s ∖ V) <= fuel ->
    forall y, y ∈ bfsLoop adj fuel V Q <-> rtc (adjEdge adj) s y.
Proof.
  induction fuel as [|fuel IH]; intros V Q Hreach HQ Hclosed Hs Hm y.
  - destruct Q; [|simpl in Hm; lia]. simpl. split; [apply Hreach|].
    apply closed_reach; [|done]. intros x ns Hx. apply Hclosed; [done|apply not_elem_of_nil].
  - destruct Q as [|x rest].
    + simpl. split; [apply Hreach|].
      apply closed_reach; [|done]. intros x ns Hx. apply Hclosed; [done|apply not_elem_of_nil].
    + assert (HxV : x ∈ V) by (apply HQ; by left).
      simpl. destruct (adj !! x) as [ns|] eqn:Hx.
      * destruct (bfs_fold (elements ns) V rest) as (new & E & Hnd & Hnew & Hcov).
        rewrite E. apply IH.
        -- intros z Hz. apply elem_of_union in Hz as [Hz|Hz]; [by apply Hreach|].
           apply elem_of_list_to_set in Hz. destruct (Hnew z Hz) as [_ Hz'].
           apply elem_of_elements in Hz'. eapply rtc_r; [by apply Hreach|].
           by exists ns.
        -- intros z Hz. apply elem_of_app in Hz as [Hz|Hz].
           ++ apply elem_of_union. left. apply HQ. by right.
           ++ apply elem_of_union. right. by apply elem_of_list_to_set.
        -- intros z ns' Hz Hzq Hns'. destruct (decide (z = x)) as [->|Hzx].
           ++ rewrite Hx in Hns'. injection Hns' as <-. intros w Hw.
              apply Hcov. by apply elem_of_elements.
           ++ assert (HzV : z ∈ V).
              { apply elem_of_union in Hz as [Hz|Hz]; [done|].
                exfalso. apply Hzq, elem_of_app. right. by apply elem_of_list_to_set in Hz. }
              assert (Hzq' : z ∉ x :: rest).
              { intros Hin. apply elem_of_cons in Hin as [->|Hin]; [done|].
                apply Hzq, elem_of_app. by left. }
              pose proof (Hclosed z ns' HzV Hzq' Hns'). set_solver.
        -- set_solver.
        -- rewrite length_app.
           rewrite (size_diff_new (bfsUniverse adj s) V new) in Hm.
           ++ simpl in Hm. lia.
           ++ exact Hnd.
           ++ intros z Hz. destruct (Hnew z Hz) as [Hz1 Hz2]. split; [done|].
              apply elem_of_elements in Hz2. by apply (adj_value_universe adj s x ns Hx).
      * apply IH; [done| |  |done|simpl in Hm; lia].
        -- intros z Hz. apply HQ. by right.
        -- intros z ns' Hz Hzq Hns'. destruct (decide (z = x)) as [->|Hzx]; [congruence|].
           apply (Hclosed z ns' Hz); [|done].
           intros Hin. apply elem_of_cons in Hin as [->|Hin]; [done|]. by apply Hzq.
Qed.

Lemma bfsReachable_spec (adj : AdjMap) s y :
  y ∈ bfsReachable adj s <-> y <> s /\ tc (adjEdge adj) s y.
Proof.
  unfold bfsReachable. rewrite elem_of_difference, elem_of_singleton.
  rewrite (bfsLoop_correct adj s (bfsFuel adj s) {[s]} [s]).
  - rewrite rtc_tc. split; [intros [[->|H] Hne]; [done|auto]|intros [Hne H]; auto].
  - intros x Hx. apply elem_of_singleton in Hx as ->. constructor.
  - intros x Hx. apply list_elem_of_singleton in Hx as ->. set_solver.
  - intros x ns Hx Hxq. apply elem_of_singleton in Hx as ->.
    exfalso. apply Hxq. by left.
  - set_solver.
  - unfold bfsFuel. simpl.
    pose proof (subseteq_size (bfsUniverse adj s ∖ {[s]}) (bfsUniverse adj s)
                  ltac:(set_solver)). lia.
Qed.

Lemma computeTransitiveClosure_exact (adj : AdjMap) i :
  is_Some (adj !! i) ->
  exists S, computeTransitiveClosure adj !! i = Some S /\ (i ∉ S) /\
    forall j, j ∈ S <-> j <> i /\ tc (adjEdge adj) i j.
Proof.
  intros [ns Hns]. exists (bfsReachable adj i). unfold computeTransitiveClosure.
  rewrite map_lookup_imap, Hns. simpl. split; [done|]. split.
  - rewrite bfsReachable_spec. tauto.
  - intros j. apply bfsReachable_spec.
Qed.

(** C2 *)
(** With transitive closure enabled, after any build (from snapshots, or
    from live vehicles on either the classic or the spatial-grid path),
    every id [i] with an adjacency entry has a closure entry that holds
    exactly the ids [j <> i] reachable from [i] by an adjacency path of
    length at least one; [i] itself is never in it. *)
Theorem transitive_closure_exact (ig : InterferenceGraph) :
  computeTransitive ig = true ->
  (forall snaps antennaInfo, closureExact (buildGraphFromSnapshots ig snaps antennaInfo)) /\
  (forall graph useSpatialGrid getNearbyVehicles vehicles,
     closureExact (buildGraph graph useSpatialGrid getNearbyVehicles ig vehicles)).
Proof.
  intros Hon. split.
  - intros snaps antennaInfo i Hi.
    rewrite build_closure, Hon. by apply computeTransitiveClosure_exact.
  - intros graph use nearby vehicles i Hi. unfold buildGraph in *.
    destruct vehicles as [|ov rest].
    + simpl in Hi. rewrite lookup_empty in Hi. by destruct Hi.
    + cbv beta iota zeta in *. cbn [transitiveClosure adjacencyList] in *. rewrite Hon.
      by apply computeTransitiveClosure_exact.
Qed.

Lemma transitive_closure_exact_witness :
  computeTransitive (mkInterferenceGraph ∅ ∅ true) = true /\
  closureExact (buildGraphFromSnapshots (mkInterferenceGraph ∅ ∅ true) pair_snaps None).
Proof.
  split; [reflexivity|].
  exact (proj1 (transitive_closure_exact (mkInterferenceGraph ∅ ∅ true) eq_refl) _ _).
Defined.

(** ** Heading *)

Lemma atan2_range y x : (- PI <= atan2 y x <= PI)%R.
Proof.
  pose proof PI_RGT_0 as Hpi. unfold atan2.
  destruct (Rlt_dec 0 x) as [Hx|Hx].
  - pose proof (atan_bound (y / x)). lra.
  - destruct (Rlt_dec x 0) as [Hx'|Hx'].
    + pose proof (atan_bound (y / x)) as Hb.
      assert (Hinv : (/ x < 0)%R) by (apply Rinv_lt_0_compat; lra).
      destruct (Rle_dec 0 y) as [Hy|Hy].
      * assert (Hq : (y / x <= 0)%R) by (unfold Rdiv; nra).
        assert (atan (y / x) <= 0)%R.
        { destruct (Req_dec (y / x) 0) as [E|E].
          - rewrite E, atan_0. lra.
          - rewrite <- atan_0. left. apply atan_increasing. lra. }
        lra.
      * assert (Hq : (0 < y / x)%R) by (unfold Rdiv; nra).
        assert (0 < atan (y / x))%R by (rewrite <- atan_0; apply atan_increasing; lra).
        lra.
    + destruct (Rlt_dec 0 y); [lra|]. destruct (Rlt_dec y 0); lra.
Qed.

Lemma pickNextEdge_heading g r v :
  Vehicule.currentHeading (Vehicule.pickNextEdge g r v) = Vehicule.currentHeading v.
Proof.
  unfold Vehicule.pickNextEdge, Vehicule.reroute, Vehicule.pickRandom, Vehicule.nextRand.
  repeat case_match; simplify_eq; reflexivity.
Qed.

Lemma advance_heading g r fuel v v' :
  Vehicule.advance g r fuel v = Some v' ->
  Vehicule.currentHeading v' = Vehicule.currentHeading v.
Proof.
  revert v. induction fuel as [|fuel IH]; intros v H; simpl in H;
    destruct (Rle_dec _ _); try (by injection H as <-); try discriminate.
  destruct (decide _).
  - injection H as <-. reflexivity.
  - apply IH in H. rewrite H. simpl. rewrite pickNextEdge_heading. reflexivity.
Qed.

Lemma smoothHeading_spec dLat dLon v :
  (0 <= Vehicule.currentHeading v < 360)%R ->
  specHeadingStep (Vehicule.currentHeading v) dLat dLon
    (Vehicule.currentHeading (Vehicule.smoothHeading dLat dLon v)).
Proof.
  intros Hh. unfold Vehicule.smoothHeading. cbv zeta.
  cbn [Vehicule.currentHeading Vehicule.set_currentHeading Vehicule.set_targetHeading].
  unfold Vehicule.headingSmoothingFactor.
  set (h := Vehicule.currentHeading v) in *.
  pose proof (atan2_range dLon dLat) as Ha. pose proof PI_RGT_0 as Hpi.
  set (a := atan2 dLon dLat) in *.
  assert (Hth0 : (-180 <= a * 180 / PI <= 180)%R).
  { assert (E : (a * 180 / PI * PI = a * 180)%R) by (field; lra).
    split; nra. }
  set (th0 := (a * 180 / PI)%R) in *.
  set (th := if Rlt_dec th0 0 then (th0 + 360)%R else th0).
  assert (Hth : (0 <= th < 360)%R /\ exists kt : Z, th = (th0 + 360 * IZR kt)%R).
  { unfold th. destruct (Rlt_dec th0 0).
    - split; [lra|]. exists 1%Z. lra.
    - split; [lra|]. exists 0%Z. lra. }
  set (ad := if Rlt_dec 180 (th - h) then (th - h - 360)%R
             else if Rlt_dec (th - h) (-180) then (th - h + 360)%R else (th - h)%R).
  assert (Had : (-180 <= ad <= 180)%R /\ exists kd : Z, ad = (th - h + 360 * IZR kd)%R).
  { unfold ad. destruct (Rlt_dec 180 (th - h)); [|destruct (Rlt_dec (th - h) (-180))].
    - split; [lra|]. exists (-1)%Z. lra.
    - split; [lra|]. exists 1%Z. lra.
    - split; [lra|]. exists 0%Z. lra. }
  set (hn := if Rlt_dec (h + ad * (15 / 100)) 0 then (h + ad * (15 / 100) + 360)%R
             else if Rle_dec 360 (h + ad * (15 / 100)) then (h + ad * (15 / 100) - 360)%R
             else (h + ad * (15 / 100))%R).
  assert (Hhn : (0 <= hn < 360)%R /\ exists kh : Z, hn = (h + 15 / 100 * ad + 360 * IZR kh)%R).
  { unfold hn. destruct (Rlt_dec (h + ad * (15 / 100)) 0);
      [|destruct (Rle_dec 360 (h + ad * (15 / 100)))].
    - split; [lra|]. exists 1%Z. lra.
    - split; [lra|]. exists (-1)%Z. lra.
    - split; [lra|]. exists 0%Z. lra. }
  destruct Hth as [Hth [kt Ekt]]. destruct Had as [Had [kd Ekd]].
  destruct Hhn as [Hhn [kh Ekh]].
  exists th, ad, kt, kd, kh. unfold th0, a in Ekt. repeat split; lra.
Qed.

(** C8 *)
(** Doubles are taken as real numbers.  For a vehicle whose heading is in
    [[0, 360)], any completed [update] leaves the heading in [[0, 360)]; at
    the goal it is unchanged; otherwise, with [(dLat, dLon)] the tick's
    movement vector, the new heading is the spec's smoothing step
    toward [atan2(dLon, dLat)] when [|dLat|] or [|dLon|] exceeds 1e-10, and
    the old heading when not. *)
Theorem heading_update_spec graph rand fuel dt v v' :
  (0 <= Vehicule.currentHeading v < 360)%R ->
  Vehicule.update graph rand fuel dt v = Some v' ->
  (0 <= Vehicule.currentHeading v' < 360)%R /\
  (Vehicule.currVertex v = Vehicule.goal v ->
   Vehicule.currentHeading v' = Vehicule.currentHeading v) /\
  (Vehicule.currVertex v <> Vehicule.goal v ->
   let '(dLat, dLon) := Vehicule.movementVector graph rand dt v in
   if Vehicule.significantMove dLat dLon
   then specHeadingStep (Vehicule.currentHeading v) dLat dLon (Vehicule.currentHeading v')
   else Vehicule.currentHeading v' = Vehicule.currentHeading v).
Proof.
  intros Hh Hu. unfold Vehicule.update in Hu.
  destruct (decide (Vehicule.currVertex v = Vehicule.goal v)) as [Hg|Hg].
  - injection Hu as <-. split; [exact Hh|]. split; [reflexivity|]. contradiction.
  - apply advance_heading in Hu. rewrite Hu.
    unfold Vehicule.moveAlongEdge, Vehicule.movementVector. cbv zeta.
    set (v1 := if Rle_dec (Vehicule.edgeLength v) 0 then Vehicule.pickNextEdge graph rand v else v).
    assert (H1 : Vehicule.currentHeading v1 = Vehicule.currentHeading v)
      by (unfold v1; destruct (Rle_dec _ _); [apply pickNextEdge_heading|reflexivity]).
    destruct (Vehicule.getPosition graph v1) as [pl po].
    destruct (Vehicule.getPosition graph (Vehicule.set_positionOnEdge _ v1)) as [cl co].
    destruct (Vehicule.significantMove _ _) eqn:Hs.
    + pose proof (smoothHeading_spec (cl - pl) (co - po)
        (Vehicule.set_positionOnEdge (Vehicule.positionOnEdge v1 + Vehicule.speed v1 * dt) v1))
        as Hsp.
      cbn [Vehicule.currentHeading Vehicule.set_positionOnEdge] in Hsp. rewrite H1 in Hsp.
      specialize (Hsp Hh).
      split; [destruct Hsp as (? & ? & ? & ? & ? & _ & _ & _ & _ & ? & _); done|].
      split; [contradiction|]. intros _. cbv beta iota. exact Hsp.
    + cbn [Vehicule.currentHeading Vehicule.set_positionOnEdge]. rewrite H1.
      split; [exact Hh|]. split; [contradiction|]. intros _. cbv beta iota. reflexivity.
Qed.

(** ** Edge position *)

Lemma moveAlongEdge_fields graph rand dt v :
  let v1 := if Rle_dec (Vehicule.edgeLength v) 0 then Vehicule.pickNextEdge graph rand v else v in
  let v2 := Vehicule.set_positionOnEdge (Vehicule.positionOnEdge v1 + Vehicule.speed v1 * dt)%R v1 in
  let m := Vehicule.moveAlongEdge graph rand dt v in
  Vehicule.edgeLength m = Vehicule.edgeLength v2 /\
  Vehicule.positionOnEdge m = Vehicule.positionOnEdge v2 /\
  Vehicule.nextVertex m = Vehicule.nextVertex v2 /\
  Vehicule.currVertex m = Vehicule.currVertex v2 /\
  Vehicule.goal m = Vehicule.goal v2.
Proof.
  cbv zeta. unfold Vehicule.moveAlongEdge.
  destruct (Vehicule.getPosition graph _) as [pl po].
  destruct (Vehicule.getPosition graph (Vehicule.set_positionOnEdge _ _)) as [cl co].
  destruct (Vehicule.significantMove _ _); repeat split.
Qed.

(** C4 *)
(** A vehicle just constructed at vertex 0 (position 0 on an edge of
    length 0) that reaches its goal, vertex 1, within one [update(1)] at
    14 m/s along a 10 m edge ends with [edgeLength = 0] but
    [positionOnEdge = 14]: [DestReached] resets the edge length and not
    the position, so [positionOnEdge <= edgeLength] fails. *)
Theorem destReached_stale_position :
  (0 <= Vehicule.positionOnEdge line_vehicle <= Vehicule.edgeLength line_vehicle)%R /\
  exists v', Vehicule.update line_graph zero_rand 1 1 line_vehicle = Some v' /\
   Vehicule.positionOnEdge v' = 14%R /\ Vehicule.edgeLength v' = 0%R.
Proof.
  split; [simpl; lra|].
  destruct (moveAlongEdge_fields line_graph zero_rand 1 line_vehicle) as (E1 & E2 & E3 & E4 & E5).
  cbv zeta in E1, E2, E3, E4, E5.
  destruct (Rle_dec (Vehicule.edgeLength line_vehicle) 0) as [_|Hn];
    [|exfalso; apply Hn; cbn; lra].
  cbn [Vehicule.edgeLength Vehicule.positionOnEdge Vehicule.speed Vehicule.nextVertex
       Vehicule.currVertex Vehicule.goal Vehicule.set_positionOnEdge] in E1, E2, E3, E4, E5.
  assert (P1 : Vehicule.edgeLength (Vehicule.pickNextEdge line_graph zero_rand line_vehicle) = 10%R)
    by reflexivity.
  assert (P2 : Vehicule.positionOnEdge (Vehicule.pickNextEdge line_graph zero_rand line_vehicle) = 0%R)
    by reflexivity.
  assert (P3 : Vehicule.speed (Vehicule.pickNextEdge line_graph zero_rand line_vehicle) = 14%R)
    by reflexivity.
  assert (P4 : Vehicule.nextVertex (Vehicule.pickNextEdge line_graph zero_rand line_vehicle) = 1)
    by reflexivity.
  assert (P5 : Vehicule.goal (Vehicule.pickNextEdge line_graph zero_rand line_vehicle) = 1)
    by reflexivity.
  rewrite P1 in E1. rewrite P2, P3 in E2. rewrite P4 in E3. rewrite P5 in E5.
  unfold Vehicule.update. rewrite decide_False by (cbn; lia).
  cbn [Vehicule.advance]. rewrite E1, E2.
  destruct (Rle_dec 10 (0 + 14 * 1)) as [_|Hn]; [|lra].
  cbn [Vehicule.currVertex Vehicule.goal Vehicule.set_currVertex Vehicule.set_previousVertex].
  rewrite E3, E5, decide_True by reflexivity.
  eexists. split; [reflexivity|].
  cbn. rewrite E2. split; lra.
Qed.

(** ** Tick delta *)

(** C5 *)
(** [onTick] applies [deltaTime = (ms since the last tick) / 1000 *
    speedMultiplier] to the vehicles, with no bound in terms of the tick
    interval, and restarts the elapsed timer at the tick time. *)
Theorem onTick_delta graph rand fuel nowMs sim sim' deltaTime :
  onTick graph rand fuel nowMs sim = Some (sim', deltaTime) ->
  deltaTime = (IZR (nowMs - elapsedStartMs sim) / 1000 * speedMultiplier sim)%R /\
  elapsedStartMs sim' = nowMs.
Proof.
  unfold onTick. destruct (updateAll _ _ _ _ _ _) as [[c vs']|]; [|discriminate].
  intros H. injection H as <- <-. split; reflexivity.
Qed.

Lemma onTick_delta_witness :
  onTick line_graph zero_rand 1 1000 (mkSimulator 0 50 1 [] 0)
    = Some (mkSimulator 1000 50 1 [] 0, (IZR (1000 - 0) / 1000 * 1)%R) /\
  (IZR (1000 - 0) / 1000 * 1 =
   IZR (1000 - elapsedStartMs (mkSimulator 0 50 1 [] 0)) / 1000
     * speedMultiplier (mkSimulator 0 50 1 [] 0))%R.
Proof.
  assert (H : onTick line_graph zero_rand 1 1000 (mkSimulator 0 50 1 [] 0)
    = Some (mkSimulator 1000 50 1 [] 0, (IZR (1000 - 0) / 1000 * 1)%R)) by reflexivity.
  split; [exact H|].
  exact (proj1 (onTick_delta _ _ _ _ _ _ _ H)).
Defined.

(** A tick that fires 1000 ms after the previous one, with a 50 ms tick
    interval and speed multiplier 1, advances the vehicles by 1 s, more
    than [2 * 0.05 * 1] s. *)
Lemma onTick_unclamped :
  exists sim' deltaTime,
    onTick line_graph zero_rand 1 1000 (mkSimulator 0 50 1 [] 0) = Some (sim', deltaTime) /\
    (deltaTime = 1 /\ 2 * (IZR 50 / 1000) * 1 < deltaTime)%R.
Proof.
  exists (mkSimulator 1000 50 1 [] 0), (IZR (1000 - 0) / 1000 * 1)%R.
  split; [reflexivity|]. change (1000 - 0)%Z with 1000%Z. lra.
Qed.

(** ** Reconfiguring the cells *)

(** C6 *)
(** [placeAntennas(0, 0)] (through [reinitializeSpatialGrid]) hands the
    spatial grid 0 macro and 0 micro cells for 100, 600 and 2500
    vehicles, whereas [initializeSpatialGrid] with the same zero
    arguments substitutes 10/10, 20/15 and 30/20. *)
Theorem placeAntennas_zero_passthrough :
  placeAntennas true 100 0 0 = Some (0%Z, 0%Z) /\
  placeAntennas true 600 0 0 = Some (0%Z, 0%Z) /\
  placeAntennas true 2500 0 0 = Some (0%Z, 0%Z) /\
  initializeSpatialGrid true false 100 0 0 = Some (10%Z, 10%Z) /\
  initializeSpatialGrid true false 600 0 0 = Some (20%Z, 15%Z) /\
  initializeSpatialGrid true false 2500 0 0 = Some (30%Z, 20%Z).
Proof. repeat split; vm_compute; reflexivity. Qed.

(* ================================================================== *)
(** * Further properties of the code *)

(** ** [InterferenceGraph] *)
(* ================================================================== *)
(** ** Keys of the builds *)

Lemma foldl_invariant_in {A B} (P : A -> Prop) (f : A -> B -> A) (l : list B) (a : A) :
  P a -> (forall acc x, x ∈ l -> P acc -> P (f acc x)) -> P (foldl f a l).
Proof.
  revert a. induction l as [|x l IH]; intros a Ha Hf; simpl; [done|].
  apply IH.
  - apply Hf; [apply elem_of_cons; by left|done].
  - intros acc y Hy. apply Hf. apply elem_of_cons. by right.
Qed.

Lemma linkPair_keys x y m k :
  is_Some (linkPair x y m !! k) -> is_Some (m !! k) \/ k = x \/ k = y.
Proof.
  unfold linkPair, setInsert. rewrite !lookup_insert. repeat case_decide; subst; auto.
Qed.

Lemma initAdjacency_keys snaps k :
  is_Some (initAdjacency snaps !! k) -> exists s, s ∈ snaps /\ VehicleSnapshot.id s = k.
Proof.
  unfold initAdjacency.
  apply (foldl_invariant_in (fun m : AdjMap => is_Some (m !! k) ->
           exists s, s ∈ snaps /\ VehicleSnapshot.id s = k)).
  - rewrite lookup_empty. by intros [? ?].
  - intros acc s Hs IH. rewrite lookup_insert. case_decide; eauto.
Qed.

Lemma foldl_compareIdx_keys snaps ps adj k :
  is_Some (foldl (compareIdx snaps) adj ps !! k) ->
  is_Some (adj !! k) \/ exists s, s ∈ snaps /\ VehicleSnapshot.id s = k.
Proof.
  apply (foldl_invariant (fun m : AdjMap => is_Some (m !! k) ->
           is_Some (adj !! k) \/ exists s, s ∈ snaps /\ VehicleSnapshot.id s = k)); [auto|].
  intros acc [p q] IH. unfold compareIdx; simpl.
  destruct (snaps !! p) as [v1|] eqn:E1; [|exact IH].
  destruct (snaps !! q) as [v2|] eqn:E2; [|exact IH].
  unfold compareStep. destruct (inMutualRange v1 v2); [|exact IH].
  intros Hk. apply linkPair_keys in Hk as [Hk|[->| ->]]; [auto| |]; right.
  - exists v1. split; [eapply list_elem_of_lookup_2; eauto|done].
  - exists v2. split; [eapply list_elem_of_lookup_2; eauto|done].
Qed.

Lemma computeTransitiveClosure_keys adj k :
  is_Some (computeTransitiveClosure adj !! k) <-> is_Some (adj !! k).
Proof.
  unfold computeTransitiveClosure. rewrite map_lookup_imap.
  destruct (adj !! k); simpl; split; intros [? ?]; eauto; discriminate.
Qed.

Lemma snapshot_adjacency_keys ig snaps antennaInfo k :
  is_Some (adjacencyList (buildGraphFromSnapshots ig snaps antennaInfo) !! k) <->
  exists s, s ∈ snaps /\ VehicleSnapshot.id s = k.
Proof.
  destruct snaps as [|s0 rest].
  - simpl. rewrite lookup_empty. split; [by intros [? ?]|].
    intros (s & Hs & _). by apply not_elem_of_nil in Hs.
  - rewrite build_adjacency_nonempty by discriminate. split.
    + rewrite directLinks_eq. intros Hk.
      apply foldl_compareIdx_keys in Hk as [Hk|Hk]; [|done]. by apply initAdjacency_keys.
    + intros (s & Hs & <-). by apply directLinks_key.
Qed.

Lemma live_adj0_keys (L : list (option Vehicule.t)) (m : AdjMap) k :
  is_Some (foldl (fun m ov => match ov with
                              | Some v => <[Vehicule.id v := ∅]> m
                              | None => m
                              end) m L !! k) <->
  is_Some (m !! k) \/ exists v, Some v ∈ L /\ Vehicule.id v = k.
Proof.
  revert m. induction L as [|ov L IH]; intros m; simpl.
  - split; [auto|]. intros [H|(v & Hv & _)]; [done|by apply not_elem_of_nil in Hv].
  - rewrite IH. destruct ov as [v|].
    + rewrite lookup_insert. case_decide as Hid.
      * split; [|intros _; left; eauto].
        intros _. right. exists v. split; [apply elem_of_cons; by left|done].
      * split.
        -- intros [H|(w & Hw & Hwk)]; [auto|].
           right. exists w. split; [apply elem_of_cons; by right|done].
        -- intros [H|(w & Hw & Hwk)]; [auto|].
           apply elem_of_cons in Hw as [Hw|Hw]; [|eauto].
           injection Hw as ->. congruence.
    + split.
      * intros [H|(w & Hw & Hwk)]; [auto|].
        right. exists w. split; [apply elem_of_cons; by right|done].
      * intros [H|(w & Hw & Hwk)]; [auto|].
        apply elem_of_cons in Hw as [Hw|Hw]; [discriminate|eauto].
Qed.

Lemma live_vehicleMap_spec (L : list (option Vehicule.t)) k v :
  foldl (fun m ov => match ov with
                     | Some v => <[Vehicule.id v := v]> m
                     | None => m
                     end) (∅ : gmap Z Vehicule.t) L !! k = Some v ->
  Some v ∈ L /\ Vehicule.id v = k.
Proof.
  revert k v.
  apply (foldl_invariant_in (fun m : gmap Z Vehicule.t =>
           forall k v, m !! k = Some v -> Some v ∈ L /\ Vehicule.id v = k)).
  - intros k v. by rewrite lookup_empty.
  - intros acc [w|] Hw IH k v; [|apply IH].
    rewrite lookup_insert. case_decide as Hk; [intros [= <-]; auto|apply IH].
Qed.

Lemma compareVehicles_keys graph v1 v2 m k :
  is_Some (compareVehicles graph v1 v2 m !! k) ->
  is_Some (m !! k) \/ k = Vehicule.id v1 \/ k = Vehicule.id v2.
Proof. unfold compareVehicles. destruct (_ && _); [apply linkPair_keys|auto]. Qed.

Lemma compareVehicles_key graph v1 v2 m k :
  is_Some (m !! k) -> is_Some (compareVehicles graph v1 v2 m !! k).
Proof. unfold compareVehicles. destruct (_ && _); [apply is_Some_linkPair|auto]. Qed.

Lemma buildGraphClassic_keys graph vehicles adj k :
  is_Some (buildGraphClassic graph vehicles adj !! k) ->
  is_Some (adj !! k) \/ exists v, Some v ∈ vehicles /\ Vehicule.id v = k.
Proof.
  unfold buildGraphClassic.
  apply (foldl_invariant (fun m : AdjMap => is_Some (m !! k) ->
           is_Some (adj !! k) \/ exists v, Some v ∈ vehicles /\ Vehicule.id v = k)); [auto|].
  intros acc i Hacc. destruct (vehicles !! i) as [[v1|]|] eqn:E1; [|done|done].
  apply (foldl_invariant (fun m : AdjMap => is_Some (m !! k) ->
           is_Some (adj !! k) \/ exists v, Some v ∈ vehicles /\ Vehicule.id v = k)); [done|].
  intros acc2 j Hacc2. destruct (vehicles !! j) as [[v2|]|] eqn:E2; [|done|done].
  intros Hk. apply compareVehicles_keys in Hk as [Hk|[->| ->]]; [auto| |]; right.
  - exists v1. split; [eapply list_elem_of_lookup_2; eauto|done].
  - exists v2. split; [eapply list_elem_of_lookup_2; eauto|done].
Qed.

Lemma buildGraphClassic_key graph vehicles adj k :
  is_Some (adj !! k) -> is_Some (buildGraphClassic graph vehicles adj !! k).
Proof.
  intros H. unfold buildGraphClassic.
  apply (foldl_invariant (fun m : AdjMap => is_Some (m !! k))); [done|].
  intros acc i Hacc. destruct (vehicles !! i) as [[v1|]|]; [|done|done].
  apply (foldl_invariant (fun m : AdjMap => is_Some (m !! k))); [done|].
  intros acc2 j Hacc2. destruct (vehicles !! j) as [[v2|]|]; [|done|done].
  by apply compareVehicles_key.
Qed.

Lemma buildGraphWithSpatialGrid_keys graph nearby vehicleMap vehicles adj k :
  (forall k v, vehicleMap !! k = Some v -> Some v ∈ vehicles /\ Vehicule.id v = k) ->
  is_Some (buildGraphWithSpatialGrid graph nearby vehicleMap vehicles adj !! k) ->
  is_Some (adj !! k) \/ exists v, Some v ∈ vehicles /\ Vehicule.id v = k.
Proof.
  intros HM. unfold buildGraphWithSpatialGrid.
  apply (foldl_invariant_in (fun m : AdjMap => is_Some (m !! k) ->
           is_Some (adj !! k) \/ exists v, Some v ∈ vehicles /\ Vehicule.id v = k)); [auto|].
  intros acc [v1|] Hv1 Hacc; [|done].
  apply (foldl_invariant (fun m : AdjMap => is_Some (m !! k) ->
           is_Some (adj !! k) \/ exists v, Some v ∈ vehicles /\ Vehicule.id v = k)); [done|].
  intros acc2 nid Hacc2. case_decide; [done|].
  destruct (vehicleMap !! nid) as [v2|] eqn:E2; [|done].
  apply HM in E2 as [Hv2 Hid2].
  intros Hk. apply compareVehicles_keys in Hk as [Hk|[->| ->]]; [auto| |]; right; eauto.
Qed.

Lemma buildGraphWithSpatialGrid_key graph nearby vehicleMap vehicles adj k :
  is_Some (adj !! k) -> is_Some (buildGraphWithSpatialGrid graph nearby vehicleMap vehicles adj !! k).
Proof.
  intros H. unfold buildGraphWithSpatialGrid.
  apply (foldl_invariant (fun m : AdjMap => is_Some (m !! k))); [done|].
  intros acc [v1|] Hacc; [|done].
  apply (foldl_invariant (fun m : AdjMap => is_Some (m !! k))); [done|].
  intros acc2 nid Hacc2. case_decide; [done|].
  destruct (vehicleMap !! nid); [|done]. by apply compareVehicles_key.
Qed.

Lemma live_adjacency_keys graph useSpatialGrid getNearbyVehicles ig vehicles k :
  is_Some (adjacencyList (buildGraph graph useSpatialGrid getNearbyVehicles ig vehicles) !! k) <->
  exists v, Some v ∈ vehicles /\ Vehicule.id v = k.
Proof.
  unfold buildGraph. destruct vehicles as [|ov rest].
  - simpl. rewrite lookup_empty. split; [by intros [? ?]|].
    intros (s & Hs & _). by apply not_elem_of_nil in Hs.
  - cbv beta iota zeta. cbn [adjacencyList].
    pose proof (live_vehicleMap_spec (ov :: rest)) as HM.
    pose proof (live_adj0_keys (ov :: rest) ∅ k) as H0.
    rewrite lookup_empty in H0.
    assert (H0' : forall P : Prop, (is_Some (@None (gset Z)) \/ P) <-> P)
      by (intros P; split; [intros [[? ?]|?]; [discriminate|done]|auto]).
    rewrite H0' in H0.
    destruct (_ && _); split.
    + intros Hk. apply buildGraphWithSpatialGrid_keys in Hk; [|exact HM].
      destruct Hk as [Hk|Hk]; [by apply H0|done].
    + intros Hk. apply buildGraphWithSpatialGrid_key. by apply H0.
    + intros Hk. apply buildGraphClassic_keys in Hk as [Hk|Hk]; [|done]. by apply H0.
    + intros Hk. apply buildGraphClassic_key. by apply H0.
Qed.

Lemma live_closure graph useSpatialGrid getNearbyVehicles ig vehicles :
  transitiveClosure (buildGraph graph useSpatialGrid getNearbyVehicles ig vehicles) =
  if computeTransitive ig
  then computeTransitiveClosure
         (adjacencyList (buildGraph graph useSpatialGrid getNearbyVehicles ig vehicles))
  else ∅.
Proof.
  destruct vehicles; simpl; [|done].
  destruct (computeTransitive ig); [|done].
  unfold computeTransitiveClosure. by rewrite map_imap_empty.
Qed.

(** A snapshot build has an adjacency entry exactly for the ids of the
    snapshots, and a closure entry for the same ids when the closure is on
    and none otherwise. *)
Theorem buildGraphFromSnapshots_keys ig snaps antennaInfo k :
  (is_Some (adjacencyList (buildGraphFromSnapshots ig snaps antennaInfo) !! k) <->
   exists s, s ∈ snaps /\ VehicleSnapshot.id s = k) /\
  (is_Some (transitiveClosure (buildGraphFromSnapshots ig snaps antennaInfo) !! k) <->
   computeTransitive ig = true /\ exists s, s ∈ snaps /\ VehicleSnapshot.id s = k).
Proof.
  split; [apply snapshot_adjacency_keys|].
  rewrite build_closure. destruct (computeTransitive ig).
  - rewrite computeTransitiveClosure_keys, snapshot_adjacency_keys. tauto.
  - rewrite lookup_empty. split; [by intros [? ?]|]. intros [? _]; discriminate.
Qed.

Lemma live_build_keys graph useSpatialGrid getNearbyVehicles ig vehicles k :
  (is_Some (adjacencyList (buildGraph graph useSpatialGrid getNearbyVehicles ig vehicles) !! k) <->
   exists v, Some v ∈ vehicles /\ Vehicule.id v = k) /\
  (is_Some (transitiveClosure (buildGraph graph useSpatialGrid getNearbyVehicles ig vehicles) !! k) <->
   computeTransitive ig = true /\ exists v, Some v ∈ vehicles /\ Vehicule.id v = k).
Proof.
  split; [apply live_adjacency_keys|].
  rewrite live_closure. destruct (computeTransitive ig).
  - rewrite computeTransitiveClosure_keys, live_adjacency_keys. tauto.
  - rewrite lookup_empty. split; [by intros [? ?]|]. intros [? _]; discriminate.
Qed.

(** A live build has an adjacency entry exactly for the ids of the non-null
    vehicles, and a closure entry for the same ids when the closure is on
    and none otherwise. *)
Theorem buildGraph_keys graph useSpatialGrid getNearbyVehicles ig vehicles k :
  (is_Some (adjacencyList (buildGraph graph useSpatialGrid getNearbyVehicles ig vehicles) !! k) <->
   exists v, Some v ∈ vehicles /\ Vehicule.id v = k) /\
  (is_Some (transitiveClosure (buildGraph graph useSpatialGrid getNearbyVehicles ig vehicles) !! k) <->
   computeTransitive ig = true /\ exists v, Some v ∈ vehicles /\ Vehicule.id v = k).
Proof. exact (live_build_keys graph useSpatialGrid getNearbyVehicles ig vehicles k). Qed.

(* ================================================================== *)
(** ** No self-loops *)

Lemma linkPair_irrefl x y m :
  x <> y -> (forall k, k ∉ adjOf m k) -> forall k, k ∉ adjOf (linkPair x y m) k.
Proof.
  intros Hxy Hm k Hk. apply adjOf_linkPair in Hk as [Hk|[[-> ->]|[-> ->]]];
    [by apply (Hm k)|done|done].
Qed.

Lemma compareVehicles_irrefl graph v1 v2 m :
  Vehicule.id v1 <> Vehicule.id v2 ->
  (forall k, k ∉ adjOf m k) -> forall k, k ∉ adjOf (compareVehicles graph v1 v2 m) k.
Proof.
  intros Hne Hm. unfold compareVehicles.
  destruct (_ && _); [by apply linkPair_irrefl|done].
Qed.

(** With distinct snapshot ids and no vehicle index listed twice in the
    antenna cells, no vehicle is its own direct neighbour in a snapshot
    build. *)
Theorem buildGraphFromSnapshots_irreflexive ig snaps antennaInfo :
  NoDup (map VehicleSnapshot.id snaps) ->
  (forall ai, antennaInfo = Some ai ->
     NoDup (concat (map snd (map_to_list (vehiclesPerAntenna ai))))) ->
  forall i, i ∉ getDirectNeighbors (buildGraphFromSnapshots ig snaps antennaInfo) i.
Proof.
  intros Hnd Hcells i Hi. unfold getDirectNeighbors in Hi.
  destruct snaps as [|s0 rest].
  { simpl in Hi. unfold adjOf in Hi. rewrite lookup_empty in Hi. set_solver. }
  rewrite build_adjacency_nonempty, adjOf_directLinks in Hi by discriminate.
  destruct Hi as (p & q & v1 & v2 & Hin & E1 & E2 & _ & Hab).
  assert (p = q) as <-.
  { eapply ids_inj; [exact Hnd|exact E1|exact E2|].
    destruct Hab as [[? ?]|[? ?]]; congruence. }
  unfold buildPairs in Hin. destruct antennaInfo as [ai|].
  - case_decide.
    + apply fallbackPairs_elem in Hin. lia.
    + destruct (antennaPairs_cells ai p p Hin)
        as (a & b & l & l' & Ha & Hb & Hp & Hq & C).
      pose proof (Hcells ai eq_refl) as Hc.
      assert (a = b) as <- by (eapply cells_unique; eauto).
      destruct C as [C|(_ & i0 & j0 & Hij & Hi0 & Hj0)]; [lia|].
      pose proof (cell_NoDup _ a l Hc Ha) as Hndl.
      assert (i0 = j0) by (eapply NoDup_lookup; eauto). lia.
  - apply fallbackPairs_elem in Hin. lia.
Qed.

(** When no two non-null vehicles share an id, no vehicle is its own direct
    neighbour in a live build. *)
Theorem buildGraph_irreflexive graph useSpatialGrid getNearbyVehicles ig vehicles :
  (forall i j v w, vehicles !! i = Some (Some v) -> vehicles !! j = Some (Some w) ->
     Vehicule.id v = Vehicule.id w -> i = j) ->
  forall k, k ∉ getDirectNeighbors (buildGraph graph useSpatialGrid getNearbyVehicles ig vehicles) k.
Proof.
  intros Hd. unfold getDirectNeighbors, buildGraph.
  destruct vehicles as [|ov rest].
  { intros k. simpl. unfold adjOf. rewrite lookup_empty. set_solver. }
  cbv beta iota zeta. cbn [adjacencyList].
  pose proof (live_vehicleMap_spec (ov :: rest)) as HM.
  pose proof (live_initial_empty (ov :: rest)) as H0.
  destruct (_ && _).
  - unfold buildGraphWithSpatialGrid.
    apply (foldl_invariant (fun m : AdjMap => forall k, k ∉ adjOf m k)).
    + intros k. rewrite H0. set_solver.
    + intros acc [v1|] Hacc; [|done].
      apply (foldl_invariant (fun m : AdjMap => forall k, k ∉ adjOf m k)); [done|].
      intros acc2 nid Hacc2. case_decide as Hle; [done|].
      destruct (foldl _ ∅ (ov :: rest) !! nid) as [v2|] eqn:E2; [|done].
      apply HM in E2 as [_ Hid2].
      apply compareVehicles_irrefl; [lia|done].
  - unfold buildGraphClassic.
    apply (foldl_invariant (fun m : AdjMap => forall k, k ∉ adjOf m k)).
    + intros k. rewrite H0. set_solver.
    + intros acc i Hacc. destruct ((ov :: rest) !! i) as [[v1|]|] eqn:E1; [|done|done].
      apply (foldl_invariant_in (fun m : AdjMap => forall k, k ∉ adjOf m k)); [done|].
      intros acc2 j Hj Hacc2. destruct ((ov :: rest) !! j) as [[v2|]|] eqn:E2; [|done|done].
      apply elem_of_seq in Hj.
      apply compareVehicles_irrefl; [|done].
      intros Hid. pose proof (Hd i j v1 v2 E1 E2 Hid). lia.
Qed.

(* ================================================================== *)
(** ** [canCommunicate] on a build *)

Lemma adjEdge_adjOf adj x y : adjEdge adj x y <-> y ∈ adjOf adj x.
Proof.
  unfold adjEdge, adjOf. destruct (adj !! x) as [ns|]; simpl; split.
  - by intros (ns' & [= <-] & H).
  - eauto.
  - by intros (ns' & ? & _).
  - set_solver.
Qed.

Lemma tc_adjEdge_sym adj x y :
  symmetricAdj adj -> tc (adjEdge adj) x y -> tc (adjEdge adj) y x.
Proof.
  intros Hs H. induction H as [x y Hxy|x y z Hxy _ IH].
  - apply tc_once. apply adjEdge_adjOf, Hs, adjEdge_adjOf, Hxy.
  - eapply tc_r; [exact IH|]. apply adjEdge_adjOf, Hs, adjEdge_adjOf, Hxy.
Qed.

Lemma canCommunicate_closure g i j :
  transitiveClosure g = computeTransitiveClosure (adjacencyList g) ->
  canCommunicate g i j = true <-> j <> i /\ tc (adjEdge (adjacencyList g)) i j.
Proof.
  intros Hc. unfold canCommunicate. rewrite Hc. unfold computeTransitiveClosure.
  rewrite map_lookup_imap. destruct (adjacencyList g !! i) as [ns|] eqn:E; simpl.
  - rewrite bool_decide_eq_true. apply bfsReachable_spec.
  - split; [discriminate|]. intros [_ H].
    inversion H as [? ? (ns & Hns & _)|? ? ? (ns & Hns & _) _]; congruence.
Qed.

Lemma canCommunicate_adjOf g i j :
  canCommunicate g i j = true <-> j ∈ adjOf (transitiveClosure g) i.
Proof.
  unfold canCommunicate, adjOf. destruct (transitiveClosure g !! i); simpl.
  - apply bool_decide_eq_true.
  - split; [discriminate|set_solver].
Qed.

Lemma commProps_of g :
  transitiveClosure g = computeTransitiveClosure (adjacencyList g) ->
  symmetricAdj (adjacencyList g) -> commProps g.
Proof.
  intros Hc Hs. split; [|split].
  - intros i j. rewrite !canCommunicate_closure by done.
    intros [Hne H]. split; [auto|]. by apply tc_adjEdge_sym.
  - intros i j k. rewrite !canCommunicate_closure by done.
    intros [_ H1] [_ H2] Hik. split; [auto|]. by transitivity j.
  - intros i j Hj Hne. apply canCommunicate_closure; [done|].
    split; [done|]. apply tc_once, adjEdge_adjOf, Hj.
Qed.

Lemma snapshot_symmetric ig snaps antennaInfo :
  symmetricAdj (adjacencyList (buildGraphFromSnapshots ig snaps antennaInfo)).
Proof.
  destruct snaps as [|s snaps]; simpl.
  - apply symmetricAdj_allEmpty. intros k. unfold adjOf. by rewrite lookup_empty.
  - apply symmetricAdj_directLinks.
Qed.

Lemma live_symmetric graph useSpatialGrid getNearbyVehicles ig vehicles :
  symmetricAdj (adjacencyList (buildGraph graph useSpatialGrid getNearbyVehicles ig vehicles)).
Proof.
  unfold buildGraph. destruct vehicles as [|ov vehicles].
  - simpl. apply symmetricAdj_allEmpty. intros k. unfold adjOf. by rewrite lookup_empty.
  - cbv beta iota zeta. destruct (_ && _).
    + apply symmetricAdj_buildGraphWithSpatialGrid, symmetricAdj_allEmpty.
      apply (live_initial_empty (ov :: vehicles)).
    + apply symmetricAdj_buildGraphClassic, symmetricAdj_allEmpty.
      apply (live_initial_empty (ov :: vehicles)).
Qed.

Lemma snapshot_commProps ig snaps antennaInfo :
  computeTransitive ig = true -> commProps (buildGraphFromSnapshots ig snaps antennaInfo).
Proof.
  intros Hon. apply commProps_of; [|apply snapshot_symmetric].
  by rewrite build_closure, Hon.
Qed.

Lemma live_commProps graph useSpatialGrid getNearbyVehicles ig vehicles :
  computeTransitive ig = true ->
  commProps (buildGraph graph useSpatialGrid getNearbyVehicles ig vehicles).
Proof.
  intros Hon. apply commProps_of; [|apply live_symmetric].
  by rewrite live_closure, Hon.
Qed.

(** With the closure on, [canCommunicate] on either build is symmetric,
    transitive between distinct ends, and holds towards every direct
    neighbour other than the vehicle itself. *)
Theorem canCommunicate_builds ig :
  computeTransitive ig = true ->
  (forall snaps antennaInfo, commProps (buildGraphFromSnapshots ig snaps antennaInfo)) /\
  (forall graph useSpatialGrid getNearbyVehicles vehicles,
     commProps (buildGraph graph useSpatialGrid getNearbyVehicles ig vehicles)).
Proof.
  intros Hon. split; intros; [by apply snapshot_commProps|by apply live_commProps].
Qed.

(* ================================================================== *)
(** ** The neighbour refresh *)

Lemma collectNeighbors_other heap L v reachable nbrs k :
  k <> v -> collectNeighbors heap L v reachable nbrs !! k = nbrs !! k.
Proof.
  intros Hk. unfold collectNeighbors. revert nbrs.
  induction L as [|oo L IH]; intros nbrs; simpl; [done|].
  rewrite IH. destruct oo as [other|]; [|done].
  case_decide; [done|]. case_bool_decide; [|done].
  unfold addNeighbor. by rewrite lookup_insert_ne by congruence.
Qed.

Lemma collectNeighbors_at heap L v reachable nbrs l0 :
  nbrs !! v = Some l0 ->
  exists l, collectNeighbors heap L v reachable nbrs !! v = Some l /\
    forall q, q ∈ l <-> q ∈ l0 \/ (Some q ∈ L /\ q <> v /\ Vehicule.id (heap q) ∈ reachable).
Proof.
  unfold collectNeighbors. revert nbrs l0.
  induction L as [|oo L IH]; intros nbrs l0 Hv; simpl.
  - exists l0. split; [done|]. intros q. split; [auto|].
    intros [H|(H & _)]; [done|by apply not_elem_of_nil in H].
  - destruct oo as [other|].
    + case_decide as Hov.
      * destruct (IH nbrs l0 Hv) as (l & Hl & Hq). exists l. split; [done|].
        intros q. rewrite Hq, elem_of_cons. split; [intros [H|(H & ? & ?)]; auto|].
        intros [H|([H|H] & Hne & Hr)]; [auto| |auto]. injection H as ->. congruence.
      * case_bool_decide as Hr.
        -- destruct (IH (addNeighbor v other nbrs) (l0 ++ [other])) as (l & Hl & Hq).
           { unfold addNeighbor. by rewrite lookup_insert_eq, Hv. }
           exists l. split; [done|]. intros q. rewrite Hq, elem_of_app, list_elem_of_singleton,
             elem_of_cons. split.
           ++ intros [[H| ->]|(H & ? & ?)]; [auto| |auto]. right. auto.
           ++ intros [H|([H|H] & Hne & Hr')]; [auto| |auto].
              injection H as ->. auto.
        -- destruct (IH nbrs l0 Hv) as (l & Hl & Hq). exists l. split; [done|].
           intros q. rewrite Hq, elem_of_cons. split; [intros [H|(H & ? & ?)]; auto|].
           intros [H|([H|H] & Hne & Hr')]; [auto| |auto].
           injection H as ->. contradiction.
    + destruct (IH nbrs l0 Hv) as (l & Hl & Hq). exists l. split; [done|].
      intros q. rewrite Hq, elem_of_cons. split; [intros [H|(H & ? & ?)]; auto|].
      intros [H|([H|H] & Hne & Hr')]; [auto|discriminate|auto].
Qed.

Lemma refresh_fold heap vehicles L closure nbrs :
  (forall p, Some p ∈ L -> is_Some (closure !! Vehicule.id (heap p))) ->
  (foldl (refreshStep heap vehicles) (closure, nbrs) L).1 = closure /\
  forall k,
    (Some k ∈ L -> exists l, (foldl (refreshStep heap vehicles) (closure, nbrs) L).2 !! k = Some l /\
       forall q, q ∈ l <-> Some q ∈ vehicles /\ q <> k /\
                          Vehicule.id (heap q) ∈ adjOf closure (Vehicule.id (heap k))) /\
    (Some k ∉ L -> (foldl (refreshStep heap vehicles) (closure, nbrs) L).2 !! k = nbrs !! k).
Proof.
  revert nbrs. induction L as [|ov L IH]; intros nbrs HL; simpl.
  - split; [done|]. intros k. split; [|done]. intros H. by apply not_elem_of_nil in H.
  - destruct ov as [v|].
    + assert (HLv : is_Some (closure !! Vehicule.id (heap v)))
        by (apply HL, elem_of_cons; by left).
      destruct HLv as [s Hs].
      assert (Hstep : refreshStep heap vehicles (closure, nbrs) (Some v) =
                      (closure, collectNeighbors heap vehicles v s (<[v := []]> nbrs)))
        by (unfold refreshStep, closureIndex; simpl; by rewrite Hs).
      rewrite Hstep.
      edestruct IH as [IH1 IH2]; [intros p Hp; apply HL, elem_of_cons; by right|].
      split; [exact IH1|]. intros k. destruct (IH2 k) as [IHa IHb].
      split.
      * intros Hk. destruct (decide (Some k ∈ L)) as [HkL|HkL]; [by apply IHa|].
        apply elem_of_cons in Hk as [[= ->]|Hk]; [|done].
        rewrite IHb by done.
        destruct (collectNeighbors_at heap vehicles v s (<[v := []]> nbrs) [])
          as (l & Hl & Hq); [by rewrite lookup_insert_eq|].
        exists l. split; [done|]. intros q. rewrite Hq. unfold adjOf. rewrite Hs. simpl.
        split; [intros [H|H]; [by apply not_elem_of_nil in H|done]|auto].
      * intros Hk. rewrite IHb by (intros H; apply Hk, elem_of_cons; by right).
        rewrite collectNeighbors_other by (intros ->; apply Hk, elem_of_cons; by left).
        rewrite lookup_insert_ne; [done|]. intros ->. apply Hk, elem_of_cons. by left.
    + edestruct IH as [IH1 IH2]; [intros p Hp; apply HL, elem_of_cons; by right|].
      split; [exact IH1|]. intros k. destruct (IH2 k) as [IHa IHb]. split.
      * intros Hk. apply IHa. apply elem_of_cons in Hk as [Hk|Hk]; [discriminate|done].
      * intros Hk. apply IHb. intros H. apply Hk, elem_of_cons. by right.
Qed.

Lemma ptr_in_view (heap : Ptr -> Vehicule.t) ptrs p :
  Some p ∈ ptrs -> Some (heap p) ∈ map (fmap heap) ptrs.
Proof.
  intros H. apply list_elem_of_In. apply list_elem_of_In in H.
  change (Some (heap p)) with (fmap heap (Some p)). by apply in_map.
Qed.

Lemma InterferenceGraph_eta g :
  mkInterferenceGraph (adjacencyList g) (transitiveClosure g) (computeTransitive g) = g.
Proof. by destruct g. Qed.

Lemma buildGraphNeighbors_refresh graph useSpatialGrid getNearbyVehicles ig heap ptrs nbrs :
  computeTransitive ig = true ->
  (buildGraphNeighbors graph useSpatialGrid getNearbyVehicles ig heap ptrs nbrs).1 =
    buildGraph graph useSpatialGrid getNearbyVehicles ig (map (fmap heap) ptrs) /\
  (forall p, Some p ∈ ptrs ->
     exists l, (buildGraphNeighbors graph useSpatialGrid getNearbyVehicles ig heap ptrs nbrs).2 !! p
               = Some l /\
       forall q, q ∈ l <->
         Some q ∈ ptrs /\ q <> p /\
         canCommunicate (buildGraph graph useSpatialGrid getNearbyVehicles ig (map (fmap heap) ptrs))
           (Vehicule.id (heap p)) (Vehicule.id (heap q)) = true) /\
  (forall p, Some p ∉ ptrs ->
     (buildGraphNeighbors graph useSpatialGrid getNearbyVehicles ig heap ptrs nbrs).2 !! p
     = nbrs !! p).
Proof.
  intros Hon. unfold buildGraphNeighbors.
  destruct ptrs as [|o0 rest].
  { simpl. split; [done|]. split; [|done]. intros p Hp. by apply not_elem_of_nil in Hp. }
  set (ptrs := o0 :: rest).
  set (g := buildGraph graph useSpatialGrid getNearbyVehicles ig (map (fmap heap) ptrs)).
  rewrite Hon.
  assert (Hkeys : forall p, Some p ∈ ptrs ->
            is_Some (transitiveClosure g !! Vehicule.id (heap p))).
  { intros p Hp. apply (live_build_keys graph useSpatialGrid getNearbyVehicles ig _ _).
    split; [done|]. exists (heap p). split; [by apply ptr_in_view|done]. }
  destruct (refresh_fold heap ptrs ptrs (transitiveClosure g) nbrs Hkeys) as [H1 H2].
  unfold refreshNeighbors.
  destruct (foldl (refreshStep heap ptrs) (transitiveClosure g, nbrs) ptrs)
    as [closure' nbrs'] eqn:E.
  simpl in H1. subst closure'. simpl in H2. split; [|split].
  - cbn [fst]. apply InterferenceGraph_eta.
  - intros p Hp. destruct (H2 p) as [Ha _]. destruct (Ha Hp) as (l & Hl & Hq).
    exists l. split; [done|]. intros q. rewrite Hq, canCommunicate_adjOf. done.
  - intros p Hp. by apply H2.
Qed.

(** With the closure on, [buildGraph] gives every listed vehicle the list
    of the other listed vehicles it can communicate with, and leaves the
    neighbour lists of unlisted vehicles as they were. *)
Theorem buildGraphNeighbors_spec graph useSpatialGrid getNearbyVehicles ig heap ptrs nbrs :
  computeTransitive ig = true ->
  (buildGraphNeighbors graph useSpatialGrid getNearbyVehicles ig heap ptrs nbrs).1 =
    buildGraph graph useSpatialGrid getNearbyVehicles ig (map (fmap heap) ptrs) /\
  (forall p, Some p ∈ ptrs ->
     exists l, (buildGraphNeighbors graph useSpatialGrid getNearbyVehicles ig heap ptrs nbrs).2 !! p
               = Some l /\
       forall q, q ∈ l <->
         Some q ∈ ptrs /\ q <> p /\
         canCommunicate (buildGraph graph useSpatialGrid getNearbyVehicles ig (map (fmap heap) ptrs))
           (Vehicule.id (heap p)) (Vehicule.id (heap q)) = true) /\
  (forall p, Some p ∉ ptrs ->
     (buildGraphNeighbors graph useSpatialGrid getNearbyVehicles ig heap ptrs nbrs).2 !! p
     = nbrs !! p).
Proof. exact (buildGraphNeighbors_refresh graph useSpatialGrid getNearbyVehicles ig heap ptrs nbrs). Qed.

(** With the closure on, the neighbour lists written by [buildGraph] are
    symmetric between any two listed vehicles. *)
Theorem buildGraphNeighbors_symmetric graph useSpatialGrid getNearbyVehicles ig heap ptrs nbrs :
  computeTransitive ig = true ->
  forall p q, Some p ∈ ptrs -> Some q ∈ ptrs ->
    exists lp lq,
      (buildGraphNeighbors graph useSpatialGrid getNearbyVehicles ig heap ptrs nbrs).2 !! p = Some lp /\
      (buildGraphNeighbors graph useSpatialGrid getNearbyVehicles ig heap ptrs nbrs).2 !! q = Some lq /\
      (q ∈ lp <-> p ∈ lq).
Proof.
  intros Hon p q Hp Hq.
  destruct (buildGraphNeighbors_refresh graph useSpatialGrid getNearbyVehicles ig heap ptrs nbrs Hon)
    as (_ & Hn & _).
  destruct (Hn p Hp) as (lp & Hlp & Hqp). destruct (Hn q Hq) as (lq & Hlq & Hpq).
  exists lp, lq. split; [done|]. split; [done|].
  destruct (live_commProps graph useSpatialGrid getNearbyVehicles ig (map (fmap heap) ptrs) Hon)
    as (Hsym & _ & _).
  rewrite Hqp, Hpq. split; intros (? & ? & ?); (split; [done|]); split; auto.
Qed.

(** ** [Vehicule] *)

Lemma pickRandom_spec rand (l : list Edge) v :
  l <> [] ->
  (Vehicule.pickRandom rand l v).1 ∈ l /\
  (Vehicule.pickRandom rand l v).2 = Vehicule.set_randCalls (S (Vehicule.randCalls v)) v.
Proof.
  intros Hl. unfold Vehicule.pickRandom, Vehicule.nextRand. cbn. split; [|done].
  destruct (lookup_lt_is_Some_2 l (rand (Vehicule.randCalls v) mod length l)) as [e He].
  { apply Nat.mod_upper_bound. destruct l; [done|simpl; lia]. }
  rewrite He. simpl. by eapply list_elem_of_lookup_2.
Qed.

Lemma pickNextEdge_eq graph rand v :
  Vehicule.pickNextEdge graph rand v =
  match Vehicule.chooseEdge graph rand v with
  | None => Vehicule.reroute graph rand v
  | Some (selectedEdge, v1) =>
      let hist := Vehicule.recentVertices v1 ++ [Vehicule.currVertex v1] in
      let hist' := if decide (Vehicule.MAX_HISTORY < length hist) then drop 1 hist else hist in
      Vehicule.set_positionOnEdge 0
        (Vehicule.set_edgeLength (edistance selectedEdge)
           (Vehicule.set_nextVertex (etarget selectedEdge)
              (Vehicule.set_previousVertex (Vehicule.currVertex v1)
                 (Vehicule.set_currEdge selectedEdge (Vehicule.set_recentVertices hist' v1)))))
  end.
Proof. reflexivity. Qed.

Lemma chooseEdge_spec graph rand v :
  (Vehicule.chooseEdge graph rand v = None /\ Vehicule.validOutEdges graph v = []) \/
  (exists e v1, Vehicule.chooseEdge graph rand v = Some (e, v1) /\
     e ∈ Vehicule.validOutEdges graph v /\
     Vehicule.currVertex v1 = Vehicule.currVertex v /\
     Vehicule.recentVertices v1 = Vehicule.recentVertices v /\
     Vehicule.start v1 = Vehicule.start v /\ Vehicule.goal v1 = Vehicule.goal v /\
     Vehicule.positionOnEdge v1 = Vehicule.positionOnEdge v /\
     Vehicule.speed v1 = Vehicule.speed v /\
     (Vehicule.freshEdges graph v <> [] ->
        e ∈ Vehicule.freshEdges graph v /\ Vehicule.stuckCounter v1 = 0%Z)).
Proof.
  unfold Vehicule.chooseEdge.
  destruct (Vehicule.freshEdges graph v) as [|f fs] eqn:Ef.
  - destruct (Vehicule.recentEdges graph v) as [|r rs] eqn:Er.
    + destruct (last (Vehicule.backEdgesOf graph v)) as [b|] eqn:Eb.
      * right. exists b, (Vehicule.set_stuckCounter (Vehicule.stuckCounter v + 1) v).
        split; [done|]. split.
        { apply last_Some_elem_of in Eb. unfold Vehicule.backEdgesOf in Eb.
          by apply list_elem_of_filter in Eb as [_ Eb]. }
        repeat split; done.
      * left. split; [done|]. apply last_None in Eb.
        destruct (Vehicule.validOutEdges graph v) as [|e es] eqn:Ev; [done|exfalso].
        assert (He : e ∈ Vehicule.validOutEdges graph v) by (rewrite Ev; apply elem_of_cons; by left).
        destruct (bool_decide (etarget e = Vehicule.previousVertex v)) eqn:Hb.
        -- eapply (filter_nil_not_elem_of _ _ e Eb); [exact Hb|exact He].
        -- destruct (bool_decide (etarget e ∈ Vehicule.recentVertices v)) eqn:Hr.
           ++ eapply (filter_nil_not_elem_of _ _ e Er); [split; [exact Hb|exact Hr]|exact He].
           ++ eapply (filter_nil_not_elem_of _ _ e Ef); [split; [exact Hb|exact Hr]|exact He].
    + destruct (Vehicule.pickRandom rand (r :: rs) v) as [e v0] eqn:Ep.
      destruct (pickRandom_spec rand (r :: rs) v ltac:(done)) as [He Hv0].
      rewrite Ep in He, Hv0. simpl in He, Hv0. subst v0.
      right. eexists e, _. split; [done|]. split.
      { rewrite <- Er in He. unfold Vehicule.recentEdges in He.
        by apply list_elem_of_filter in He as [_ He]. }
      repeat split; done.
  - destruct (Vehicule.pickRandom rand (f :: fs) v) as [e v0] eqn:Ep.
    destruct (pickRandom_spec rand (f :: fs) v ltac:(done)) as [He Hv0].
    rewrite Ep in He, Hv0. simpl in He, Hv0. subst v0.
    right. eexists e, _. split; [done|]. split.
    { rewrite <- Ef in He. unfold Vehicule.freshEdges in He.
      by apply list_elem_of_filter in He as [_ He]. }
    repeat split; done.
Qed.

Lemma freshEdges_elem graph v e :
  e ∈ Vehicule.freshEdges graph v <->
  e ∈ Vehicule.validOutEdges graph v /\ etarget e <> Vehicule.previousVertex v /\
  etarget e ∉ Vehicule.recentVertices v.
Proof.
  unfold Vehicule.freshEdges. rewrite list_elem_of_filter, !bool_decide_eq_false. tauto.
Qed.

Lemma history_step (l : list nat) x :
  length l <= Vehicule.MAX_HISTORY ->
  length (if decide (Vehicule.MAX_HISTORY < length (l ++ [x])) then drop 1 (l ++ [x]) else l ++ [x])
    <= Vehicule.MAX_HISTORY /\
  last (if decide (Vehicule.MAX_HISTORY < length (l ++ [x])) then drop 1 (l ++ [x]) else l ++ [x])
    = Some x.
Proof.
  intros Hl. unfold Vehicule.MAX_HISTORY in *. rewrite length_app. simpl.
  case_decide as Hd.
  - rewrite length_drop, length_app. simpl. split; [lia|].
    destruct l as [|y l]; simpl in *; [lia|]. rewrite drop_0. apply last_snoc.
  - rewrite length_app. simpl. split; [lia|]. apply last_snoc.
Qed.

(** [pickNextEdge] reroutes when the vertex has no valid outgoing road;
    otherwise it puts the vehicle at the start of a valid outgoing edge of
    its current vertex, with start and goal unchanged, and picks an edge to
    a fresh vertex with the stuck counter reset whenever one exists. *)
Theorem pickNextEdge_outcome graph rand v :
  (Vehicule.validOutEdges graph v = [] /\
   Vehicule.pickNextEdge graph rand v = Vehicule.reroute graph rand v) \/
  (exists e, e ∈ Vehicule.validOutEdges graph v /\
     Vehicule.currEdge (Vehicule.pickNextEdge graph rand v) = e /\
     Vehicule.nextVertex (Vehicule.pickNextEdge graph rand v) = etarget e /\
     Vehicule.edgeLength (Vehicule.pickNextEdge graph rand v) = edistance e /\
     Vehicule.positionOnEdge (Vehicule.pickNextEdge graph rand v) = 0%R /\
     Vehicule.previousVertex (Vehicule.pickNextEdge graph rand v) = Vehicule.currVertex v /\
     Vehicule.currVertex (Vehicule.pickNextEdge graph rand v) = Vehicule.currVertex v /\
     Vehicule.start (Vehicule.pickNextEdge graph rand v) = Vehicule.start v /\
     Vehicule.goal (Vehicule.pickNextEdge graph rand v) = Vehicule.goal v /\
     ((exists e', e' ∈ Vehicule.validOutEdges graph v /\
                  etarget e' <> Vehicule.previousVertex v /\
                  etarget e' ∉ Vehicule.recentVertices v) ->
      etarget e <> Vehicule.previousVertex v /\ (etarget e ∉ Vehicule.recentVertices v) /\
      Vehicule.stuckCounter (Vehicule.pickNextEdge graph rand v) = 0%Z)).
Proof.
  rewrite pickNextEdge_eq.
  destruct (chooseEdge_spec graph rand v)
    as [[Hc Hv]|(e & v1 & Hc & He & Hcur & Hrec & Hst & Hgo & Hpos & Hsp & Hfr)];
    rewrite Hc; [by left|right].
  exists e. cbv zeta. split; [done|]. cbn. rewrite Hcur, Hst, Hgo.
  do 8 (split; [done|]).
  intros (e' & He' & Hne & Hnr).
  destruct Hfr as [Hfe Hsc].
  { intros Hnil. apply (filter_nil_not_elem_of _ _ e' Hnil); [|exact He'].
    rewrite !bool_decide_eq_false. tauto. }
  apply freshEdges_elem in Hfe as (_ & ? & ?). auto.
Qed.

Lemma reroute_fields graph rand v :
  Vehicule.recentVertices (Vehicule.reroute graph rand v) = [] /\
  Vehicule.edgeLength (Vehicule.reroute graph rand v) = 0%R /\
  Vehicule.positionOnEdge (Vehicule.reroute graph rand v) = Vehicule.positionOnEdge v /\
  Vehicule.speed (Vehicule.reroute graph rand v) = Vehicule.speed v /\
  Vehicule.currVertex (Vehicule.reroute graph rand v) = Vehicule.currVertex v.
Proof.
  unfold Vehicule.reroute, Vehicule.nextRand. repeat case_match; simplify_eq; repeat split.
Qed.

Lemma pickNextEdge_history_bound graph rand v :
  length (Vehicule.recentVertices v) <= Vehicule.MAX_HISTORY ->
  length (Vehicule.recentVertices (Vehicule.pickNextEdge graph rand v)) <= Vehicule.MAX_HISTORY /\
  (Vehicule.validOutEdges graph v <> [] ->
   last (Vehicule.recentVertices (Vehicule.pickNextEdge graph rand v)) =
   Some (Vehicule.currVertex v)).
Proof.
  intros Hl. rewrite pickNextEdge_eq.
  destruct (chooseEdge_spec graph rand v)
    as [[Hc Hv]|(e & v1 & Hc & He & Hcur & Hrec & Hst & Hgo & Hpos & Hsp & Hfr)];
    rewrite Hc.
  - destruct (reroute_fields graph rand v) as (-> & _). simpl. split; [lia|done].
  - cbv zeta. cbn. rewrite Hrec, Hcur.
    destruct (history_step _ (Vehicule.currVertex v) Hl) as [H1 H2]. auto.
Qed.

(** [pickNextEdge] keeps the recent-vertex history within [MAX_HISTORY], and
    when it takes an edge the current vertex is the newest entry. *)
Theorem pickNextEdge_history graph rand v :
  length (Vehicule.recentVertices v) <= Vehicule.MAX_HISTORY ->
  length (Vehicule.recentVertices (Vehicule.pickNextEdge graph rand v)) <= Vehicule.MAX_HISTORY /\
  (Vehicule.validOutEdges graph v <> [] ->
   last (Vehicule.recentVertices (Vehicule.pickNextEdge graph rand v)) =
   Some (Vehicule.currVertex v)).
Proof. exact (pickNextEdge_history_bound graph rand v). Qed.

Lemma pickNextEdge_inv graph rand v :
  Vehicule.speed (Vehicule.pickNextEdge graph rand v) = Vehicule.speed v /\
  ((0 <= Vehicule.positionOnEdge v)%R ->
   (0 <= Vehicule.positionOnEdge (Vehicule.pickNextEdge graph rand v))%R).
Proof.
  rewrite pickNextEdge_eq.
  destruct (chooseEdge_spec graph rand v)
    as [[Hc Hv]|(e & v1 & Hc & He & Hcur & Hrec & Hst & Hgo & Hpos & Hsp & Hfr)];
    rewrite Hc.
  - destruct (reroute_fields graph rand v) as (_ & _ & -> & -> & _). auto.
  - cbv zeta. cbn. rewrite Hsp. split; [done|]. intros _. lra.
Qed.

Lemma moveAlongEdge_inv graph rand dt v :
  let v1 := if Rle_dec (Vehicule.edgeLength v) 0 then Vehicule.pickNextEdge graph rand v else v in
  let m := Vehicule.moveAlongEdge graph rand dt v in
  Vehicule.speed m = Vehicule.speed v1 /\
  Vehicule.positionOnEdge m = (Vehicule.positionOnEdge v1 + Vehicule.speed v1 * dt)%R /\
  Vehicule.recentVertices m = Vehicule.recentVertices v1 /\
  Vehicule.edgeLength m = Vehicule.edgeLength v1 /\
  Vehicule.currVertex m = Vehicule.currVertex v1 /\
  Vehicule.nextVertex m = Vehicule.nextVertex v1 /\
  Vehicule.start m = Vehicule.start v1 /\
  Vehicule.goal m = Vehicule.goal v1.
Proof.
  cbv zeta. unfold Vehicule.moveAlongEdge.
  destruct (Vehicule.getPosition graph _) as [pl po].
  destruct (Vehicule.getPosition graph (Vehicule.set_positionOnEdge _ _)) as [cl co].
  destruct (Vehicule.significantMove _ _); repeat split.
Qed.

Lemma advance_inv graph rand fuel v v' :
  (0 <= Vehicule.positionOnEdge v)%R ->
  length (Vehicule.recentVertices v) <= Vehicule.MAX_HISTORY ->
  Vehicule.advance graph rand fuel v = Some v' ->
  Vehicule.speed v' = Vehicule.speed v /\ (0 <= Vehicule.positionOnEdge v')%R /\
  length (Vehicule.recentVertices v') <= Vehicule.MAX_HISTORY /\
  ((Vehicule.positionOnEdge v' < Vehicule.edgeLength v')%R \/
   (Vehicule.edgeLength v' = 0%R /\ Vehicule.currVertex v' = Vehicule.start v')).
Proof.
  revert v. induction fuel as [|fuel IH]; intros v Hp Hl H; simpl in H;
    destruct (Rle_dec _ _) as [Hle|Hlt]; try discriminate.
  - injection H as <-. repeat split; auto. left. lra.
  - destruct (decide _) as [Hg|Hg].
    + injection H as <-. cbn. repeat split; auto.
    + apply IH in H as (Hs & Hp' & Hl' & Hend).
      * destruct (pickNextEdge_inv graph rand
                    (Vehicule.set_currVertex (Vehicule.nextVertex v)
                       (Vehicule.set_previousVertex (Vehicule.currVertex v) v))) as [Hsp _].
        rewrite Hs. cbn. rewrite Hsp. cbn. auto.
      * cbn. lra.
      * cbn. apply pickNextEdge_history_bound. done.
  - injection H as <-. repeat split; auto. left. lra.
Qed.

(** [update] on a vehicle with a nonnegative position and speed, a
    nonnegative time step and a bounded history keeps the speed, the
    position nonnegative and the history bounded, and leaves the vehicle
    strictly before the end of its edge, or reset at its start with a zero
    edge length. *)
Theorem update_invariants graph rand fuel dt v v' :
  (0 <= Vehicule.positionOnEdge v)%R -> (0 <= Vehicule.speed v)%R -> (0 <= dt)%R ->
  length (Vehicule.recentVertices v) <= Vehicule.MAX_HISTORY ->
  Vehicule.update graph rand fuel dt v = Some v' ->
  Vehicule.speed v' = Vehicule.speed v /\ (0 <= Vehicule.positionOnEdge v')%R /\
  length (Vehicule.recentVertices v') <= Vehicule.MAX_HISTORY /\
  ((Vehicule.positionOnEdge v' < Vehicule.edgeLength v')%R \/
   (Vehicule.edgeLength v' = 0%R /\ Vehicule.currVertex v' = Vehicule.start v')).
Proof.
  intros Hp Hs Hdt Hl H. unfold Vehicule.update in H.
  destruct (decide _) as [Hg|Hg].
  - injection H as <-. cbn. repeat split; auto.
  - destruct (moveAlongEdge_inv graph rand dt v) as (Hsm & Hpm & Hrm & _).
    set (v1 := if Rle_dec (Vehicule.edgeLength v) 0 then Vehicule.pickNextEdge graph rand v else v) in *.
    assert (Hv1 : Vehicule.speed v1 = Vehicule.speed v /\ (0 <= Vehicule.positionOnEdge v1)%R /\
                  length (Vehicule.recentVertices v1) <= Vehicule.MAX_HISTORY).
    { subst v1. destruct (Rle_dec _ _).
      - destruct (pickNextEdge_inv graph rand v) as [H1 H2].
        split; [done|]. split; [by apply H2|]. by apply pickNextEdge_history_bound.
      - auto. }
    destruct Hv1 as (Hs1 & Hp1 & Hl1).
    apply advance_inv in H as (Hs' & Hp' & Hl' & Hend).
    + rewrite Hs', Hsm, Hs1. auto.
    + rewrite Hpm, Hs1. apply Rplus_le_le_0_compat; [done|]. by apply Rmult_le_pos.
    + by rewrite Hrm.
Qed.

(** [getPosition] is the current vertex on a zero-length edge, and otherwise
    a point of the segment between the edge's ends, at the fraction
    position / length when the position lies on the edge. *)
Theorem getPosition_on_edge graph v :
  let sd := vertexData graph (esource (Vehicule.currEdge v)) in
  let td := vertexData graph (etarget (Vehicule.currEdge v)) in
  ((Vehicule.edgeLength v <= 0)%R /\
   Vehicule.getPosition graph v =
     (vlat (vertexData graph (Vehicule.currVertex v)), vlon (vertexData graph (Vehicule.currVertex v)))) \/
  ((0 < Vehicule.edgeLength v)%R /\
   exists t, (0 <= t <= 1)%R /\
     Vehicule.getPosition graph v = (vlat sd + t * (vlat td - vlat sd), vlon sd + t * (vlon td - vlon sd))%R /\
     ((0 <= Vehicule.positionOnEdge v <= Vehicule.edgeLength v)%R ->
      t = (Vehicule.positionOnEdge v / Vehicule.edgeLength v)%R)).
Proof.
  intros sd td. unfold Vehicule.getPosition.
  destruct (Rle_dec (Vehicule.edgeLength v) 0) as [Hle|Hgt]; [left; done|right].
  split; [lra|].
  set (t0 := (Vehicule.positionOnEdge v / Vehicule.edgeLength v)%R).
  assert (Ht0 : (0 <= Vehicule.positionOnEdge v <= Vehicule.edgeLength v)%R -> (0 <= t0 <= 1)%R).
  { intros [H1 H2]. subst t0. split.
    - unfold Rdiv. apply Rmult_le_pos; [lra|]. left. apply Rinv_0_lt_compat. lra.
    - apply (Rmult_le_reg_r (Vehicule.edgeLength v)); [lra|].
      unfold Rdiv. rewrite Rmult_assoc, Rinv_l by lra. lra. }
  destruct (Rlt_dec t0 0) as [Hn|Hn].
  - exists 0%R. destruct (Rlt_dec 1 0); [lra|]. split; [lra|]. split; [reflexivity|].
    intros Hr. specialize (Ht0 Hr). lra.
  - destruct (Rlt_dec 1 t0) as [Hb|Hb].
    + exists 1%R. split; [lra|]. split; [reflexivity|].
      intros Hr. specialize (Ht0 Hr). lra.
    + exists t0. split; [lra|]. split; [reflexivity|]. done.
Qed.

Lemma atan2_nonneg y x : (0 <= y)%R -> (0 <= x)%R -> (0 <= atan2 y x)%R.
Proof.
  intros Hy Hx. pose proof PI_RGT_0. unfold atan2.
  destruct (Rlt_dec 0 x) as [Hx'|Hx'].
  - destruct (Req_dec y 0) as [->|Hy0].
    + unfold Rdiv. rewrite Rmult_0_l, atan_0. lra.
    + left. rewrite <- atan_0. apply atan_increasing.
      apply Rdiv_lt_0_compat; lra.
  - destruct (Rlt_dec x 0); [lra|].
    destruct (Rlt_dec 0 y); [lra|]. destruct (Rlt_dec y 0); lra.
Qed.

Lemma graphDistance_sym lat1 lon1 lat2 lon2 :
  graphDistance lat1 lon1 lat2 lon2 = graphDistance lat2 lon2 lat1 lon1.
Proof.
  unfold graphDistance. cbv zeta.
  rewrite (Rabs_minus_sym lat1 lat2), (Rabs_minus_sym lon1 lon2).
  destruct (_ && _).
  + replace ((lat2 + lat1) / 2)%R with ((lat1 + lat2) / 2)%R by field.
    apply (f_equal (fun z => 6371000 * sqrt z)%R). field.
  + assert (Hs1 : sin ((lat1 - lat2) * (PI / 180) / 2) = (- sin ((lat2 - lat1) * (PI / 180) / 2))%R).
    { rewrite <- sin_neg. f_equal. field. }
    assert (Hs2 : sin ((lon1 - lon2) * (PI / 180) / 2) = (- sin ((lon2 - lon1) * (PI / 180) / 2))%R).
    { rewrite <- sin_neg. f_equal. field. }
    rewrite Hs1, Hs2.
    match goal with
    | |- (_ * (2 * atan2 (sqrt ?a) (sqrt (1 - ?a))))%R =
         (_ * (2 * atan2 (sqrt ?b) (sqrt (1 - ?b))))%R => replace a with b by field
    end.
    reflexivity.
Qed.

(** [GraphBuilder::distance] is nonnegative, symmetric and zero from a point
    to itself. *)
Theorem graphDistance_metric lat1 lon1 lat2 lon2 :
  (0 <= graphDistance lat1 lon1 lat2 lon2)%R /\
  graphDistance lat1 lon1 lat2 lon2 = graphDistance lat2 lon2 lat1 lon1 /\
  graphDistance lat1 lon1 lat1 lon1 = 0%R.
Proof.
  split; [|split].
  - unfold graphDistance. cbv zeta. destruct (_ && _).
    + apply Rmult_le_pos; [lra|apply sqrt_pos].
    + apply Rmult_le_pos; [lra|]. apply Rmult_le_pos; [lra|].
      apply atan2_nonneg; apply sqrt_pos.
  - apply graphDistance_sym.
  - unfold graphDistance. cbv zeta. rewrite !Rminus_diag, Rabs_R0.
    unfold Rltb. destruct (Rlt_dec 0 (2 / 100)); [|lra]. simpl.
    replace (0 * PI / 180 * cos ((lat1 + lat1) / 2 * PI / 180) *
             (0 * PI / 180 * cos ((lat1 + lat1) / 2 * PI / 180)) +
             0 * PI / 180 * (0 * PI / 180))%R with 0%R by field.
    rewrite sqrt_0. ring.
Qed.

Lemma getPosition_speed graph s v :
  Vehicule.getPosition graph (Vehicule.set_speed s v) = Vehicule.getPosition graph v.
Proof. reflexivity. Qed.

Lemma calculateDist_speed graph s v w :
  calculateDist graph (Vehicule.set_speed s v) w = calculateDist graph v w.
Proof. unfold calculateDist. by rewrite getPosition_speed. Qed.

Lemma set_speed_twice a b v :
  Vehicule.set_speed a (Vehicule.set_speed b v) = Vehicule.set_speed a v.
Proof. reflexivity. Qed.

Lemma set_speed_same v : Vehicule.set_speed (Vehicule.speed v) v = v.
Proof. by destruct v. Qed.

(** [avoidCollision] multiplies the speed by [slowFactor] once for every
    neighbour within the collision distance, and changes nothing else. *)
Theorem avoidCollision_speed graph collisionDist neighbors v :
  avoidCollision graph collisionDist neighbors v =
  Vehicule.set_speed
    (Vehicule.speed v *
     slowFactor ^ length (filter (fun o => Rleb (calculateDist graph v o) collisionDist = true)
                                 neighbors))%R v.
Proof.
  unfold avoidCollision.
  assert (H : forall s, foldl (fun me other =>
             if Rleb (calculateDist graph me other) collisionDist
             then Vehicule.set_speed (Vehicule.speed me * slowFactor)%R me
             else me) (Vehicule.set_speed s v) neighbors =
           Vehicule.set_speed
             (s * slowFactor ^ length (filter (fun o => Rleb (calculateDist graph v o) collisionDist = true)
                                          neighbors))%R v).
  { induction neighbors as [|o ns IH]; intros s; simpl.
    - by rewrite Rmult_1_r.
    - rewrite calculateDist_speed. rewrite filter_cons.
      destruct (Rleb (calculateDist graph v o) collisionDist) eqn:E; simpl.
      + rewrite set_speed_twice, IH. cbn. f_equal. ring.
      + apply IH. }
  rewrite <- (H (Vehicule.speed v)). by rewrite set_speed_same.
Qed.

Lemma linkPair_comm a b m : linkPair a b m = linkPair b a m.
Proof.
  apply map_eq. intros k. unfold linkPair, setInsert, adjOf.
  rewrite !lookup_insert. repeat case_decide; subst; try done; simpl; f_equal; set_solver.
Qed.

Lemma calculateDist_sym graph v1 v2 : calculateDist graph v1 v2 = calculateDist graph v2 v1.
Proof.
  unfold calculateDist.
  destruct (Vehicule.getPosition graph v1), (Vehicule.getPosition graph v2).
  apply graphDistance_sym.
Qed.

(** Comparing two vehicles gives the same adjacency in either order. *)
Theorem compareVehicles_comm graph v1 v2 m :
  compareVehicles graph v1 v2 m = compareVehicles graph v2 v1 m.
Proof.
  unfold compareVehicles. rewrite calculateDist_sym, andb_comm.
  destruct (_ && _); [apply linkPair_comm|done].
Qed.

(** ** [Simulator] *)

Lemma popBack_firstn n vs : popBack n vs = firstn (length vs - n) vs.
Proof.
  revert vs; induction n as [|n IH]; intros vs; simpl.
  - rewrite Nat.sub_0_r, firstn_all. done.
  - destruct vs as [|x vs']; [done|].
    rewrite IH, removelast_firstn_len, length_firstn, firstn_firstn.
    f_equal. simpl. lia.
Qed.

Ltac int_lia :=
  try unfold INT_MIN, INT_MAX in *; try change (2 ^ 31)%Z with 2147483648%Z in *;
  try change (2 ^ 32)%Z with 4294967296%Z in *; lia.

Lemma wrapInt_range z : (INT_MIN <= wrapInt z <= INT_MAX)%Z.
Proof.
  unfold wrapInt, INT_MIN, INT_MAX.
  change (2 ^ 31)%Z with 2147483648%Z. change (2 ^ 32)%Z with 4294967296%Z.
  pose proof (Z.mod_pos_bound (z + 2147483648) 4294967296 ltac:(lia)). lia.
Qed.

Lemma wrapInt_small z : (INT_MIN <= z <= INT_MAX)%Z -> wrapInt z = z.
Proof.
  unfold wrapInt, INT_MIN, INT_MAX.
  change (2 ^ 31)%Z with 2147483648%Z. change (2 ^ 32)%Z with 4294967296%Z.
  intros Hz. rewrite Z.mod_small by lia. lia.
Qed.

Lemma wrapInt_high z : (INT_MAX < z < 2 ^ 32 - INT_MIN)%Z -> wrapInt z = (z - 2 ^ 32)%Z.
Proof.
  unfold wrapInt, INT_MIN, INT_MAX.
  change (2 ^ 31)%Z with 2147483648%Z. change (2 ^ 32)%Z with 4294967296%Z.
  intros Hz. rewrite <- (Z.mod_unique (z + 2147483648) 4294967296 1 (z + 2147483648 - 4294967296)) by lia.
  lia.
Qed.

Lemma wrapInt_add a b : wrapInt (wrapInt a + b) = wrapInt (a + b).
Proof.
  unfold wrapInt. f_equal.
  replace ((a + 2 ^ 31) mod 2 ^ 32 - 2 ^ 31 + b + 2 ^ 31)%Z with ((a + 2 ^ 31) mod 2 ^ 32 + b)%Z by ring.
  rewrite Z.add_mod_idemp_l by lia. f_equal. ring.
Qed.

Lemma withVehicles_self s : withVehicles (simVehicles (core s)) (randCounter (core s)) (nextVehicleId s) s = s.
Proof. by destruct s as [[] ? ? ? ?]. Qed.

(** Lowering the vehicle count to an [int] [count] keeps the first [count]
    vehicles (none for a negative count) and touches nothing else, unless
    [currentCount - count] overflows an [int]: then [toRemove] wraps to a
    negative number and nothing is removed. *)
Theorem setVehicleCount_shrink graph rand uninitNext uninitPrev fuel count s :
  (INT_MIN <= count)%Z ->
  (Z.of_nat (length (simVehicles (core s))) <= INT_MAX)%Z ->
  (count < Z.of_nat (length (simVehicles (core s))))%Z ->
  setVehicleCount graph rand uninitNext uninitPrev fuel count s =
    Some (if decide (Z.of_nat (length (simVehicles (core s))) - count <= INT_MAX)%Z
          then withVehicles (firstn (Z.to_nat count) (simVehicles (core s)))
                 (randCounter (core s)) (nextVehicleId s) s
          else s).
Proof.
  intros Hmin Hmax Hlt. unfold setVehicleCount.
  rewrite decide_False by lia. rewrite decide_True by lia.
  case_decide as Hov.
  - rewrite wrapInt_small by int_lia.
    rewrite popBack_firstn. do 3 f_equal. lia.
  - rewrite wrapInt_high by int_lia.
    replace (Z.to_nat _) with 0 by int_lia.
    simpl. by rewrite withVehicles_self.
Qed.

Lemma isValidVertex_hasValidOutgoingEdge g v : isValidVertex g v = hasValidOutgoingEdge g v.
Proof. reflexivity. Qed.

Lemma drawVertex_elem graph rand c :
  vertices graph <> [] -> (drawVertex graph rand c).1 ∈ vertices graph /\ (drawVertex graph rand c).2 = S c.
Proof.
  intros Hne. unfold drawVertex; simpl. split; [|done].
  destruct (lookup_lt_is_Some_2 (vertices graph) (rand c mod length (vertices graph))) as [x Hx].
  { apply Nat.mod_upper_bound. destruct (vertices graph); simpl; [done|lia]. }
  rewrite Hx; simpl. by eapply list_elem_of_lookup_2.
Qed.

Lemma redrawWhileInvalid_spec graph rand fuel x c x' c' :
  vertices graph <> [] -> x ∈ vertices graph ->
  redrawWhileInvalid graph rand fuel x c = Some (x', c') ->
  x' ∈ vertices graph /\ isValidVertex graph x' = true /\ hasValidOutgoingEdge graph x' = true /\
  (c <= c')%nat.
Proof.
  intros Hne. revert x c. induction fuel as [|fuel IH]; intros x c Hx Hr; cbn [redrawWhileInvalid] in Hr;
    change (hasValidOutgoingEdge graph) with (isValidVertex graph) in *;
    destruct (isValidVertex graph x) eqn:Hv; cbn [negb andb] in Hr; try discriminate.
  - injection Hr as <- <-. auto.
  - injection Hr as <- <-. auto.
  - destruct (drawVertex_elem graph rand c Hne) as [H1 H2].
    destruct (drawVertex graph rand c) as [y c1] eqn:Hd. cbn [fst snd] in *. subst c1.
    apply IH in Hr as (? & ? & ? & ?); auto. repeat split; auto. lia.
Qed.

Lemma redrawWhileInvalid_stuck graph rand fuel x c :
  (forall v, v ∈ vertices graph -> isValidVertex graph v = false) ->
  vertices graph <> [] -> x ∈ vertices graph ->
  redrawWhileInvalid graph rand fuel x c = None.
Proof.
  intros Hall Hne. revert x c. induction fuel as [|fuel IH]; intros x c Hx; cbn [redrawWhileInvalid];
    change (hasValidOutgoingEdge graph) with (isValidVertex graph); rewrite (Hall x Hx); cbn [negb andb]; [done|].
  destruct (drawVertex_elem graph rand c Hne) as [H1 _].
  destruct (drawVertex graph rand c) as [y c1]. cbn [fst] in H1. auto.
Qed.

(** The vehicles [addRandomVehicles] appends. *)
Lemma addRandomVehicles_spec graph rand uninitNext uninitPrev fuel n s s' :
  vertices graph <> [] ->
  (INT_MIN <= nextVehicleId s <= INT_MAX)%Z ->
  addRandomVehicles graph rand uninitNext uninitPrev fuel n s = Some s' ->
  exists cars,
    simVehicles (core s') = simVehicles (core s) ++ cars /\
    length cars = n /\
    nextVehicleId s' = wrapInt (nextVehicleId s + Z.of_nat n) /\
    (forall i car, cars !! i = Some car ->
       Vehicule.id car = wrapInt (nextVehicleId s + Z.of_nat i) /\
       car = newVehicle uninitNext uninitPrev (Vehicule.id car) (Vehicule.start car) (Vehicule.goal car) /\
       Vehicule.start car ∈ vertices graph /\ Vehicule.goal car ∈ vertices graph /\
       isValidVertex graph (Vehicule.start car) = true /\
       isValidVertex graph (Vehicule.goal car) = true) /\
    running s' = running s /\ paused s' = paused s /\ timerActive s' = timerActive s /\
    elapsedStartMs (core s') = elapsedStartMs (core s) /\
    tickIntervalMs (core s') = tickIntervalMs (core s) /\
    speedMultiplier (core s') = speedMultiplier (core s).
Proof.
  intros Hne. revert s. induction n as [|n IH]; intros s Hr0 Hs; cbn [addRandomVehicles] in Hs.
  - injection Hs as <-. exists []. rewrite app_nil_r.
    split; [done|]. split; [done|]. split; [rewrite Z.add_0_r, wrapInt_small; done|].
    split; [intros i car Hi; rewrite lookup_nil in Hi; discriminate|]. repeat split.
  - destruct (vertices graph) as [|w ws] eqn:Hvs; [done|]. rewrite <- Hvs in *.
    destruct (drawVertex_elem graph rand (randCounter (core s)) Hne) as [Hs0 _].
    destruct (drawVertex graph rand (randCounter (core s))) as [start0 c1] eqn:Hd1.
    destruct (drawVertex_elem graph rand c1 Hne) as [Hg0 _].
    destruct (drawVertex graph rand c1) as [goal0 c2] eqn:Hd2. simpl in Hs0, Hg0.
    destruct (redrawWhileInvalid graph rand fuel start0 c2) as [[start1 c3]|] eqn:Hr1; [|done].
    destruct (redrawWhileInvalid graph rand fuel goal0 c3) as [[goal1 c4]|] eqn:Hr2; [|done].
    apply redrawWhileInvalid_spec in Hr1 as (Hs1 & Hv1 & _ & _); [|done|done].
    apply redrawWhileInvalid_spec in Hr2 as (Hg1 & Hv2 & _ & _); [|done|done].
    apply IH in Hs as (cars & Hc & Hl & Hn & Hcars & Hr & Hp & Ht & He & Hti & Hm);
      [|apply wrapInt_range].
    exists (newVehicle uninitNext uninitPrev (nextVehicleId s) start1 goal1 :: cars).
    cbn [withVehicles core simVehicles nextVehicleId running paused timerActive
         elapsedStartMs tickIntervalMs speedMultiplier] in *.
    rewrite Hc, <- app_assoc. split; [done|]. split; [simpl; lia|].
    split; [rewrite Hn, wrapInt_add; f_equal; lia|].
    split; [|repeat split; auto].
    intros [|i] cr Hi.
    + injection Hi as <-. cbn. rewrite Z.add_0_r, wrapInt_small by done.
      repeat split; try reflexivity; auto.
    + apply Hcars in Hi as (Hid & ? & ? & ? & ? & ?). repeat split; auto.
      rewrite Hid, wrapInt_add. f_equal. lia.
Qed.

(** Raising the vehicle count does nothing without vertices; otherwise it
    appends new vehicles until there are [count], numbered from
    [m_nextVehicleId] on with [int] wrap-around, each starting and heading
    for a valid vertex. *)
Theorem setVehicleCount_grow graph rand uninitNext uninitPrev fuel count s s' :
  (INT_MIN <= nextVehicleId s <= INT_MAX)%Z ->
  (Z.of_nat (length (simVehicles (core s))) < count)%Z ->
  setVehicleCount graph rand uninitNext uninitPrev fuel count s = Some s' ->
  (vertices graph = [] -> s' = s) /\
  (vertices graph <> [] ->
   exists cars,
    simVehicles (core s') = simVehicles (core s) ++ cars /\
    Z.of_nat (length (simVehicles (core s'))) = count /\
    nextVehicleId s' = wrapInt (nextVehicleId s + Z.of_nat (length cars)) /\
    (forall i car, cars !! i = Some car ->
       Vehicule.id car = wrapInt (nextVehicleId s + Z.of_nat i) /\
       car = newVehicle uninitNext uninitPrev (Vehicule.id car) (Vehicule.start car) (Vehicule.goal car) /\
       Vehicule.start car ∈ vertices graph /\ Vehicule.goal car ∈ vertices graph /\
       isValidVertex graph (Vehicule.start car) = true /\
       isValidVertex graph (Vehicule.goal car) = true)).
Proof.
  intros Hr Hlt Hs. unfold setVehicleCount in Hs.
  rewrite decide_False in Hs by lia. rewrite decide_False in Hs by lia.
  split.
  - intros He. destruct (Z.to_nat _) eqn:Hn; [lia|]. simpl in Hs. rewrite He in Hs. congruence.
  - intros Hne. apply addRandomVehicles_spec in Hs as (cars & Hc & Hl & Hn & Hcars & _); [|done|done].
    exists cars. rewrite Hc, length_app, Hl. split; [done|]. split; [lia|].
    split; [rewrite Hn; do 2 f_equal; lia|]. exact Hcars.
Qed.

(** Raising the vehicle count on a graph whose vertices are all invalid
    never finishes: the redraw loop runs out of any fuel. *)
Theorem setVehicleCount_diverges graph rand uninitNext uninitPrev fuel count s :
  (Z.of_nat (length (simVehicles (core s))) < count)%Z ->
  vertices graph <> [] ->
  (forall v, v ∈ vertices graph -> isValidVertex graph v = false) ->
  setVehicleCount graph rand uninitNext uninitPrev fuel count s = None.
Proof.
  intros Hlt Hne Hall. unfold setVehicleCount.
  rewrite decide_False by lia. rewrite decide_False by lia.
  destruct (Z.to_nat _) eqn:Hn; [lia|]. cbn [addRandomVehicles].
  destruct (vertices graph) as [|w ws] eqn:Hvs; [done|]. rewrite <- Hvs in *.
  destruct (drawVertex_elem graph rand (randCounter (core s)) Hne) as [Hs0 _].
  destruct (drawVertex graph rand (randCounter (core s))) as [start0 c1].
  destruct (drawVertex graph rand c1) as [goal0 c2]. simpl in Hs0.
  by rewrite redrawWhileInvalid_stuck.
Qed.

Lemma retryGoal_spec graph rand b g c :
  vertices graph <> [] -> g ∈ vertices graph ->
  (retryGoal graph rand b g c).1 ∈ vertices graph /\
  (isValidVertex graph (retryGoal graph rand b g c).1 = true \/
   (retryGoal graph rand b g c).2 = (c + b)%nat).
Proof.
  intros Hne. revert g c. induction b as [|b IH]; intros g c Hg; cbn [retryGoal].
  - cbn [fst snd]. split; [done|]. right. lia.
  - change (hasValidOutgoingEdge graph) with (isValidVertex graph).
    destruct (isValidVertex graph g) eqn:Hv; cbn [negb orb].
    + cbn [fst snd]. auto.
    + destruct (drawVertex_elem graph rand c Hne) as [H1 H2].
      destruct (drawVertex graph rand c) as [g' c'] eqn:Hd. cbn [fst snd] in H1, H2. subst c'.
      destruct (IH g' (S c) H1) as [? [?|?]]; split; auto. right. lia.
Qed.

Lemma nearest_fold graph lon lat v0 l processed acc :
  (forall v, v ∈ l -> isValidVertex graph v = true -> (sqDist graph lon lat v < dblMax)%R) ->
  nearestInv graph lon lat v0 processed acc ->
  nearestInv graph lon lat v0 (processed ++ l) (foldl (nearestStep graph lon lat) acc l).
Proof.
  revert processed acc. induction l as [|v l IH]; intros processed acc Hd Hi; simpl.
  - by rewrite app_nil_r.
  - rewrite cons_middle, app_assoc. apply IH.
    { intros w Hw. apply Hd. by right. }
    destruct acc as [n m]. unfold nearestStep, Rltb.
    change (hasValidOutgoingEdge graph) with (isValidVertex graph).
    destruct (Rlt_dec (sqDist graph lon lat v) m) as [Hlt|Hge];
      destruct (isValidVertex graph v) eqn:Hv; cbn [andb].
    + right. cbn [fst snd]. split; [done|]. split; [set_solver|]. split; [done|].
      intros w Hw Hvw; cbn [fst snd]. apply elem_of_app in Hw as [Hw|Hw].
      * destruct Hi as [(_ & _ & Hall)|(_ & _ & _ & Hall)]; cbn [fst snd] in *.
        -- rewrite Hall in Hvw; done.
        -- specialize (Hall w Hw Hvw). lra.
      * apply list_elem_of_singleton in Hw as ->. lra.
    + destruct Hi as [(H1 & H2 & Hall)|(H1 & H2 & H3 & Hall)]; cbn [fst snd] in *.
      * left. repeat split; auto. intros w Hw. apply elem_of_app in Hw as [Hw|Hw]; auto.
        apply list_elem_of_singleton in Hw as ->. done.
      * right. split; [done|]. split; [set_solver|]. split; [done|].
        intros w Hw Hvw; cbn [fst snd]. apply elem_of_app in Hw as [Hw|Hw]; auto.
        apply list_elem_of_singleton in Hw as ->. congruence.
    + destruct Hi as [(H1 & H2 & Hall)|(H1 & H2 & H3 & Hall)]; cbn [fst snd] in *.
      * exfalso. subst m. apply Hge, Hd; [by left|done].
      * right. split; [done|]. split; [set_solver|]. split; [done|].
        intros w Hw Hvw; cbn [fst snd]. apply elem_of_app in Hw as [Hw|Hw]; auto.
        apply list_elem_of_singleton in Hw as ->. apply Rnot_lt_le in Hge. lra.
    + destruct Hi as [(H1 & H2 & Hall)|(H1 & H2 & H3 & Hall)]; cbn [fst snd] in *.
      * left. repeat split; auto. intros w Hw. apply elem_of_app in Hw as [Hw|Hw]; auto.
        apply list_elem_of_singleton in Hw as ->. done.
      * right. split; [done|]. split; [set_solver|]. split; [done|].
        intros w Hw Hvw; cbn [fst snd]. apply elem_of_app in Hw as [Hw|Hw]; auto.
        apply list_elem_of_singleton in Hw as ->. congruence.
Qed.

(** [createVehicleNear] appends one vehicle with the next id (the counter
    then wraps as an [int]), starting at the
    nearest valid vertex (the first vertex when none is valid), heading for
    a vertex that is valid unless all 100 retries were spent. *)
Theorem createVehicleNear_spec graph rand uninitNext uninitPrev lon lat s v0 rest :
  vertices graph = v0 :: rest ->
  (forall v, v ∈ vertices graph -> isValidVertex graph v = true ->
     (sqDist graph lon lat v < dblMax)%R) ->
  exists car s',
    createVehicleNear graph rand uninitNext uninitPrev lon lat s = Some (car, s') /\
    simVehicles (core s') = simVehicles (core s) ++ [car] /\
    nextVehicleId s' = wrapInt (nextVehicleId s + 1) /\
    car = newVehicle uninitNext uninitPrev (nextVehicleId s) (Vehicule.start car) (Vehicule.goal car) /\
    Vehicule.start car ∈ vertices graph /\ Vehicule.goal car ∈ vertices graph /\
    (isValidVertex graph (Vehicule.goal car) = true \/
     randCounter (core s') = (randCounter (core s) + 101)%nat) /\
    ((exists v, v ∈ vertices graph /\ isValidVertex graph v = true) ->
       isValidVertex graph (Vehicule.start car) = true /\
       forall v, v ∈ vertices graph -> isValidVertex graph v = true ->
         (sqDist graph lon lat (Vehicule.start car) <= sqDist graph lon lat v)%R) /\
    ((forall v, v ∈ vertices graph -> isValidVertex graph v = false) -> Vehicule.start car = v0).
Proof.
  intros Hvs Hd.
  assert (Hne : vertices graph <> []) by (rewrite Hvs; done).
  pose proof (nearest_fold graph lon lat v0 (vertices graph) [] (v0, dblMax) Hd) as Hn.
  assert (Hinit : nearestInv graph lon lat v0 [] (v0, dblMax)).
  { left. cbn [fst snd]. split; [done|]. split; [done|]. set_solver. }
  specialize (Hn Hinit). simpl in Hn.
  unfold createVehicleNear. rewrite Hvs in Hn |- *. rewrite <- Hvs in Hn |- *.
  destruct (foldl (nearestStep graph lon lat) (v0, dblMax) (vertices graph)) as [nv md] eqn:Hf.
  destruct (drawVertex_elem graph rand (randCounter (core s)) Hne) as [Hg0 Hc1].
  destruct (drawVertex graph rand (randCounter (core s))) as [g0 c1] eqn:Hd1.
  cbn [fst snd] in Hg0, Hc1. subst c1.
  destruct (retryGoal_spec graph rand 100 g0 (S (randCounter (core s))) Hne Hg0) as [Hg1 Hgv].
  destruct (retryGoal graph rand 100 g0 (S (randCounter (core s)))) as [g1 c2] eqn:Hr.
  cbn [fst snd] in Hg1, Hgv.
  eexists _, _. split; [reflexivity|]. cbn.
  split; [done|]. split; [done|]. split; [reflexivity|].
  destruct Hn as [(H1 & H2 & Hall)|(H1 & H2 & H3 & Hall)]; cbn [fst snd] in *; subst.
  - split; [rewrite Hvs; by left|]. split; [done|]. split; [destruct Hgv; [by left|right; lia]|].
    split; [|done]. intros (v & Hv & Hvv). rewrite (Hall v Hv) in Hvv. done.
  - split; [done|]. split; [done|]. split; [destruct Hgv; [by left|right; lia]|].
    split; [done|]. intros Hnone. rewrite (Hnone nv H2) in H1. done.
Qed.

Lemma foldl_maxId_ge (l : list Vehicule.t) (a : Z) :
  (a <= foldl (fun maxId v => Z.max maxId (Vehicule.id v)) a l)%Z /\
  forall v, v ∈ l -> (Vehicule.id v <= foldl (fun maxId v => Z.max maxId (Vehicule.id v)) a l)%Z.
Proof.
  revert a. induction l as [|w l IH]; intros a; simpl.
  - split; [lia|]. intros v Hv. apply elem_of_nil in Hv. done.
  - destruct (IH (Z.max a (Vehicule.id w))) as [H1 H2]. split; [lia|].
    intros v Hv. apply elem_of_cons in Hv as [->|Hv]; [lia|auto].
Qed.

Lemma foldl_maxId_le (l : list Vehicule.t) (a b : Z) :
  (a <= b)%Z -> (forall v, v ∈ l -> (Vehicule.id v <= b)%Z) ->
  (foldl (fun maxId v => Z.max maxId (Vehicule.id v)) a l <= b)%Z.
Proof.
  revert a. induction l as [|w l IH]; intros a Ha Hl; simpl; [done|].
  apply IH; [|intros v Hv; apply Hl; by apply elem_of_cons; right].
  pose proof (Hl w ltac:(by apply elem_of_cons; left)). lia.
Qed.

(** [start] keeps the vehicles, makes the simulator running with its timer
    on, and moves [m_nextVehicleId] above every vehicle id when all ids are
    below [INT_MAX] (unchanged when there is no vehicle); a vehicle with id
    [INT_MAX] makes [maxId + 1] wrap to [INT_MIN]. *)
Theorem start_nextVehicleId tickInterval nowMs s :
  simVehicles (core (start tickInterval nowMs s)) = simVehicles (core s) /\
  isRunning (start tickInterval nowMs s) = true /\
  timerActive (start tickInterval nowMs s) = true /\
  ((forall v, v ∈ simVehicles (core s) -> (Vehicule.id v < INT_MAX)%Z) ->
   forall v, v ∈ simVehicles (core s) ->
     (Vehicule.id v < nextVehicleId (start tickInterval nowMs s))%Z) /\
  ((forall v, v ∈ simVehicles (core s) -> (Vehicule.id v <= INT_MAX)%Z) ->
   (exists v, v ∈ simVehicles (core s) /\ Vehicule.id v = INT_MAX) ->
   nextVehicleId (start tickInterval nowMs s) = INT_MIN) /\
  (simVehicles (core s) = [] -> nextVehicleId (start tickInterval nowMs s) = nextVehicleId s).
Proof.
  unfold start, isRunning; cbn [core simVehicles nextVehicleId running paused timerActive].
  destruct (simVehicles (core s)) as [|w l] eqn:Hvs.
  - split; [done|]. split; [done|]. split; [done|].
    split; [intros _ v Hv; apply elem_of_nil in Hv; done|].
    split; [intros _ (v & Hv & _); apply elem_of_nil in Hv; done|done].
  - destruct (foldl_maxId_ge (w :: l) 0%Z) as [H0 Hge].
    split; [done|]. split; [done|]. split; [done|]. split; [|split; [|done]].
    + intros Hall v Hv.
      assert (Hle : (foldl (fun maxId v => Z.max maxId (Vehicule.id v)) 0%Z (w :: l) <= INT_MAX - 1)%Z).
      { apply foldl_maxId_le; [int_lia|]. intros u Hu. specialize (Hall u Hu). lia. }
      rewrite wrapInt_small by int_lia.
      specialize (Hge v Hv). lia.
    + intros Hall (v & Hv & Hid).
      assert (Hle : (foldl (fun maxId v => Z.max maxId (Vehicule.id v)) 0%Z (w :: l) <= INT_MAX)%Z).
      { apply foldl_maxId_le; [int_lia|done]. }
      specialize (Hge v Hv).
      replace (foldl _ 0%Z (w :: l)) with INT_MAX by lia.
      rewrite wrapInt_high by int_lia. int_lia.
Qed.

Lemma ids_offset (cars : list Vehicule.t) (k : Z) :
  (forall i car, cars !! i = Some car -> Vehicule.id car = (k + Z.of_nat i)%Z) ->
  NoDup (map Vehicule.id cars) /\
  forall x, x ∈ map Vehicule.id cars -> (k <= x < k + Z.of_nat (length cars))%Z.
Proof.
  revert k. induction cars as [|c cars IH]; intros k Hc; simpl.
  - split; [constructor|]. intros x Hx. apply elem_of_nil in Hx. done.
  - destruct (IH (k + 1)%Z) as [H1 H2].
    { intros i car Hi. rewrite (Hc (S i) car Hi). lia. }
    pose proof (Hc 0 c eq_refl) as H0.
    split.
    + constructor; [|done]. intros Hin. apply H2 in Hin. lia.
    + intros x Hx. apply elem_of_cons in Hx as [->|Hx]; [lia|]. apply H2 in Hx. lia.
Qed.

Lemma freshIds_append s vs cars counter next :
  freshIds s ->
  vs = simVehicles (core s) ++ cars ->
  (forall i car, cars !! i = Some car -> Vehicule.id car = (nextVehicleId s + Z.of_nat i)%Z) ->
  next = (nextVehicleId s + Z.of_nat (length cars))%Z ->
  freshIds (withVehicles vs counter next s).
Proof.
  intros [Hnd Hlt] -> Hc ->. destruct (ids_offset cars (nextVehicleId s) Hc) as [H1 H2].
  unfold freshIds; cbn [withVehicles core simVehicles nextVehicleId]. split.
  - rewrite map_app. apply NoDup_app. split; [done|]. split; [|done].
    intros x Hx Hx'. apply H2 in Hx'. apply list_elem_of_In, in_map_iff in Hx as (v & <- & Hv).
    apply list_elem_of_In in Hv. apply Hlt in Hv. lia.
  - intros v Hv. apply elem_of_app in Hv as [Hv|Hv].
    + apply Hlt in Hv. lia.
    + assert (Hin : Vehicule.id v ∈ map Vehicule.id cars).
      { apply list_elem_of_In, in_map, list_elem_of_In, Hv. }
      apply H2 in Hin. lia.
Qed.

(** When the vehicle ids are distinct and below [m_nextVehicleId],
    [setVehicleCount] and [createVehicleNear] keep it so, as long as
    numbering the new vehicles does not overflow an [int]. *)
Theorem freshIds_preserved graph rand uninitNext uninitPrev fuel count lon lat s :
  freshIds s ->
  (INT_MIN <= nextVehicleId s)%Z ->
  (forall s',
     (nextVehicleId s + Z.max 0 (count - Z.of_nat (length (simVehicles (core s)))) <= INT_MAX)%Z ->
     setVehicleCount graph rand uninitNext uninitPrev fuel count s = Some s' -> freshIds s') /\
  (forall car s', (nextVehicleId s < INT_MAX)%Z ->
     createVehicleNear graph rand uninitNext uninitPrev lon lat s = Some (car, s') ->
     freshIds s').
Proof.
  intros Hf Hmin. split.
  - intros s' Hbound Hs. unfold setVehicleCount in Hs.
    destruct (decide _) as [Heq|Hne]; [congruence|].
    destruct (decide _) as [Hlt|Hge].
    + injection Hs as <-. destruct Hf as [Hnd Hlt'].
      unfold freshIds; cbn [withVehicles core simVehicles nextVehicleId].
      rewrite popBack_firstn. set (n := (length _ - _)%nat).
      rewrite <- (take_drop n (simVehicles (core s))) in Hnd, Hlt'.
      rewrite map_app in Hnd. apply NoDup_app in Hnd as [Hnd _].
      split; [done|]. intros v Hv. apply Hlt'. by apply elem_of_app; left.
    + destruct (vertices graph) eqn:Hvs.
      * destruct (Z.to_nat _) eqn:Hn; simpl in Hs; [|rewrite Hvs in Hs]; congruence.
      * apply addRandomVehicles_spec in Hs as (cars & Hc & Hl & Hn & Hcars & Hr & Hp & Ht & He & Hti & Hm);
          [|by rewrite Hvs|int_lia].
        destruct s' as [[e ti m vs cnt] r p t nx]; cbn in *. subst.
        rewrite wrapInt_small by int_lia.
        assert (Hw : mkSimControl (mkSimulator (elapsedStartMs (core s)) (tickIntervalMs (core s))
                  (speedMultiplier (core s)) (simVehicles (core s) ++ cars) cnt) (running s) (paused s)
                  (timerActive s) (nextVehicleId s + Z.of_nat (Z.to_nat (count - Z.of_nat (length (simVehicles (core s))))))%Z
               = withVehicles (simVehicles (core s) ++ cars) cnt
                   (nextVehicleId s + Z.of_nat (length cars))%Z s) by (rewrite Hl; reflexivity).
        rewrite Hw. eapply freshIds_append; eauto.
        intros i car Hi. pose proof (lookup_lt_Some _ _ _ Hi) as Hil.
        destruct (Hcars i car Hi) as [Hid _]. rewrite Hid.
        apply wrapInt_small. rewrite Hl in Hil. int_lia.
  - intros car s' Hmax Hc. unfold createVehicleNear in Hc.
    destruct (vertices graph); [done|].
    destruct (foldl _ _ _) as [nv md].
    destruct (drawVertex graph rand (randCounter (core s))) as [g0 c1].
    destruct (retryGoal graph rand 100 g0 c1) as [g1 c2].
    injection Hc as <- <-. rewrite wrapInt_small by int_lia.
    eapply freshIds_append; eauto.
    intros [|i] c Hi; simpl in Hi; [|by rewrite lookup_nil in Hi].
    injection Hi as <-. simpl. lia.
Qed.

(** The first tick after [resume] or [start] at time [t] measures its time
    step from [t], so time spent paused is not counted. *)
Theorem restart_timing graph rand fuel tickInterval t nowMs s s' deltaTime :
  (tickControl graph rand fuel nowMs (resume t s) = Some (s', deltaTime) \/
   tickControl graph rand fuel nowMs (start tickInterval t s) = Some (s', deltaTime)) ->
  deltaTime = (IZR (nowMs - t) / 1000 * speedMultiplier (core s))%R /\
  elapsedStartMs (core s') = nowMs /\ paused s' = false /\ timerActive s' = true.
Proof.
  unfold tickControl, onTick, resume, start; cbn [core elapsedStartMs speedMultiplier simVehicles randCounter].
  intros [Hs|Hs]; repeat case_match; simplify_eq; repeat split.
Qed.

(** [resume] does not look at [m_running]: after [stop], [resume] or
    [togglePause] from a pause restart the timer while [isRunning] stays
    false. *)
Theorem resume_after_stop t s :
  isRunning (resume t (stop s)) = false /\ timerActive (resume t (stop s)) = true /\
  isRunning (togglePause t (pause (stop s))) = false /\ timerActive (togglePause t (pause (stop s))) = true.
Proof. repeat split. Qed.

(** ** Witnesses of the further properties *)

Lemma buildGraphFromSnapshots_irreflexive_witness :
  NoDup (map VehicleSnapshot.id pair_snaps) /\
  (forall ai, Some pair_info = Some ai ->
     NoDup (concat (map snd (map_to_list (vehiclesPerAntenna ai))))) /\
  (forall i, i ∉ getDirectNeighbors
                 (buildGraphFromSnapshots (mkInterferenceGraph ∅ ∅ false) pair_snaps (Some pair_info)) i).
Proof.
  assert (H1 : NoDup (map VehicleSnapshot.id pair_snaps)) by (apply (bool_decide_unpack _); reflexivity).
  assert (H2 : forall ai, Some pair_info = Some ai ->
     NoDup (concat (map snd (map_to_list (vehiclesPerAntenna ai))))).
  { intros ai [= <-]. apply (bool_decide_unpack _). vm_compute. reflexivity. }
  split; [exact H1|]. split; [exact H2|].
  exact (buildGraphFromSnapshots_irreflexive _ _ _ H1 H2).
Defined.

Lemma buildGraph_irreflexive_witness :
  (forall i j v w, [Some line_vehicle; Some (Vehicule.construct 2 0 1 14 100 0 5)] !! i = Some (Some v) -> [Some line_vehicle; Some (Vehicule.construct 2 0 1 14 100 0 5)] !! j = Some (Some w) ->
     Vehicule.id v = Vehicule.id w -> i = j) /\
  (forall k, k ∉ getDirectNeighbors (buildGraph line_graph false (fun _ => []) (mkInterferenceGraph ∅ ∅ true) [Some line_vehicle; Some (Vehicule.construct 2 0 1 14 100 0 5)]) k).
Proof.
  assert (H : forall i j v w, [Some line_vehicle; Some (Vehicule.construct 2 0 1 14 100 0 5)] !! i = Some (Some v) -> [Some line_vehicle; Some (Vehicule.construct 2 0 1 14 100 0 5)] !! j = Some (Some w) ->
     Vehicule.id v = Vehicule.id w -> i = j).
  { intros [|[|i]] [|[|j]] v w Hi Hj Hid; cbn in Hi, Hj; try discriminate; try reflexivity;
      injection Hi as <-; injection Hj as <-; cbn in Hid; discriminate Hid. }
  split; [exact H|].
  exact (buildGraph_irreflexive line_graph false (fun _ => []) (mkInterferenceGraph ∅ ∅ true) [Some line_vehicle; Some (Vehicule.construct 2 0 1 14 100 0 5)] H).
Defined.

Lemma canCommunicate_builds_witness :
  computeTransitive (mkInterferenceGraph ∅ ∅ true) = true /\
  commProps (buildGraphFromSnapshots (mkInterferenceGraph ∅ ∅ true) pair_snaps (Some pair_info)).
Proof.
  assert (H : computeTransitive (mkInterferenceGraph ∅ ∅ true) = true) by reflexivity.
  split; [exact H|].
  exact (proj1 (canCommunicate_builds _ H) pair_snaps (Some pair_info)).
Defined.

Lemma buildGraphNeighbors_spec_witness :
  computeTransitive (mkInterferenceGraph ∅ ∅ true) = true /\
  (buildGraphNeighbors line_graph false (fun _ => []) (mkInterferenceGraph ∅ ∅ true) (fun p => Vehicule.construct (Z.of_nat p) 0 1 14 100 0 5) [Some 0; Some 1] ∅).1 =
    buildGraph line_graph false (fun _ => []) (mkInterferenceGraph ∅ ∅ true) (map (fmap (fun p => Vehicule.construct (Z.of_nat p) 0 1 14 100 0 5)) [Some 0; Some 1]) /\
  (forall p, Some p ∈ [Some 0; Some 1] ->
     exists l, (buildGraphNeighbors line_graph false (fun _ => []) (mkInterferenceGraph ∅ ∅ true) (fun p => Vehicule.construct (Z.of_nat p) 0 1 14 100 0 5) [Some 0; Some 1] ∅).2 !! p
               = Some l /\
       forall q, q ∈ l <->
         Some q ∈ [Some 0; Some 1] /\ q <> p /\
         canCommunicate (buildGraph line_graph false (fun _ => []) (mkInterferenceGraph ∅ ∅ true) (map (fmap (fun p => Vehicule.construct (Z.of_nat p) 0 1 14 100 0 5)) [Some 0; Some 1]))
           (Vehicule.id ((fun p => Vehicule.construct (Z.of_nat p) 0 1 14 100 0 5) p)) (Vehicule.id ((fun p => Vehicule.construct (Z.of_nat p) 0 1 14 100 0 5) q)) = true) /\
  (forall p, Some p ∉ [Some 0; Some 1] ->
     (buildGraphNeighbors line_graph false (fun _ => []) (mkInterferenceGraph ∅ ∅ true) (fun p => Vehicule.construct (Z.of_nat p) 0 1 14 100 0 5) [Some 0; Some 1] ∅).2 !! p
     = (∅ : gmap nat (list nat)) !! p).
Proof.
  assert (H : computeTransitive (mkInterferenceGraph ∅ ∅ true) = true) by reflexivity.
  split; [exact H|].
  exact (buildGraphNeighbors_spec line_graph false (fun _ => []) (mkInterferenceGraph ∅ ∅ true) (fun p => Vehicule.construct (Z.of_nat p) 0 1 14 100 0 5) [Some 0; Some 1] ∅ H).
Defined.

Lemma buildGraphNeighbors_symmetric_witness :
  computeTransitive (mkInterferenceGraph ∅ ∅ true) = true /\
  Some 0 ∈ [Some 0; Some 1] /\ Some 1 ∈ [Some 0; Some 1] /\
  exists lp lq,
    (buildGraphNeighbors line_graph false (fun _ => []) (mkInterferenceGraph ∅ ∅ true)
       (fun p => Vehicule.construct (Z.of_nat p) 0 1 14 100 0 5) [Some 0; Some 1] ∅).2 !! 0 = Some lp /\
    (buildGraphNeighbors line_graph false (fun _ => []) (mkInterferenceGraph ∅ ∅ true)
       (fun p => Vehicule.construct (Z.of_nat p) 0 1 14 100 0 5) [Some 0; Some 1] ∅).2 !! 1 = Some lq /\
    (1 ∈ lp <-> 0 ∈ lq).
Proof.
  assert (H : computeTransitive (mkInterferenceGraph ∅ ∅ true) = true) by reflexivity.
  assert (H0 : Some 0 ∈ [Some 0; Some 1]) by (apply elem_of_cons; left; reflexivity).
  assert (H1 : Some 1 ∈ [Some 0; Some 1]) by (apply elem_of_cons; right; apply elem_of_cons; left; reflexivity).
  split; [exact H|]. split; [exact H0|]. split; [exact H1|].
  exact (buildGraphNeighbors_symmetric line_graph false (fun _ => []) (mkInterferenceGraph ∅ ∅ true)
           (fun p => Vehicule.construct (Z.of_nat p) 0 1 14 100 0 5) [Some 0; Some 1] ∅ H 0 1 H0 H1).
Defined.

Lemma pickNextEdge_history_witness :
  length (Vehicule.recentVertices full_history_vehicle) <= Vehicule.MAX_HISTORY /\
  Vehicule.recentVertices (Vehicule.pickNextEdge line_graph zero_rand full_history_vehicle)
    = [3; 4; 5; 6; 7; 8; 9; 0] /\
  length (Vehicule.recentVertices (Vehicule.pickNextEdge line_graph zero_rand full_history_vehicle))
    <= Vehicule.MAX_HISTORY /\
  (Vehicule.validOutEdges line_graph full_history_vehicle <> [] ->
   last (Vehicule.recentVertices (Vehicule.pickNextEdge line_graph zero_rand full_history_vehicle)) =
   Some (Vehicule.currVertex full_history_vehicle)).
Proof.
  assert (H : length (Vehicule.recentVertices full_history_vehicle) <= Vehicule.MAX_HISTORY)
    by (cbn; unfold Vehicule.MAX_HISTORY; lia).
  split; [exact H|]. split; [reflexivity|].
  exact (pickNextEdge_history line_graph zero_rand full_history_vehicle H).
Defined.

Lemma moving_vehicle_update :
  Vehicule.update line_graph zero_rand 1 1 moving_vehicle
    = Some (Vehicule.moveAlongEdge line_graph zero_rand 1 moving_vehicle).
Proof.
  unfold Vehicule.update. rewrite decide_False by (cbn; lia).
  destruct (moveAlongEdge_fields line_graph zero_rand 1 moving_vehicle) as (He & Hp & _).
  cbv zeta in He, Hp.
  destruct (Rle_dec (Vehicule.edgeLength moving_vehicle) 0) as [H0|_]; [cbn in H0; lra|].
  cbn [Vehicule.advance].
  destruct (Rle_dec _ _) as [Hle|_]; [|reflexivity].
  rewrite He, Hp in Hle. cbn in Hle. lra.
Qed.

Lemma moving_vehicle_vector :
  Vehicule.movementVector line_graph zero_rand 1 moving_vehicle = (1 / 10000, 0)%R.
Proof.
  unfold Vehicule.movementVector, Vehicule.getPosition, moving_vehicle.
  repeat (cbn [Vehicule.edgeLength Vehicule.positionOnEdge Vehicule.speed Vehicule.currEdge
               Vehicule.set_positionOnEdge Vehicule.currVertex];
    match goal with
    | |- context [Rle_dec ?a ?b] => destruct (Rle_dec a b); [lra|]
    | |- context [Rlt_dec ?a ?b] => destruct (Rlt_dec a b); [lra|]
    end).
  cbn. f_equal; field.
Qed.

Lemma moving_vehicle_significant : Vehicule.significantMove (1 / 10000) 0 = true.
Proof.
  unfold Vehicule.significantMove, Rltb. destruct (Rlt_dec _ _) as [|H]; [reflexivity|].
  exfalso. apply H. rewrite Rabs_right by lra. lra.
Qed.

Lemma heading_update_spec_witness :
  (0 <= Vehicule.currentHeading moving_vehicle < 360)%R /\
  Vehicule.update line_graph zero_rand 1 1 moving_vehicle
    = Some (Vehicule.moveAlongEdge line_graph zero_rand 1 moving_vehicle) /\
  Vehicule.currVertex moving_vehicle <> Vehicule.goal moving_vehicle /\
  (0 <= Vehicule.currentHeading (Vehicule.moveAlongEdge line_graph zero_rand 1 moving_vehicle) < 360)%R /\
  specHeadingStep (Vehicule.currentHeading moving_vehicle) (1 / 10000) 0
    (Vehicule.currentHeading (Vehicule.moveAlongEdge line_graph zero_rand 1 moving_vehicle)).
Proof.
  assert (H1 : (0 <= Vehicule.currentHeading moving_vehicle < 360)%R) by (cbn; lra).
  pose proof moving_vehicle_update as H2.
  assert (H3 : Vehicule.currVertex moving_vehicle <> Vehicule.goal moving_vehicle) by (cbn; lia).
  destruct (heading_update_spec line_graph zero_rand 1 1 moving_vehicle _ H1 H2) as (Hr & _ & Hs).
  specialize (Hs H3). rewrite moving_vehicle_vector in Hs. cbv beta iota in Hs.
  rewrite moving_vehicle_significant in Hs.
  split; [exact H1|]. split; [exact H2|]. split; [exact H3|]. split; [exact Hr|exact Hs].
Defined.

Lemma update_invariants_witness :
  (0 <= Vehicule.positionOnEdge moving_vehicle)%R /\ (0 <= Vehicule.speed moving_vehicle)%R /\
  (0 <= 1)%R /\
  length (Vehicule.recentVertices moving_vehicle) <= Vehicule.MAX_HISTORY /\
  Vehicule.update line_graph zero_rand 1 1 moving_vehicle
    = Some (Vehicule.moveAlongEdge line_graph zero_rand 1 moving_vehicle) /\
  (let v' := Vehicule.moveAlongEdge line_graph zero_rand 1 moving_vehicle in
   Vehicule.speed v' = Vehicule.speed moving_vehicle /\ (0 <= Vehicule.positionOnEdge v')%R /\
   length (Vehicule.recentVertices v') <= Vehicule.MAX_HISTORY /\
   ((Vehicule.positionOnEdge v' < Vehicule.edgeLength v')%R \/
    (Vehicule.edgeLength v' = 0%R /\ Vehicule.currVertex v' = Vehicule.start v'))).
Proof.
  assert (H1 : (0 <= Vehicule.positionOnEdge moving_vehicle)%R) by (cbn; lra).
  assert (H2 : (0 <= Vehicule.speed moving_vehicle)%R) by (cbn; lra).
  assert (H3 : (0 <= 1)%R) by lra.
  assert (H4 : length (Vehicule.recentVertices moving_vehicle) <= Vehicule.MAX_HISTORY)
    by (cbn; unfold Vehicule.MAX_HISTORY; lia).
  pose proof moving_vehicle_update as H5.
  split; [exact H1|]. split; [exact H2|]. split; [exact H3|]. split; [exact H4|]. split; [exact H5|].
  exact (update_invariants line_graph zero_rand 1 1 moving_vehicle _ H1 H2 H3 H4 H5).
Defined.

Lemma setVehicleCount_shrink_witness :
  ((INT_MIN <= 1)%Z /\ (Z.of_nat (length (simVehicles (core two_control))) <= INT_MAX)%Z /\
   (1 < Z.of_nat (length (simVehicles (core two_control))))%Z /\
   setVehicleCount line_graph zero_rand 0 0 1 1 two_control =
     Some (if decide (Z.of_nat (length (simVehicles (core two_control))) - 1 <= INT_MAX)%Z
           then withVehicles (firstn (Z.to_nat 1) (simVehicles (core two_control)))
                  (randCounter (core two_control)) (nextVehicleId two_control) two_control
           else two_control)) /\
  ((INT_MIN <= INT_MIN)%Z /\ (Z.of_nat (length (simVehicles (core two_control))) <= INT_MAX)%Z /\
   (INT_MIN < Z.of_nat (length (simVehicles (core two_control))))%Z /\
   setVehicleCount line_graph zero_rand 0 0 1 INT_MIN two_control = Some two_control).
Proof.
  assert (H1 : (INT_MIN <= 1)%Z) by int_lia.
  assert (H2 : (Z.of_nat (length (simVehicles (core two_control))) <= INT_MAX)%Z) by (cbn; int_lia).
  assert (H3 : (1 < Z.of_nat (length (simVehicles (core two_control))))%Z) by (cbn; lia).
  assert (H4 : (INT_MIN <= INT_MIN)%Z) by lia.
  assert (H5 : (INT_MIN < Z.of_nat (length (simVehicles (core two_control))))%Z) by (cbn; int_lia).
  pose proof (setVehicleCount_shrink line_graph zero_rand 0 0 1 INT_MIN two_control H4 H2 H5) as E.
  rewrite decide_False in E by (cbn; int_lia).
  split.
  - split; [exact H1|]. split; [exact H2|]. split; [exact H3|].
    exact (setVehicleCount_shrink line_graph zero_rand 0 0 1 1 two_control H1 H2 H3).
  - split; [exact H4|]. split; [exact H2|]. split; [exact H5|exact E].
Defined.

Lemma setVehicleCount_grow_witness :
  (INT_MIN <= nextVehicleId empty_control <= INT_MAX)%Z /\
  (Z.of_nat (length (simVehicles (core empty_control))) < 2)%Z /\
  setVehicleCount line_graph zero_rand 0 0 5 2 empty_control = Some grown_control /\
  (vertices line_graph = [] -> grown_control = empty_control) /\
  (vertices line_graph <> [] ->
   exists cars,
    simVehicles (core grown_control) = simVehicles (core empty_control) ++ cars /\
    Z.of_nat (length (simVehicles (core grown_control))) = 2%Z /\
    nextVehicleId grown_control = wrapInt (nextVehicleId empty_control + Z.of_nat (length cars)) /\
    (forall i car, cars !! i = Some car ->
       Vehicule.id car = wrapInt (nextVehicleId empty_control + Z.of_nat i) /\
       car = newVehicle 0 0 (Vehicule.id car) (Vehicule.start car) (Vehicule.goal car) /\
       Vehicule.start car ∈ vertices line_graph /\ Vehicule.goal car ∈ vertices line_graph /\
       isValidVertex line_graph (Vehicule.start car) = true /\
       isValidVertex line_graph (Vehicule.goal car) = true)).
Proof.
  assert (H1 : (INT_MIN <= nextVehicleId empty_control <= INT_MAX)%Z) by (cbn; int_lia).
  assert (H2 : (Z.of_nat (length (simVehicles (core empty_control))) < 2)%Z) by (cbn; lia).
  assert (H3 : setVehicleCount line_graph zero_rand 0 0 5 2 empty_control = Some grown_control)
    by reflexivity.
  split; [exact H1|]. split; [exact H2|]. split; [exact H3|].
  exact (setVehicleCount_grow line_graph zero_rand 0 0 5 2 empty_control _ H1 H2 H3).
Defined.

Lemma setVehicleCount_diverges_witness :
  (Z.of_nat (length (simVehicles (core empty_control))) < 1)%Z /\
  vertices dead_end_graph <> [] /\
  (forall v, v ∈ vertices dead_end_graph -> isValidVertex dead_end_graph v = false) /\
  setVehicleCount dead_end_graph zero_rand 0 0 1000 1 empty_control = None.
Proof.
  assert (H1 : (Z.of_nat (length (simVehicles (core empty_control))) < 1)%Z) by (cbn; lia).
  assert (H2 : vertices dead_end_graph <> []) by discriminate.
  assert (H3 : forall v, v ∈ vertices dead_end_graph -> isValidVertex dead_end_graph v = false)
    by (intros v _; reflexivity).
  split; [exact H1|]. split; [exact H2|]. split; [exact H3|].
  exact (setVehicleCount_diverges dead_end_graph zero_rand 0 0 1000 1 empty_control H1 H2 H3).
Defined.

Lemma createVehicleNear_spec_witness :
  vertices line_graph = 0 :: [1] /\
  (forall v, v ∈ vertices line_graph -> isValidVertex line_graph v = true ->
     (sqDist line_graph 0 0 v < dblMax)%R) /\
  exists car s',
    createVehicleNear line_graph zero_rand 0 0 0 0 empty_control = Some (car, s') /\
    simVehicles (core s') = simVehicles (core empty_control) ++ [car].
Proof.
  assert (H1 : vertices line_graph = 0 :: [1]) by reflexivity.
  assert (H2 : forall v, v ∈ vertices line_graph -> isValidVertex line_graph v = true ->
     (sqDist line_graph 0 0 v < dblMax)%R).
  { assert (Hm : (0 < dblMax)%R) by (apply (IZR_lt 0); reflexivity).
    intros v Hv Hvv. cbn in Hv. apply elem_of_cons in Hv as [->|Hv].
    - unfold sqDist. cbn. lra.
    - apply list_elem_of_singleton in Hv as ->. discriminate Hvv. }
  split; [exact H1|]. split; [exact H2|].
  destruct (createVehicleNear_spec line_graph zero_rand 0 0 0 0 empty_control 0 [1] H1 H2)
    as (car & s' & Hc & Hv & _).
  exists car, s'. split; [exact Hc|exact Hv].
Defined.

Lemma start_nextVehicleId_witness :
  nextVehicleId (start 50 0 max_control) = INT_MIN.
Proof.
  destruct (start_nextVehicleId 50 0 max_control) as (_ & _ & _ & _ & H & _).
  apply H.
  - intros v Hv. cbn [max_control core simVehicles] in Hv.
    apply elem_of_cons in Hv as [->|Hv]; [cbn; int_lia|].
    apply list_elem_of_singleton in Hv as ->. cbn; int_lia.
  - exists (Vehicule.construct INT_MAX 0 1 14 100 0 5). split; [|reflexivity].
    apply elem_of_cons; right. apply list_elem_of_singleton. reflexivity.
Defined.

Lemma freshIds_preserved_witness :
  freshIds pair_control /\ (INT_MIN <= nextVehicleId pair_control)%Z /\
  (forall s',
     (nextVehicleId pair_control + Z.max 0 (3 - Z.of_nat (length (simVehicles (core pair_control))))
        <= INT_MAX)%Z ->
     setVehicleCount line_graph zero_rand 0 0 5 3 pair_control = Some s' -> freshIds s') /\
  (forall car s', (nextVehicleId pair_control < INT_MAX)%Z ->
     createVehicleNear line_graph zero_rand 0 0 0 0 pair_control = Some (car, s') ->
     freshIds s').
Proof.
  assert (H1 : freshIds pair_control).
  { unfold freshIds. split; [apply (bool_decide_unpack _); vm_compute; reflexivity|].
    intros v Hv. cbn [pair_control core simVehicles] in Hv.
    apply elem_of_cons in Hv as [->|Hv]; [cbn; lia|].
    apply list_elem_of_singleton in Hv as ->. cbn; lia. }
  assert (H2 : (INT_MIN <= nextVehicleId pair_control)%Z) by (cbn; int_lia).
  split; [exact H1|]. split; [exact H2|].
  exact (freshIds_preserved line_graph zero_rand 0 0 5 3 0 0 pair_control H1 H2).
Defined.

Lemma restart_timing_witness :
  (tickControl line_graph zero_rand 1 1000 (resume 500 empty_control)
     = Some (set_core (mkSimulator 1000 50 1 [] 0) (resume 500 empty_control), (IZR (1000 - 500) / 1000 * 1)%R) \/
   tickControl line_graph zero_rand 1 1000 (start 50 500 empty_control)
     = Some (set_core (mkSimulator 1000 50 1 [] 0) (resume 500 empty_control), (IZR (1000 - 500) / 1000 * 1)%R)) /\
  (IZR (1000 - 500) / 1000 * 1 = IZR (1000 - 500) / 1000 * speedMultiplier (core empty_control))%R.
Proof.
  assert (H : tickControl line_graph zero_rand 1 1000 (resume 500 empty_control)
     = Some (set_core (mkSimulator 1000 50 1 [] 0) (resume 500 empty_control), (IZR (1000 - 500) / 1000 * 1)%R) \/
   tickControl line_graph zero_rand 1 1000 (start 50 500 empty_control)
     = Some (set_core (mkSimulator 1000 50 1 [] 0) (resume 500 empty_control), (IZR (1000 - 500) / 1000 * 1)%R))
    by (left; reflexivity).
  split; [exact H|].
  exact (proj1 (restart_timing _ _ _ _ _ _ _ _ _ H)).
Defined.
